(** * amptec-scraper: the crawl frontier, its retry policy and its
      link classification, embedded from [crawl.py] and [main.py].

    The development follows the source file by file.  Python sets are
    lists kept free of repetitions and handled through membership tests;
    which element [set.pop()] takes is left to an oracle, and so is the
    order in which the worker tasks of the queue-based crawl run.  The
    ScrapingBee client is an oracle too.  Every request handed to the
    client is recorded in a log field of the state, which the source does
    not have, so that properties of the sequence of requests can be
    stated.  [urlparse] and [str.lower()] are modelled as they work on
    URLs of printable ASCII without square brackets; a theorem that leans
    on what they return says so in a hypothesis. *)

From Stdlib Require Import List String Ascii Arith Bool Lia PeanoNat.
Import ListNotations.
Open Scope string_scope.
Open Scope list_scope.
Open Scope nat_scope.

(* ================================================================== *)
(** * Python strings *)
(* ================================================================== *)

Module PyStr.

(** [str.lower()] on the ASCII range, which is where URLs live: the
    letters [A] to [Z] are lowered and every other byte is kept.  Python
    also lowers letters outside ASCII, so the model is [str.lower()] on
    ASCII text only; the theorems that lean on it being exact ask for
    [Plain.plain] text. *)
Definition lower_ascii (c : ascii) : ascii :=
  let n := nat_of_ascii c in
  if andb (65 <=? n) (n <=? 90) then ascii_of_nat (n + 32) else c.

Fixpoint lower (s : string) : string :=
  match s with
  | EmptyString => EmptyString
  | String c s' => String (lower_ascii c) (lower s')
  end.

(** [k in s] for two strings: [k] occurs in [s] as a contiguous block. *)
Fixpoint contains (k s : string) : bool :=
  if String.prefix k s then true
  else match s with
       | EmptyString => false
       | String _ s' => contains k s'
       end.

(** The mathematical reading of [k in s]. *)
Definition occurs_in (k s : string) : Prop :=
  exists pre post, s = (pre ++ k ++ post)%string.

(** [c in s] for a single character. *)
Fixpoint has_char (c : ascii) (s : string) : bool :=
  match s with
  | EmptyString => false
  | String d s' => if Ascii.eqb c d then true else has_char c s'
  end.

(** [s.split(c, 1)]: the text before the first [c] and the text after it;
    the whole string and nothing when [c] does not occur. *)
Fixpoint split_first (c : ascii) (s : string) : string * string :=
  match s with
  | EmptyString => (EmptyString, EmptyString)
  | String d s' =>
      if Ascii.eqb c d then (EmptyString, s')
      else let '(a, b) := split_first c s' in (String d a, b)
  end.

(** Cut [s] in front of the first character satisfying [p]. *)
Fixpoint break_at (p : ascii -> bool) (s : string) : string * string :=
  match s with
  | EmptyString => (EmptyString, EmptyString)
  | String d s' =>
      if p d then (EmptyString, s)
      else let '(a, b) := break_at p s' in (String d a, b)
  end.

(** Cut [s] after its last ["/"]: [(s[:j+1], s[j+1:])] with
    [j = s.rfind("/")], and [("", s)] when there is none. *)
Fixpoint split_last_slash (s : string) : string * string :=
  match s with
  | EmptyString => (EmptyString, EmptyString)
  | String c s' =>
      let '(h, t) := split_last_slash s' in
      if has_char "/" s' then (String c h, t)
      else if Ascii.eqb c "/" then (String c EmptyString, s')
      else (EmptyString, String c s')
  end.

(** [s.rpartition(c)[2]]: the text after the last [c], and the whole
    string when [c] does not occur. *)
Fixpoint after_last (c : ascii) (s : string) : string :=
  match s with
  | EmptyString => EmptyString
  | String d s' =>
      if has_char c s' then after_last c s'
      else if Ascii.eqb c d then s' else s
  end.

Fixpoint forallb_str (p : ascii -> bool) (s : string) : bool :=
  match s with
  | EmptyString => true
  | String c s' => andb (p c) (forallb_str p s')
  end.

Definition is_alpha (c : ascii) : bool :=
  let n := nat_of_ascii c in
  orb (andb (65 <=? n) (n <=? 90))
      (andb (97 <=? n) (n <=? 122)).

Definition is_digit (c : ascii) : bool :=
  let n := nat_of_ascii c in andb (48 <=? n) (n <=? 57).

End PyStr.

(* ================================================================== *)
(** * urllib.parse.urlparse *)
(* ================================================================== *)

(** The crawler reads [netloc] and [path] of [urlparse(url)].  The model
    follows [urlsplit] and [urlparse] of the standard library: a leading
    scheme, a network location after ["//"], then the fragment, the query
    and the parameters of the last path segment are cut off in that order.
    [urlsplit] also strips blanks and control characters, and it raises
    [ValueError] on an unbalanced square bracket or on some characters
    outside ASCII in the network location; none of this is modelled, so
    the model is [urlparse] on the URLs of [Plain.plain] below, printable
    ASCII without square brackets, and the theorems that lean on it being
    exact ask for such URLs. *)
Module Urllib.
Import PyStr.

Record ParseResult := {
  scheme : string;
  netloc : string;
  path : string;
  params : string;
  query : string;
  fragment : string
}.

Definition scheme_char (c : ascii) : bool :=
  orb (orb (is_alpha c) (is_digit c))
      (orb (Ascii.eqb c "+") (orb (Ascii.eqb c "-") (Ascii.eqb c "."))).

Definition uses_params : list string :=
  [""; "ftp"; "hdl"; "prospero"; "http"; "imap"; "https"; "shttp"; "rtsp";
   "rtspu"; "sip"; "sips"; "mms"; "sftp"; "tel"].

(** [i = url.find(":")], and the scheme is taken when [i > 0], the first
    character is a letter and [url[:i]] holds scheme characters only. *)
Definition split_scheme (url : string) : string * string :=
  if has_char ":" url then
    let '(s, rest) := split_first ":" url in
    match s with
    | EmptyString => (EmptyString, url)
    | String c _ =>
        if andb (is_alpha c) (forallb_str scheme_char s)
        then (lower s, rest) else (EmptyString, url)
    end
  else (EmptyString, url).

Definition netloc_delim (c : ascii) : bool :=
  orb (Ascii.eqb c "/") (orb (Ascii.eqb c "?") (Ascii.eqb c "#")).

(** [if url[:2] == "//": netloc, url = _splitnetloc(url, 2)] *)
Definition split_netloc (url : string) : string * string :=
  match url with
  | String "/" (String "/" rest) => break_at netloc_delim rest
  | _ => (EmptyString, url)
  end.

(** [_splitparams]: the first [";"] at or after the last ["/"]. *)
Definition splitparams (url : string) : string * string :=
  let '(h, t) := split_last_slash url in
  if has_char ";" t then
    let '(a, b) := split_first ";" t in ((h ++ a)%string, b)
  else (url, EmptyString).

Definition urlparse (url : string) : ParseResult :=
  let '(sch, u1) := split_scheme url in
  let '(loc, u2) := split_netloc u1 in
  let '(u3, frag) := if has_char "#" u2 then split_first "#" u2
                     else (u2, EmptyString) in
  let '(u4, qry) := if has_char "?" u3 then split_first "?" u3
                    else (u3, EmptyString) in
  let '(u5, prm) :=
    if andb (existsb (String.eqb sch) uses_params) (has_char ";" u4)
    then splitparams u4 else (u4, EmptyString) in
  {| scheme := sch; netloc := loc; path := u5; params := prm;
     query := qry; fragment := frag |}.

(** [hostname] of a parse result: the network location without the user
    information in front of the last ["@"] and without the port, in lower
    case but for the zone of a scoped address; [None] when that is
    empty. *)
Definition hostname (r : ParseResult) : option string :=
  let hostinfo := after_last "@" (netloc r) in
  let name :=
    if has_char "[" hostinfo
    then fst (split_first "]" (snd (split_first "[" hostinfo)))
    else fst (split_first ":" hostinfo) in
  match name with
  | EmptyString => None
  | _ =>
      Some (if has_char "%" name
            then let '(h, zone) := split_first "%" name in
                 (lower h ++ "%" ++ zone)%string
            else lower name)
  end.

(** A scheme, a network location, a path and a query that can be written
    one after the other as [scheme://netloc/path?query]: the scheme starts
    with a letter and is made of scheme characters, the network location
    holds none of ["/"], ["?"], ["#"], the path is empty or starts with
    ["/"] and holds none of ["?"], ["#"], [";"], and the query holds no
    ["#"]. *)
Definition url_parts (sch loc p q : string) : Prop :=
  (exists c s, sch = String c s /\ is_alpha c = true) /\
  forallb_str scheme_char sch = true /\
  (has_char "/" loc = false /\ has_char "?" loc = false /\
   has_char "#" loc = false) /\
  (p = EmptyString \/ exists p', p = String "/" p') /\
  (has_char "?" p = false /\ has_char "#" p = false /\
   has_char ";" p = false) /\
  has_char "#" q = false.

End Urllib.

(* ================================================================== *)
(** * crawl.py: link classification *)
(* ================================================================== *)

Module Classify.
Import PyStr Urllib.

(** [def _is_product_url(url, keywords)]: the keyword is looked for in the
    whole lower-cased URL. *)
Definition _is_product_url (url : string) (keywords : list string) : bool :=
  let url_lower := lower url in
  existsb (fun keyword => contains keyword url_lower) keywords.

(** [def _looks_like_product_url(url, keywords)]: the keyword is looked for
    in the lower-cased path only. *)
Definition _looks_like_product_url (url : string) (keywords : list string)
  : bool :=
  let path := lower (path (urlparse url)) in
  existsb (fun k => contains k path) keywords.

End Classify.

(* ================================================================== *)
(** * The fetcher and the pages it returns *)
(* ================================================================== *)

Module Web.

(** A page as the crawler looks at it: whether the text is the empty
    string (Python truthiness) and what BeautifulSoup finds in it, the
    [href] values of [soup.find_all("a", href=True)] in document order, or
    [None] when parsing raises. *)
Record Html := {
  nonempty : bool;
  anchors : option (list string)
}.

(** A [requests.Response]: [utf8] tells whether
    [content.decode("utf-8")] succeeds. *)
Record Response := {
  status_code : nat;
  utf8 : bool;
  body : Html
}.

(** [Response.ok] of the requests library: the status is not in the range
    from 400 to 599. *)
Definition ok (r : Response) : bool :=
  negb (andb (400 <=? status_code r) (status_code r <? 600)).

(** What a call of [client.get] does. *)
Inductive Reply :=
| Returns (r : Response)
| Raises.

(** The [params] argument of [client.get]; [render_js] and
    [premium_proxy] never change.  The session label is built from a
    prefix, the attempt number and a hash of the URL. *)
Record ProxyParams := {
  country_code : string;
  session_id : option (string * nat * string)
}.

(** One call of [client.get], as recorded in the log. *)
Record Request := {
  req_url : string;
  req_attempt : nat;
  req_params : ProxyParams
}.

(** Python truthiness of [os.getenv(...)]. *)
Definition truthy (v : option string) : bool :=
  match v with
  | Some (String _ _) => true
  | _ => false
  end.

(** Sets of URLs: lists kept free of repetitions. *)
Definition mem (x : string) (s : list string) : bool :=
  if in_dec string_dec x s then true else false.

Definition add (x : string) (s : list string) : list string :=
  if mem x s then s else s ++ [x].

(** [s.pop()]: some element of a non-empty set leaves it; [i] says which. *)
Definition pop (i : nat) (s : list string) : option (string * list string) :=
  match s with
  | [] => None
  | x :: _ =>
      let j := i mod List.length s in
      Some (nth j s x, firstn j s ++ skipn (S j) s)
  end.

End Web.

(* ================================================================== *)
(** * crawl.py: link extraction *)
(* ================================================================== *)

Module Extract.
Import Web.

(** What a call of [canonical_url] does: it returns a URL, it returns
    something falsy, or it raises. *)
Inductive Canonical :=
| Resolved (url : string)
| Falsy
| Fails.

Section WithCanonical.

(** [canonical_url] comes from [utils], which is not part of the sources
    at hand: it is a parameter. *)
Variable canonical_url : string -> string -> Canonical.

(** [for a in anchor_tags]: [None] when a call of [canonical_url]
    raises. *)
Fixpoint collect (base_url : string) (anchor_tags : list string)
    (links : list string) : option (list string) :=
  match anchor_tags with
  | [] => Some links
  | href :: rest =>
      match canonical_url base_url href with
      | Resolved url => collect base_url rest (add url links)
      | Falsy => collect base_url rest links
      | Fails => None
      end
  end.

(** The [try] block of [_extract_links]: [None] when it raises. *)
Definition try_extract (base_url : string) (html : Html)
  : option (list string) :=
  match anchors html with
  | Some anchor_tags => collect base_url anchor_tags []
  | None => None
  end.

(** [def _extract_links(base_url, html)]: whatever is raised inside, the
    result is then the empty set. *)
Definition _extract_links (base_url : string) (html : Html) : list string :=
  match try_extract base_url html with
  | Some links => links
  | None => []
  end.

End WithCanonical.
End Extract.

(* ================================================================== *)
(** * crawl.py: crawl_with_scrapingbee *)
(* ================================================================== *)

Module Bee.
Import PyStr Urllib Classify Web Extract.

Record State := {
  visited : list string;
  to_visit : list string;
  product_urls : list string;
  (** every call of [scrapingbee_client.get], oldest first (ghost) *)
  requests : list Request
}.

Definition max_retries : nat := 3.

(** [proxy_params] of one attempt. *)
Definition proxy_params (url : string) (attempt : nat) : ProxyParams :=
  if 0 <? attempt then
    {| country_code := nth (attempt mod 3) ["us"; "ca"; "gb"] "us";
       session_id := Some ("crawl", attempt, url) |}
  else {| country_code := "us"; session_id := None |}.

Definition request (url : string) (attempt : nat) : Request :=
  {| req_url := url; req_attempt := attempt;
     req_params := proxy_params url attempt |}.

(** What leaves the [try] block of one page. *)
Inductive PageOutcome :=
| Completed (st : State)
| Raised (st : State).

(** The URLs for which a page fetch was started: each page fetch opens
    with attempt 0. *)
Definition first_attempt (q : Request) : bool := req_attempt q =? 0.

Definition pages (log : list Request) : list string :=
  map req_url (filter first_attempt log).

Section Crawl.

Variable canonical_url : string -> string -> Canonical.

(** [scrapingbee_client.get]: the reply may depend on how many requests
    were issued before, on the URL and on the parameters. *)
Variable client : nat -> string -> ProxyParams -> Reply.

(** The element [to_visit.pop()] takes, as an index into the set. *)
Variable pick : State -> nat.

Variable base_url : string.
Variable allowed_domains : list string.
Variable keywords : list string.
Variable max_pages : nat.

(** [for attempt in range(max_retries)]: the attempts still to run, the
    value of [response] so far and the log.  The sleeps between attempts
    do not show in the state. *)
Fixpoint attempts_loop (attempts : list nat) (url : string)
    (response : option Response) (log : list Request)
  : option Response * list Request :=
  match attempts with
  | [] => (response, log)
  | attempt :: rest =>
      let log' := log ++ [request url attempt] in
      match client (List.length log) url (proxy_params url attempt) with
      | Returns r =>
          if ok r then (Some r, log')
          else if status_code r =? 503 then
            (* [if attempt < max_retries - 1: sleep; continue]; on the
               last attempt the body ends and so does the loop *)
            attempts_loop rest url (Some r) log'
          else (Some r, log')
      | Raises =>
          if attempt =? max_retries - 1 then (response, log')
          else attempts_loop rest url response log'
      end
  end.

(** [any(domain in parsed.netloc for domain in allowed_domains)] *)
Definition in_allowed (link : string) : bool :=
  existsb (fun domain => contains domain (netloc (urlparse link)))
          allowed_domains.

(** The body of [for link in filtered_links]. *)
Definition visit_link (st : State) (link : string) : State :=
  let products :=
    if _is_product_url link keywords then
      if negb (mem link (product_urls st)) then add link (product_urls st)
      else product_urls st
    else product_urls st in
  let queue :=
    if andb (List.length (visited st) <? max_pages)
            (andb (negb (mem link (visited st)))
                  (negb (mem link (to_visit st))))
    then add link (to_visit st) else to_visit st in
  {| visited := visited st; to_visit := queue; product_urls := products;
     requests := requests st |}.

(** [filtered_links]: the links whose network location holds an allowed
    domain.  [urlparse(link)] is taken to return, as it does on the links
    of [Plain.plain]; where it raises, the [try] block of the page is left
    at that link and the page yields nothing. *)
Definition filter_links (links : list string) : list string :=
  fold_left (fun acc link => if in_allowed link then add link acc else acc)
            links [].

(** The [try] block for one URL, after [visited.add(url)].  It is left
    by a raise when there is no response, when the bytes do not decode,
    and, in the source, when [urlparse] raises on a link, which the
    links of [Plain.plain] do not make it do. *)
Definition try_page (url : string) (st : State) : PageOutcome :=
  let '(response, log) :=
    attempts_loop (seq 0 max_retries) url None (requests st) in
  let st1 := {| visited := visited st; to_visit := to_visit st;
                product_urls := product_urls st; requests := log |} in
  match response with
  | None => Raised st1          (* [response.ok] on [None] *)
  | Some r =>
      if ok r then
        if utf8 r then
          let links := _extract_links canonical_url base_url (body r) in
          let filtered_links := filter_links links in
          Completed (fold_left visit_link filtered_links st1)
        else Raised st1         (* [content.decode] raises *)
      else Completed st1        (* the error is printed *)
  end.

(** [try: ... except Exception as e: print(...)] *)
Definition crawl_page (url : string) (st : State) : State :=
  match try_page url st with
  | Completed st' => st'
  | Raised st' => st'
  end.

(** [while to_visit and len(visited) < max_pages] *)
Definition running (st : State) : bool :=
  andb (negb (match to_visit st with [] => true | _ => false end))
       (List.length (visited st) <? max_pages).

(** One turn of the [while] loop. *)
Definition iteration (st : State) : State :=
  match pop (pick st) (to_visit st) with
  | None => st
  | Some (url, rest) =>
      let st1 := {| visited := visited st; to_visit := rest;
                    product_urls := product_urls st;
                    requests := requests st |} in
      if negb (mem url (visited st1)) then
        crawl_page url
          {| visited := add url (visited st1); to_visit := to_visit st1;
             product_urls := product_urls st1; requests := requests st1 |}
      else st1
  end.

(** The loop, run for at most [fuel] turns: [None] when the loop is still
    running after that many. *)
Fixpoint crawl_loop (fuel : nat) (st : State) : option State :=
  if running st then
    match fuel with
    | 0 => None
    | S fuel' => crawl_loop fuel' (iteration st)
    end
  else Some st.

Definition init : State :=
  {| visited := []; to_visit := [base_url]; product_urls := [];
     requests := [] |}.

(** [async def crawl_with_scrapingbee(...)]: the state on leaving the
    loop; the function returns [list(product_urls)]. *)
Definition crawl_with_scrapingbee (fuel : nat) : option State :=
  crawl_loop fuel init.

(** The states in which the loop condition is evaluated. *)
Inductive at_loop_head : State -> Prop :=
| head_init : at_loop_head init
| head_next st :
    at_loop_head st -> running st = true -> at_loop_head (iteration st).

(** The page fetch of [url] from state [st] fails: no response at all, an
    error status, bytes that do not decode, or an extraction of the links
    that raises. *)
Definition page_failed (url : string) (st : State) : Prop :=
  match fst (attempts_loop (seq 0 max_retries) url None (requests st)) with
  | None => True
  | Some r =>
      ok r = false \/ utf8 r = false \/
      try_extract canonical_url base_url (body r) = None
  end.

(** What holds of the state during the loop; [pending] is the URL, if
    any, that is in [visited] while its page fetch has not started. *)
Record Inv (pending : list string) (st : State) : Prop := {
  inv_nodup_visited : NoDup (visited st);
  inv_nodup_to_visit : NoDup (to_visit st);
  inv_disjoint : forall u, In u (to_visit st) -> ~ In u (visited st);
  inv_budget : List.length (visited st) <= max_pages;
  inv_pages : pages (requests st) ++ pending = visited st;
  inv_requests :
    List.length (requests st) + max_retries * List.length pending
    <= max_retries * List.length (visited st);
  inv_request_urls :
    forall q, In q (requests st) -> In (req_url q) (visited st);
  inv_domain :
    forall u, In u (to_visit st) \/ In u (visited st) ->
              u = base_url \/ in_allowed u = true;
  inv_products :
    forall p, In p (product_urls st) ->
              in_allowed p = true /\ _is_product_url p keywords = true
}.

End Crawl.
End Bee.

(* ================================================================== *)
(** * crawl.py: fetch and the queue-based crawl *)
(* ================================================================== *)

(** [crawl] is defined twice in the module; the second definition, with a
    queue and a pool of workers, is the one the name is bound to, and it is
    the one modelled here (the first is in [Batch] below).  Workers are
    asyncio tasks: a worker runs alone
    until it suspends, so one transition carries a worker from one
    suspension point to the next.  A [put] on an unbounded queue and a
    [get] on a non-empty one do not suspend. *)
Module Frontier.
Import PyStr Urllib Classify Web Extract.

(** Where a worker task is suspended. *)
Inductive Worker :=
| AtGet                     (* at [await to_visit.get()] *)
| WaitSem (url : string)    (* inside [async with sem], waiting for a permit *)
| Fetching (url : string)   (* inside [await fetch(...)], request sent *)
| Exited.                   (* left the loop through [break] *)

Record State := {
  seen : list string;
  to_visit : list string;            (* the queue, oldest first *)
  unfinished : nat;                  (* the queue's count of unfinished tasks *)
  product_candidates : list string;
  sem : nat;                         (* free permits of the semaphore *)
  workers : list Worker;
  (** every URL handed to [sb_client.get], oldest first (ghost) *)
  requests : list string
}.

Definition with_seen (v : list string) (st : State) : State :=
  {| seen := v; to_visit := to_visit st; unfinished := unfinished st;
     product_candidates := product_candidates st; sem := sem st;
     workers := workers st;
     requests := requests st |}.

Definition with_to_visit (v : list string) (st : State) : State :=
  {| seen := seen st; to_visit := v; unfinished := unfinished st;
     product_candidates := product_candidates st; sem := sem st;
     workers := workers st;
     requests := requests st |}.

Definition with_sem (v : nat) (st : State) : State :=
  {| seen := seen st; to_visit := to_visit st; unfinished := unfinished st;
     product_candidates := product_candidates st; sem := v;
     workers := workers st;
     requests := requests st |}.

Definition with_requests (v : list string) (st : State) : State :=
  {| seen := seen st; to_visit := to_visit st; unfinished := unfinished st;
     product_candidates := product_candidates st; sem := sem st;
     workers := workers st; requests := v |}.

Fixpoint update {A : Type} (i : nat) (x : A) (l : list A) : list A :=
  match l, i with
  | [], _ => []
  | _ :: t, 0 => x :: t
  | h :: t, S i' => h :: update i' x t
  end.

Definition set_worker (i : nat) (w : Worker) (st : State) : State :=
  {| seen := seen st; to_visit := to_visit st; unfinished := unfinished st;
     product_candidates := product_candidates st; sem := sem st;
     workers := update i w (workers st);
     requests := requests st |}.

(** [to_visit.task_done()]; the count is positive whenever a worker
    calls it. *)
Definition task_done (st : State) : State :=
  {| seen := seen st; to_visit := to_visit st;
     unfinished := unfinished st - 1;
     product_candidates := product_candidates st; sem := sem st;
     workers := workers st;
     requests := requests st |}.

(** What [fetch] returns once [sb_client.get] has answered: the text of a
    200 response, [None] otherwise and on any exception. *)
Definition fetch_result (reply : Reply) : option Html :=
  match reply with
  | Returns r => if status_code r =? 200 then Some (body r) else None
  | Raises => None
  end.

(** How the crawl ends. *)
Inductive Outcome :=
| Returned (urls : list string)
| Hung            (* [join] waits and no task can run *)
| OutOfFuel.

Section Crawl.

Variable canonical_url : string -> string -> Canonical.

(** [is_same_domain] comes from [utils], which is not part of the sources
    at hand: it is a parameter. *)
Variable is_same_domain : string -> list string -> bool.

(** [os.getenv("SCRAPINGBEE_API_KEY")] *)
Variable api_key : option string.

(** What [sb_client.get(url, ...)] does for each URL; the crawl asks for
    no URL twice, so one reply for each URL describes a run. *)
Variable site : string -> Reply.

Variable base_url : string.
Variable allowed_domains : list string.
Variable product_url_keywords : list string.
Variable concurrency : nat.
Variable max_pages : nat.

(** The body of [for link in _extract_links(url, html)].
    [is_same_domain] and [_looks_like_product_url] are taken to return,
    as [urlparse] does on the links of [Plain.plain]; where one of them
    raises, nothing catches it, the worker task ends at that link and its
    [task_done()] is never reached. *)
Definition found_link (st : State) (link : string) : State :=
  if andb (negb (mem link (seen st)))
          (is_same_domain link allowed_domains)
  then
    {| seen := seen st;
       to_visit := to_visit st ++ [link];
       unfinished := S (unfinished st);
       product_candidates :=
         (if _looks_like_product_url link product_url_keywords
          then add link (product_candidates st)
          else product_candidates st);
       sem := sem st; workers := workers st;
       requests := requests st |}
  else st.

(** From the end of [async with sem] to the next [get] or to [break]. *)
Definition after_fetch (i : nat) (url : string) (html : option Html)
    (st : State) : State :=
  let st1 := with_sem (S (sem st)) st in
  let st2 :=
    match html with
    | Some h =>
        if nonempty h
        then fold_left found_link (_extract_links canonical_url url h) st1
        else st1
    | None => st1
    end in
  let st3 := task_done st2 in
  if max_pages <=? List.length (seen st3)
  then set_worker i Exited st3
  else set_worker i AtGet st3.

(** [fetch] with a permit held: without a key it returns [None] at once,
    otherwise the request goes out and the task waits for the answer. *)
Definition start_fetch (i : nat) (url : string) (st : State) : State :=
  let st1 := with_sem (sem st - 1) st in
  if truthy api_key
  then set_worker i (Fetching url) (with_requests (requests st1 ++ [url]) st1)
  else after_fetch i url None st1.

(** One transition of worker [i], when it can run. *)
Definition worker_step (i : nat) (st : State) : option State :=
  match nth_error (workers st) i with
  | Some AtGet =>
      match to_visit st with
      | [] => None
      | url :: rest =>
          let st1 := with_to_visit rest st in
          if mem url (seen st1) then Some (task_done st1)
          else
            let st2 := with_seen (add url (seen st1)) st1 in
            if negb (is_same_domain url allowed_domains)
            then Some (task_done st2)
            else if 0 <? sem st2 then Some (start_fetch i url st2)
            else Some (set_worker i (WaitSem url) st2)
      end
  | Some (WaitSem url) =>
      if 0 <? sem st then Some (start_fetch i url st) else None
  | Some (Fetching url) =>
      Some (after_fetch i url (fetch_result (site url)) st)
  | Some Exited => None
  | None => None
  end.

Definition step (st st' : State) : Prop :=
  exists i, worker_step i st = Some st'.

(** The state when [await to_visit.join()] is reached. *)
Definition init : State :=
  {| seen := []; to_visit := [base_url]; unfinished := 1;
     product_candidates := []; sem := concurrency;
     workers := repeat AtGet concurrency;
     requests := [] |}.

Inductive reachable : State -> Prop :=
| reach_init : reachable init
| reach_step st st' : reachable st -> step st st' -> reachable st'.

(** The workers that can run. *)
Definition enabled (st : State) : list nat :=
  filter (fun i => match worker_step i st with Some _ => true | None => false end)
         (seq 0 (List.length (workers st))).

(** [async def crawl(...)] under a scheduler: [join] returns as soon as
    the count of unfinished tasks is zero, the workers are cancelled and
    [list(product_candidates)] is returned; until then the scheduler names
    which of the runnable workers goes next. *)
Fixpoint run (fuel : nat) (sched : nat -> nat) (k : nat) (st : State)
  : Outcome :=
  if unfinished st =? 0 then Returned (product_candidates st)
  else
    match fuel with
    | 0 => OutOfFuel
    | S fuel' =>
        match enabled st with
        | [] => Hung
        | i0 :: _ =>
            let i := nth (sched k mod List.length (enabled st)) (enabled st) i0 in
            match worker_step i st with
            | Some st' => run fuel' sched (S k) st'
            | None => Hung
            end
        end
    end.

Definition crawl (fuel : nat) (sched : nat -> nat) : Outcome :=
  run fuel sched 0 init.

(** The state after the workers named in [order] have moved one after the
    other, if each of them could. *)
Fixpoint steps (order : list nat) (st : State) : option State :=
  match order with
  | [] => Some st
  | i :: rest =>
      match worker_step i st with
      | Some st' => steps rest st'
      | None => None
      end
  end.

(** The workers that wait for the answer to a request. *)
Definition is_fetching (w : Worker) : bool :=
  match w with Fetching _ => true | _ => false end.

Definition fetching (ws : list Worker) : nat :=
  List.length (filter is_fetching ws).

(** What [for link in ...] does to the state: [st'] comes from [st] by
    handling [links]. *)
Record Puts (links : list string) (st st' : State) : Prop := {
  puts_seen : seen st' = seen st;
  puts_sem : sem st' = sem st;
  puts_workers : workers st' = workers st;
  puts_requests : requests st' = requests st;
  puts_unfinished :
    unfinished st' + List.length (to_visit st) =
    unfinished st + List.length (to_visit st');
  puts_bound :
    List.length (to_visit st') <= List.length (to_visit st) + List.length links;
  puts_queue :
    forall u, In u (to_visit st') ->
              In u (to_visit st) \/
              (In u links /\ ~ In u (seen st) /\
               is_same_domain u allowed_domains = true);
  puts_candidates :
    forall c, In c (product_candidates st') ->
              In c (product_candidates st) \/
              (In c links /\ is_same_domain c allowed_domains = true /\
               _looks_like_product_url c product_url_keywords = true);
  puts_keep : incl (product_candidates st) (product_candidates st');
  puts_new :
    forall l, In l links -> ~ In l (seen st) ->
              is_same_domain l allowed_domains = true ->
              _looks_like_product_url l product_url_keywords = true ->
              In l (product_candidates st')
}.

(** What holds of every state the crawl can be in ([held = 0]), and, with
    [held = 1], of the state of a task that has taken a permit and not
    yet given it back. *)
Record Inv (held : nat) (st : State) : Prop := {
  inv_workers : List.length (workers st) = concurrency;
  inv_sem : sem st + fetching (workers st) + held = concurrency;
  inv_no_wait : forall url, ~ In (WaitSem url) (workers st);
  inv_unfinished :
    unfinished st = List.length (to_visit st) + fetching (workers st) + held;
  inv_nodup_seen : NoDup (seen st);
  inv_nodup_requests : NoDup (requests st);
  inv_requests :
    forall u, In u (requests st) ->
              In u (seen st) /\ is_same_domain u allowed_domains = true;
  inv_key : truthy api_key = false -> requests st = [];
  inv_candidates :
    forall c, In c (product_candidates st) ->
              is_same_domain c allowed_domains = true /\
              _looks_like_product_url c product_url_keywords = true
}.

(** Every URL that went through the queue, the base URL apart, was
    classified when it was put there. *)
Definition Classified (st : State) : Prop :=
  forall u, In u (seen st) \/ In u (to_visit st) ->
            u = base_url \/
            (_looks_like_product_url u product_url_keywords = true ->
             In u (product_candidates st)).

(** The links the crawl reads off the page of [url]. *)
Definition page_links (url : string) : list string :=
  match fetch_result (site url) with
  | Some h => if nonempty h then _extract_links canonical_url url h else []
  | None => []
  end.

(** [R] holds every URL the crawl can reach inside the allowed domains:
    the base URL if it is allowed, and every allowed link of a page of
    [R]. *)
Definition closed (R : list string) : Prop :=
  (is_same_domain base_url allowed_domains = true -> In base_url R) /\
  forall u link, In u R -> In link (page_links u) ->
                 is_same_domain link allowed_domains = true -> In link R.

(** The work left: the pages not yet seen, the answers awaited and the
    queue. *)
Definition page_cost (url : string) : nat := List.length (page_links url).

Definition page_weight (url : string) : nat := 2 + page_cost url.

Definition unseen_cost (R seen : list string) : nat :=
  list_sum (map page_weight (filter (fun u => negb (mem u seen)) R)).

Definition worker_cost (w : Worker) : nat :=
  match w with Fetching u => 1 + page_cost u | _ => 0 end.

Definition work_left (R : list string) (st : State) : nat :=
  unseen_cost R (seen st) + list_sum (map worker_cost (workers st))
  + List.length (to_visit st).

(** What holds in addition when [R] is closed and smaller than the page
    budget: the crawl stays inside [R] and no worker leaves its loop. *)
Record Bounded (R : list string) (st : State) : Prop := {
  bnd_queue :
    forall u, In u (to_visit st) ->
              In u R /\ is_same_domain u allowed_domains = true;
  bnd_seen : incl (seen st) R;
  bnd_fetching : forall u, In (Fetching u) (workers st) -> In u R;
  bnd_alive : ~ In Exited (workers st)
}.

End Crawl.
End Frontier.

(* ================================================================== *)
(** * crawl.py: _crawl_page and the batch crawl *)
(* ================================================================== *)

(** The first definition of [crawl], which the second one replaces under
    that name, and [_crawl_page], which only the first one calls. *)
Module Batch.
Import PyStr Urllib Classify Web Extract.

Record State := {
  visited : list string;
  to_visit : list string;
  product_urls : list string;
  (** every URL handed to [sb_client.get], oldest first (ghost) *)
  requests : list string
}.

Section Crawl.

Variable canonical_url : string -> string -> Canonical.

(** [os.getenv("SCRAPINGBEE_API_KEY")] *)
Variable api_key : option string.

(** What [sb_client.get(url, ...)] does for each URL. *)
Variable site : string -> Reply.

Variable base_url : string.
Variable allowed_domains : list string.

(** [async def _crawl_page(client, url, base_url, allowed_domains,
    keywords)]: the links, the product links and the URLs handed to
    [sb_client.get].  The [try] block either returns or raises, and the
    handler turns a raise into two empty sets.  [urlparse(link)] is taken
    to return, as it does on the links of [Plain.plain]; where it raises,
    the handler gives two empty sets for the page. *)
Definition _crawl_page_try (url : string) (keywords : list string)
  : option (list string * list string) * list string :=
  if negb (truthy api_key) then (None, [])       (* [raise ValueError] *)
  else
    match site url with
    | Raises => (None, [url])
    | Returns r =>
        if negb (status_code r =? 200) then (None, [url])
        else
          let links := _extract_links canonical_url base_url (body r) in
          let filtered_links :=
            fold_left
              (fun acc link =>
                 if existsb (fun domain =>
                               contains domain (netloc (urlparse link)))
                            allowed_domains
                 then add link acc else acc)
              links [] in
          let product_urls :=
            fold_left
              (fun acc link =>
                 if _is_product_url link keywords then add link acc else acc)
              filtered_links [] in
          (Some (filtered_links, product_urls), [url])
    end.

Definition _crawl_page (url : string) (keywords : list string)
  : (list string * list string) * list string :=
  match _crawl_page_try url keywords with
  | (Some result, log) => (result, log)
  | (None, log) => (([], []), log)
  end.

Variable keywords : list string.
Variable concurrency : nat.
Variable max_pages : nat.

(** [for url in batch]: the pages to crawl and the visited set; a page is
    put into [visited] when its task is created. *)
Definition plan (batch visited : list string) : list string * list string :=
  fold_left
    (fun acc url =>
       let '(tasks, seen) := acc in
       if negb (mem url seen) then (tasks ++ [url], add url seen)
       else (tasks, seen))
    batch ([], visited).

(** The body of [for result in results], for the result of the task of
    [url]. *)
Definition absorb (st : State) (url : string) : State :=
  let '((new_links, new_products), log) := _crawl_page url keywords in
  {| visited := visited st;
     to_visit :=
       fold_left
         (fun acc link =>
            if andb (List.length (visited st) <? max_pages)
                    (negb (mem link (visited st)))
            then add link acc else acc)
         new_links (to_visit st);
     product_urls := fold_left (fun acc p => add p acc) new_products
                       (product_urls st);
     requests := requests st ++ log |}.

(** One turn of [while to_visit and len(visited) < max_pages]: the batch
    is the first [concurrency] elements in the order the set is listed. *)
Definition iteration (st : State) : State :=
  let batch := firstn concurrency (to_visit st) in
  let '(tasks, seen) := plan batch (visited st) in
  fold_left absorb tasks
    {| visited := seen; to_visit := skipn concurrency (to_visit st);
       product_urls := product_urls st; requests := requests st |}.

Definition running (st : State) : bool :=
  andb (negb (match to_visit st with [] => true | _ => false end))
       (List.length (visited st) <? max_pages).

Fixpoint crawl_loop (fuel : nat) (st : State) : option State :=
  if running st then
    match fuel with
    | 0 => None
    | S fuel' => crawl_loop fuel' (iteration st)
    end
  else Some st.

(** The first [async def crawl(...)]: the state on leaving the loop. *)
Definition crawl (fuel : nat) : option State :=
  crawl_loop fuel
    {| visited := []; to_visit := [base_url]; product_urls := [];
       requests := [] |}.

End Crawl.
End Batch.

(* ================================================================== *)
(** * main.py *)
(* ================================================================== *)

Module Main.
Import PyStr Urllib Classify Web Extract.

(** What [fetch_html_with_scrapingbee] does. *)
Inductive FetchOutcome :=
| FetchReturned (html : Html)
| FetchRaised
| FetchNone.            (* the loop ran out without a [return] *)

(** What the [try] block of one attempt does. *)
Inductive Attempt :=
| AReturn (html : Html)
| AContinue
| ARaise.

Section Fetch.

Variable client : nat -> string -> ProxyParams -> Reply.

Definition proxy_params (url : string) (attempt : nat) : ProxyParams :=
  if 0 <? attempt then
    {| country_code := nth (attempt mod 3) ["us"; "ca"; "gb"] "us";
       session_id := Some ("session", attempt, url) |}
  else {| country_code := "us"; session_id := None |}.

Definition request (url : string) (attempt : nat) : Request :=
  {| req_url := url; req_attempt := attempt;
     req_params := proxy_params url attempt |}.

(** The [try] block: every [raise] in it is inside the [try]. *)
Definition attempt_body (max_retries attempt : nat) (reply : Reply)
  : Attempt :=
  match reply with
  | Raises => ARaise
  | Returns r =>
      if ok r then (if utf8 r then AReturn (body r) else ARaise)
      else if status_code r =? 503 then
        if attempt <? max_retries - 1 then AContinue else ARaise
      else ARaise
  end.

(** [for attempt in range(max_retries)] with its [except] clause. *)
Fixpoint fetch_loop (max_retries : nat) (attempts : list nat) (url : string)
    (log : list Request) : FetchOutcome * list Request :=
  match attempts with
  | [] => (FetchNone, log)
  | attempt :: rest =>
      let log' := log ++ [request url attempt] in
      match attempt_body max_retries attempt
              (client (List.length log) url (proxy_params url attempt)) with
      | AReturn html => (FetchReturned html, log')
      | AContinue => fetch_loop max_retries rest url log'
      | ARaise =>
          if attempt =? max_retries - 1 then (FetchRaised, log')
          else fetch_loop max_retries rest url log'
      end
  end.

(** [async def fetch_html_with_scrapingbee(client, url, timeout=30,
    max_retries=3)] *)
Definition fetch_html_with_scrapingbee (url : string) (max_retries : nat)
    (log : list Request) : FetchOutcome * list Request :=
  fetch_loop max_retries (seq 0 max_retries) url log.

End Fetch.

(** How [run] ends its discovery phase. *)
Inductive RunOutcome :=
| KeyMissing          (* the error is printed and [run] returns *)
| Discovered (product_urls : list string) (requests : list Request).

Section Run.

Variable canonical_url : string -> string -> Canonical.
Variable client : nat -> string -> ProxyParams -> Reply.
Variable pick : Bee.State -> nat.

(** [async def run(args)] up to the end of product discovery, with its
    fallback to the base URL; [crawl_with_scrapingbee] is called without
    [max_pages], which is then 100.  The processing of the product pages
    that follows is outside the model. *)
Definition run (api_key : option string) (base_url : string)
    (allowed_domains keywords : list string) (fuel : nat)
  : option RunOutcome :=
  if negb (truthy api_key) then Some KeyMissing
  else
    match Bee.crawl_with_scrapingbee canonical_url client pick base_url
            allowed_domains keywords 100 fuel with
    | Some st =>
        let product_urls := Bee.product_urls st in
        Some (Discovered
                (match product_urls with [] => [base_url] | _ => product_urls end)
                (Bee.requests st))
    | None => None
    end.

End Run.
End Main.

(* ================================================================== *)
(** * The helpers of utils *)
(* ================================================================== *)

Module Utils.
Import PyStr Urllib Extract.

(** Modelled from the spec: the host of a URL, which the contract of
    [is_same_domain] reads; the empty string when the URL has none. *)
Definition host (url : string) : string :=
  match hostname (urlparse url) with
  | Some h => h
  | None => EmptyString
  end.

(** Modelled from the spec: [is_same_domain] of [utils] is not part of the
    sources at hand.  The spec gives its contract: true iff the URL's host
    exactly or substring-matches one of the allowed domains.  The host is
    the network location without user information and port. *)
Definition is_same_domain (url : string) (allowed_domains : list string)
  : bool :=
  existsb (fun domain => contains domain (host url)) allowed_domains.

(** Modelled from the spec: [canonical_url] of [utils] is not part of the
    sources at hand.  The spec gives its contract: a relative href is
    resolved against a base and the fragment is stripped.  An href with a
    scheme stands for itself, one starting with ["/"] replaces the path of
    the base, any other replaces the last segment of that path. *)
Definition canonical_url (base href : string) : Canonical :=
  let h := if has_char "#" href then fst (split_first "#" href) else href in
  match h with
  | EmptyString => Falsy
  | String c _ =>
      if negb (String.eqb (scheme (urlparse h)) "") then Resolved h
      else
        let b := urlparse base in
        let root := (scheme b ++ "://" ++ netloc b)%string in
        if Ascii.eqb c "/" then Resolved (root ++ h)%string
        else
          let dir := fst (split_last_slash (path b)) in
          Resolved (root ++ (if String.eqb dir "" then "/" else dir) ++ h)%string
  end.

End Utils.

(* ================================================================== *)
(** * A small shop *)
(* ================================================================== *)

(** The site of the scenarios of the spec: a seed page with two product
    links, an about page that answers 404, a link to another host and a
    category page whose only link is relative. *)
Module Shop.
Import Web.

Definition page (hrefs : list string) : Reply :=
  Returns {| status_code := 200; utf8 := true;
             body := {| nonempty := true; anchors := Some hrefs |} |}.

Definition status (code : nat) : Reply :=
  Returns {| status_code := code; utf8 := true;
             body := {| nonempty := true; anchors := Some [] |} |}.

Definition seed : string := "https://shop.test/".

Definition site (url : string) : Reply :=
  if String.eqb url seed then
    page ["/product/1"; "/about"; "/product/2";
          "https://other.test/product/9"; "cat/"]
  else if String.eqb url "https://shop.test/cat/" then page ["item1"]
  else if String.eqb url "https://shop.test/about" then status 404
  else page [].

(** A client that answers by the site, whatever the attempt. *)
Definition client (n : nat) (url : string) (p : ProxyParams) : Reply :=
  site url.

(** A client that is out of service. *)
Definition unavailable (n : nat) (url : string) (p : ProxyParams) : Reply :=
  status 503.

(** A client that does not know any page. *)
Definition not_found (n : nat) (url : string) (p : ProxyParams) : Reply :=
  status 404.

(** [pop] takes the oldest element. *)
Definition oldest (st : Bee.State) : nat := 0.

(** The runnable workers take turns. *)
Definition in_turn (k : nat) : nat := k.

Definition allowed : list string := ["shop.test"].
Definition keywords : list string := ["product"].

(** A client that serves the seed page and is out of service for every
    other page. *)
Definition seed_only (n : nat) (url : string) (p : ProxyParams) : Reply :=
  if String.eqb url seed then site url else status 503.

(** [crawl_with_scrapingbee] on the shop after its first turn, which
    fetched the seed page, with a budget of ten pages. *)
Definition bee_after_seed : Bee.State :=
  Bee.iteration Utils.canonical_url seed_only oldest seed allowed keywords 10
    (Bee.init seed).

(** The queue-based crawl on the shop, with two workers and a budget of
    ten pages, after the first worker has taken the seed off the queue and
    sent its request. *)
Definition pool_start : Frontier.State := Frontier.init seed 2.

Definition pool_after_seed : Frontier.State :=
  match Frontier.worker_step Utils.canonical_url Utils.is_same_domain
          (Some "key") site allowed keywords 10 0 pool_start with
  | Some st => st
  | None => pool_start
  end.

(** The same crawl without the key, after the first worker has taken the
    seed off the queue. *)
Definition pool_without_key : Frontier.State :=
  match Frontier.worker_step Utils.canonical_url Utils.is_same_domain
          None site allowed keywords 10 0 pool_start with
  | Some st => st
  | None => pool_start
  end.

(** The answer of the shop for its seed page. *)
Definition seed_response : Response :=
  {| status_code := 200; utf8 := true;
     body := {| nonempty := true;
                anchors := Some ["/product/1"; "/about"; "/product/2";
                                 "https://other.test/product/9"; "cat/"] |} |}.

(** The pages of the shop that lie inside [shop.test]. *)
Definition inside : list string :=
  [seed; "https://shop.test/product/1"; "https://shop.test/about";
   "https://shop.test/product/2"; "https://shop.test/cat/";
   "https://shop.test/cat/item1"].

(** The queue-based crawl on the shop with one worker and a budget of one
    page, after the worker has fetched the seed page, read its links and
    left its loop. *)
Definition pool_out_of_budget : Frontier.State :=
  match Frontier.steps Utils.canonical_url Utils.is_same_domain (Some "key")
          site allowed keywords 1 [0; 0] (Frontier.init seed 1) with
  | Some st => st
  | None => Frontier.init seed 1
  end.

End Shop.

(* ================================================================== *)
(** * The URLs on which the model of urlparse is exact *)
(* ================================================================== *)

(** [urlsplit] strips blanks and control characters from the front of a
    URL, cuts tabs and line ends out of it, and may raise on a square
    bracket or on a character outside ASCII in the network location; and
    [str.lower()] changes letters outside ASCII.  None of this touches a
    URL made of printable ASCII characters without square brackets. *)
Module Plain.
Import PyStr.

Definition plain_char (c : ascii) : bool :=
  let n := nat_of_ascii c in
  andb (andb (33 <=? n) (n <=? 126))
       (negb (orb (Ascii.eqb c "[") (Ascii.eqb c "]"))).

Definition plain (url : string) : bool := forallb_str plain_char url.

End Plain.

(* ================================================================== *)
(** * A page that links to another host *)
(* ================================================================== *)

(** The seed page of the shop with one link more: a product page on the
    host [evil.example], written with [shop.test] for user information. *)
Module Decoy.
Import Web.

Definition link : string := "https://shop.test@evil.example/product/1".

Definition site (url : string) : Reply :=
  if String.eqb url Shop.seed then Shop.page ["/product/2"; link]
  else Shop.page [].

Definition client (n : nat) (url : string) (p : ProxyParams) : Reply :=
  site url.

End Decoy.

(* ================================================================== *)
(** * main.py: process_product and the processing phase of run *)
(* ================================================================== *)

Module Processing.
Import PyStr Urllib Web Extract Main.

(** What [process_product] does. *)
Inductive ProductOutcome :=
| ProductSlug (slug : string)
| ProductRaised
| ProductNone.          (* the loop ran out without a [return] *)

(** One entry of [results]: the URL with the slug ([None] for a call that
    ran out of its loop) or with the error. *)
Record Item := {
  item_url : string;
  item_result : ProductOutcome
}.

(** The two entries of the configuration that the crawl reads. *)
Record Config := {
  cfg_product_url_keywords : option (list string);
  cfg_allowed_domains : option (list string)
}.

(** [cfg.get("product_url_keywords", ["product"])] *)
Definition keywords (cfg : Config) : list string :=
  match cfg_product_url_keywords cfg with
  | Some words => words
  | None => ["product"]
  end.

(** [cfg.get("allowed_domains", [urlparse(base_url).netloc])].  Python
    works out the default before it looks the key up, so
    [urlparse(base_url)] is called whether or not the configuration names
    domains; it returns on a base URL of [Plain.plain], and [run] goes no
    further where it raises. *)
Definition allowed_domains (cfg : Config) (base_url : string) : list string :=
  match cfg_allowed_domains cfg with
  | Some domains => domains
  | None => [netloc (urlparse base_url)]
  end.

(** [sorted(...)] on strings: the ascending rearrangement, by code
    points, which on the bytes of UTF-8 text is the order of the bytes. *)
Fixpoint insert (x : string) (l : list string) : list string :=
  match l with
  | [] => [x]
  | y :: l' => if String.leb x y then x :: l else y :: insert x l'
  end.

Definition sorted (l : list string) : list string := fold_right insert [] l.

(** A list in strictly ascending order. *)
Fixpoint ascending (l : list string) : bool :=
  match l with
  | x :: ((y :: _) as l') => andb (String.ltb x y) (ascending l')
  | _ => true
  end.

(** [product_urls] of [run] when the processing starts:
    [sorted(set(product_urls))], and the base URL alone when that is
    empty. *)
Definition product_list (found : list string) (base_url : string)
  : list string :=
  match sorted (nodup string_dec found) with
  | [] => [base_url]
  | product_urls => product_urls
  end.

Section Product.

Variable client : nat -> string -> ProxyParams -> Reply.

(** The [try] block of [process_product] after the page is there:
    [parse_product], [guess_product_slug], the downloads and
    [write_product] come from modules that are not part of the sources at
    hand.  It is a parameter: it returns the slug or raises ([None]), and
    it may send requests of its own. *)
Variable finish :
  string -> option Html -> list Request -> option string * list Request.

(** [for attempt in range(max_retries)] of [process_product]; the sleep
    in front of a retry does not show in the state. *)
Fixpoint process_loop (max_retries : nat) (attempts : list nat)
    (url : string) (log : list Request) : ProductOutcome * list Request :=
  match attempts with
  | [] => (ProductNone, log)
  | attempt :: rest =>
      let '(slug, log') :=
        match fetch_html_with_scrapingbee client url 3 log with
        | (FetchReturned html, log1) => finish url (Some html) log1
        | (FetchNone, log1) => finish url None log1
        | (FetchRaised, log1) => (None, log1)
        end in
      match slug with
      | Some slug => (ProductSlug slug, log')
      | None =>
          if attempt =? max_retries - 1 then (ProductRaised, log')
          else process_loop max_retries rest url log'
      end
  end.

(** [async def process_product(scrapingbee_client, url, ...)] *)
Definition process_product (url : string) (log : list Request)
  : ProductOutcome * list Request :=
  process_loop 3 (seq 0 3) url log.

(** [for i, url in enumerate(tqdm(product_urls, ...))] of [run]: an entry
    is appended to [results] whether [process_product] returns or
    raises. *)
Fixpoint process_all (product_urls : list string) (log : list Request)
    (results : list Item) : list Item * list Request :=
  match product_urls with
  | [] => (results, log)
  | url :: rest =>
      let '(outcome, log') := process_product url log in
      process_all rest log'
        (results ++ [{| item_url := url; item_result := outcome |}])
  end.

(** How [run] ends. *)
Inductive RunResult :=
| NoKey                 (* the error is printed and [run] returns *)
| Summary (count : nat) (items : list Item) (requests : list Request).

Variable canonical_url : string -> string -> Canonical.
Variable pick : Bee.State -> nat.

(** [async def run(args)] from the reading of the configuration to the
    summary.  [base_url] is what [args] and [cfg] give; [concurrency] and
    [timeout], which [crawl_with_scrapingbee] only prints, are left out,
    and so are the directories and the summary file, whose writing is
    taken to succeed.  The handler around the crawl is not reached, as
    [crawl_with_scrapingbee] catches what is raised inside it. *)
Definition run (api_key : option string) (cfg : Config) (base_url : string)
    (fuel : nat) : option RunResult :=
  let keywords := keywords cfg in
  let allowed_domains := allowed_domains cfg base_url in
  if negb (truthy api_key) then Some NoKey
  else
    match Bee.crawl_with_scrapingbee canonical_url client pick base_url
            allowed_domains keywords 100 fuel with
    | Some st =>
        let product_urls := product_list (Bee.product_urls st) base_url in
        let '(results, log) := process_all product_urls (Bee.requests st) [] in
        Some (Summary (List.length results) results log)
    | None => None
    end.

End Product.
End Processing.

(* ================================================================== *)
(** * crawl.py: the batch crawl, whatever the order of the set *)
(* ================================================================== *)

(** The first [crawl] takes its batch from [list(to_visit)], and the
    order in which a set is listed is not fixed.  Here the order is left
    to an oracle, [listing]; the rest is as in [Batch]. *)
Module Batches.
Import Web Extract Batch.

Section Crawl.

Variable canonical_url : string -> string -> Canonical.
Variable api_key : option string.
Variable site : string -> Reply.
Variable base_url : string.
Variable allowed_domains : list string.
Variable keywords : list string.
Variable concurrency : nat.
Variable max_pages : nat.

(** [list(to_visit)] in the state at hand. *)
Variable listing : State -> list string.

(** One turn of [while to_visit and len(visited) < max_pages]:
    [batch = list(to_visit)[:concurrency]], [to_visit -= set(batch)],
    the tasks, and the handling of their results. *)
Definition iteration (st : State) : State :=
  let batch := firstn concurrency (listing st) in
  let '(tasks, seen) := plan batch (visited st) in
  fold_left
    (absorb canonical_url api_key site base_url allowed_domains keywords
       max_pages)
    tasks
    {| visited := seen;
       to_visit := filter (fun u => negb (mem u batch)) (to_visit st);
       product_urls := product_urls st; requests := requests st |}.

Fixpoint crawl_loop (fuel : nat) (st : State) : option State :=
  if running max_pages st then
    match fuel with
    | 0 => None
    | S fuel' => crawl_loop fuel' (iteration st)
    end
  else Some st.

Definition init : State :=
  {| visited := []; to_visit := [base_url]; product_urls := [];
     requests := [] |}.

(** The first [async def crawl(...)]: the state on leaving the loop. *)
Definition crawl (fuel : nat) : option State := crawl_loop fuel init.

(** [listing] lists the set: the elements of [to_visit], each once. *)
Definition lists_the_set : Prop :=
  forall st, NoDup (listing st) /\
             forall u, In u (listing st) <-> In u (to_visit st).

(** What holds of the state whenever the loop condition is evaluated. *)
Record Inv (st : State) : Prop := {
  inv_nodup_visited : NoDup (visited st);
  inv_nodup_to_visit : NoDup (to_visit st);
  inv_disjoint : forall u, In u (to_visit st) -> ~ In u (visited st);
  inv_overrun : List.length (visited st) <= max_pages - 1 + concurrency;
  inv_nodup_requests : NoDup (requests st);
  inv_requests : incl (requests st) (visited st);
  inv_key : truthy api_key = false -> requests st = [];
  inv_domain :
    forall u, In u (to_visit st) \/ In u (visited st) ->
              u = base_url \/ Bee.in_allowed allowed_domains u = true;
  inv_products :
    forall p, In p (product_urls st) ->
              Bee.in_allowed allowed_domains p = true /\
              Classify._is_product_url p keywords = true
}.

End Crawl.
End Batches.

(* ================================================================== *)
(** * The sleeps of the two retry loops *)
(* ================================================================== *)

(** The retry loops sleep between attempts.  The states of the crawls do
    not show it; here are the same loops again, read for the seconds
    handed to [asyncio.sleep], one entry for each call and in order.  [n]
    is the number of requests made before, as the client is asked. *)
Module Backoff.
Import Web.

Section Sleeps.

Variable client : nat -> string -> ProxyParams -> Reply.

(** The loop of [crawl_with_scrapingbee] for one page. *)
Fixpoint crawl_sleeps (attempts : list nat) (url : string) (n : nat)
  : list nat :=
  match attempts with
  | [] => []
  | attempt :: rest =>
      match client n url (Bee.proxy_params url attempt) with
      | Returns r =>
          if ok r then []
          else if status_code r =? 503 then
            if attempt <? Bee.max_retries - 1
            then (2 ^ attempt + 3) :: crawl_sleeps rest url (S n)
            else crawl_sleeps rest url (S n)
          else []
      | Raises =>
          if attempt =? Bee.max_retries - 1 then []
          else 2 ^ attempt :: crawl_sleeps rest url (S n)
      end
  end.

(** The loop of [fetch_html_with_scrapingbee]. *)
Fixpoint fetch_sleeps (max_retries : nat) (attempts : list nat)
    (url : string) (n : nat) : list nat :=
  match attempts with
  | [] => []
  | attempt :: rest =>
      match Main.attempt_body max_retries attempt
              (client n url (Main.proxy_params url attempt)) with
      | Main.AReturn _ => []
      | Main.AContinue =>
          (2 ^ attempt + 5) :: fetch_sleeps max_retries rest url (S n)
      | Main.ARaise =>
          if attempt =? max_retries - 1 then []
          else 2 ^ attempt :: fetch_sleeps max_retries rest url (S n)
      end
  end.

End Sleeps.
End Backoff.

(* ================================================================== *)
(** * What the crawls keep true beyond the frontier invariants *)
(* ================================================================== *)

Module Explore.
Import PyStr Urllib Classify Web Extract.

(** The log of [crawl_with_scrapingbee] page by page: a URL with the
    number of attempts made for it. *)
Definition block (b : string * nat) : list Request :=
  map (Bee.request (fst b)) (seq 0 (snd b)).

Definition log_of (blocks : list (string * nat)) : list Request :=
  flat_map block blocks.

Section Queue.
Import Frontier.

Variable canonical_url : string -> string -> Canonical.
Variable is_same_domain : string -> list string -> bool.
Variable site : string -> Reply.
Variable base_url : string.
Variable allowed_domains : list string.
Variable product_url_keywords : list string.
Variable max_pages : nat.

(** The URLs the queue-based crawl can come to: the base URL, and the
    links into the allowed domains on the pages of such URLs, which are
    fetched only if they are in the allowed domains themselves. *)
Inductive linked : string -> Prop :=
| linked_base : linked base_url
| linked_page u link :
    linked u -> is_same_domain u allowed_domains = true ->
    In link (page_links canonical_url site u) ->
    is_same_domain link allowed_domains = true ->
    linked link.

(** A worker that holds a request or has left its loop. *)
Definition spent (w : Worker) : nat :=
  match w with
  | Fetching _ | Exited => 1
  | _ => 0
  end.

(** What holds, with the key set, of every state of the crawl: where the
    URLs come from and how far each page has been read. *)
Record Explored (st : State) : Prop := {
  exp_base :
    In base_url (seen st) \/ (seen st = [] /\ to_visit st = [base_url]);
  exp_linked : forall u, In u (seen st) \/ In u (to_visit st) -> linked u;
  exp_fetching :
    forall u, In (Fetching u) (workers st) ->
              In u (seen st) /\ is_same_domain u allowed_domains = true;
  exp_requested :
    forall u, In u (seen st) -> is_same_domain u allowed_domains = true ->
              In u (requests st);
  exp_links :
    forall u, In u (seen st) -> is_same_domain u allowed_domains = true ->
              In (Fetching u) (workers st) \/
              forall link, In link (page_links canonical_url site u) ->
                           is_same_domain link allowed_domains = true ->
                           In link (seen st) \/ In link (to_visit st);
  exp_candidates :
    forall c, In c (product_candidates st) ->
              c <> base_url /\ (In c (seen st) \/ In c (to_visit st))
}.

(** The page fetches stay within the budget, but for the workers that
    hold a request or have left. *)
Definition Within (st : State) : Prop :=
  List.length (requests st) <=
  max_pages - 1 + list_sum (map spent (workers st)).

End Queue.

Section Sequential.

Variable canonical_url : string -> string -> Canonical.
Variable site : string -> Reply.
Variable base_url : string.
Variable allowed_domains : list string.
Variable keywords : list string.
Variable max_pages : nat.

(** The links that [crawl_with_scrapingbee] takes from the page of [u]
    when the answer for a URL is always the same, [site u]: those of a
    fine answer whose bytes decode, resolved against the base URL and
    filtered by domain; none otherwise. *)
Definition bee_links (u : string) : list string :=
  match site u with
  | Returns r =>
      if andb (ok r) (utf8 r)
      then Bee.filter_links allowed_domains
             (_extract_links canonical_url base_url (body r))
      else []
  | Raises => []
  end.

(** The URLs that [crawl_with_scrapingbee] can come to: the base URL and
    the links taken from the pages of such URLs. *)
Inductive followed : string -> Prop :=
| followed_base : followed base_url
| followed_link u link :
    followed u -> In link (bee_links u) -> followed link.

(** What holds of the state of [crawl_with_scrapingbee] at the head of
    its loop when the answers depend on the URL alone. *)
Record Swept (st : Bee.State) : Prop := {
  sw_base : In base_url (Bee.visited st) \/ In base_url (Bee.to_visit st);
  sw_followed :
    forall u, In u (Bee.visited st) \/ In u (Bee.to_visit st) -> followed u;
  sw_links :
    List.length (Bee.visited st) < max_pages ->
    forall u link, In u (Bee.visited st) -> In link (bee_links u) ->
                   In link (Bee.visited st) \/ In link (Bee.to_visit st);
  sw_found :
    forall p, In p (Bee.product_urls st) ->
              exists u, In u (Bee.visited st) /\ In p (bee_links u) /\
                        _is_product_url p keywords = true;
  sw_kept :
    forall u p, In u (Bee.visited st) -> In p (bee_links u) ->
                _is_product_url p keywords = true ->
                In p (Bee.product_urls st)
}.

End Sequential.
End Explore.

(* ================================================================== *)
(** * Facts about strings and classification *)
(* ================================================================== *)

Section StringFacts.
Import PyStr Urllib.

Lemma prefix_iff (k s : string) :
  String.prefix k s = true <-> exists post, s = (k ++ post)%string.
Proof.
  revert s; induction k as [|c k IH]; intros s.
  - split; [intros _; exists s; reflexivity | destruct s; reflexivity].
  - destruct s as [|d s]; simpl.
    + split; [discriminate | intros [post H]; discriminate].
    + destruct (ascii_dec c d) as [->|Hne].
      * rewrite IH. split; intros [post H]; exists post.
        -- now rewrite H.
        -- now inversion H.
      * split; [discriminate | intros [post H]; inversion H; congruence].
Qed.

Lemma contains_nil (k : string) : contains k "" = String.prefix k "".
Proof. destruct k; reflexivity. Qed.

Lemma contains_cons (k : string) (d : ascii) (s : string) :
  contains k (String d s) = orb (String.prefix k (String d s)) (contains k s).
Proof.
  cbn [contains]. now destruct (String.prefix k (String d s)).
Qed.

Lemma contains_iff (k s : string) :
  contains k s = true <-> occurs_in k s.
Proof.
  unfold occurs_in.
  induction s as [|d s IH].
  - rewrite contains_nil, prefix_iff. split.
    + intros [post H]. exists "", post. exact H.
    + intros [pre [post H]]. destruct pre; [eauto | discriminate].
  - rewrite contains_cons, orb_true_iff, prefix_iff, IH. split.
    + intros [[post H] | [pre [post H]]].
      * exists "", post. exact H.
      * exists (String d pre), post. simpl. now rewrite H.
    + intros [pre [post H]]. destruct pre as [|e pre]; simpl in H.
      * left. eauto.
      * right. inversion H. eauto.
Qed.

Lemma any_contains_iff (keywords : list string) (s : string) :
  existsb (fun k => contains k s) keywords = true <->
  exists k, In k keywords /\ occurs_in k s.
Proof.
  rewrite existsb_exists.
  split; intros [k [Hin Hk]]; exists k; split; auto;
    now apply contains_iff.
Qed.

Lemma has_char_app (c : ascii) (a b : string) :
  has_char c (a ++ b)%string = orb (has_char c a) (has_char c b).
Proof.
  induction a as [|d a IH]; simpl; auto.
  destruct (Ascii.eqb c d); auto.
Qed.

Lemma split_first_app (c : ascii) (a b : string) :
  has_char c a = false ->
  split_first c (a ++ String c b)%string = (a, b).
Proof.
  induction a as [|d a IH]; simpl.
  - intros _. now rewrite Ascii.eqb_refl.
  - destruct (Ascii.eqb c d); [discriminate|].
    intros H. now rewrite (IH H).
Qed.

Lemma break_at_app (p : ascii -> bool) (a b : string) :
  forallb_str (fun c => negb (p c)) a = true ->
  (b = EmptyString \/ exists d b', b = String d b' /\ p d = true) ->
  break_at p (a ++ b)%string = (a, b).
Proof.
  intros Ha Hb. induction a as [|d a IH]; simpl in *.
  - destruct Hb as [->|[d [b' [-> Hd]]]]; simpl; auto. now rewrite Hd.
  - apply andb_true_iff in Ha. destruct Ha as [Hd Ha].
    apply negb_true_iff in Hd. rewrite Hd. now rewrite (IH Ha).
Qed.

Lemma no_delim_iff (s : string) :
  forallb_str (fun c => negb (netloc_delim c)) s = true <->
  has_char "/" s = false /\ has_char "?" s = false /\ has_char "#" s = false.
Proof.
  induction s as [|d s IH]; [simpl; tauto|].
  cbn [forallb_str has_char]. rewrite andb_true_iff, IH. unfold netloc_delim.
  rewrite (Ascii.eqb_sym d "/"), (Ascii.eqb_sym d "?"), (Ascii.eqb_sym d "#").
  destruct (Ascii.eqb "/" d), (Ascii.eqb "?" d), (Ascii.eqb "#" d);
    cbn [negb orb]; intuition congruence.
Qed.

Lemma scheme_no_colon (s : string) :
  forallb_str scheme_char s = true -> has_char ":" s = false.
Proof.
  induction s as [|d s IH]; [reflexivity|].
  cbn [forallb_str has_char].
  intros H. apply andb_true_iff in H. destruct H as [Hd Hs].
  destruct (Ascii.eqb ":" d) eqn:E; auto.
  apply Ascii.eqb_eq in E. subst d. discriminate Hd.
Qed.

(** On a URL written as scheme, network location, path and query,
    [urlparse] gives back the network location as [netloc], the path as
    [path] and the query as [query]. *)
Lemma urlparse_parts (sch loc p q : string) :
  url_parts sch loc p q ->
  let r := urlparse (sch ++ "://" ++ loc ++ p ++ "?" ++ q) in
  netloc r = loc /\ path r = p /\ query r = q.
Proof.
  intros [[c [s [Hs Hc]]] [Hsch [[H1 [H2 H3]] [Hp [[Hp1 [Hp2 Hp3]] Hq]]]]].
  unfold urlparse.
  assert (E1 : split_scheme (sch ++ "://" ++ loc ++ p ++ "?" ++ q)
               = (lower sch, ("//" ++ loc ++ p ++ "?" ++ q)%string)).
  { unfold split_scheme.
    rewrite has_char_app. simpl (has_char ":" ("://" ++ _)).
    rewrite orb_true_r.
    change (sch ++ "://" ++ loc ++ p ++ "?" ++ q)%string
      with (sch ++ String ":" ("//" ++ loc ++ p ++ "?" ++ q))%string.
    rewrite (split_first_app ":" sch _ (scheme_no_colon _ Hsch)).
    subst sch. cbv beta iota. now rewrite Hc, Hsch. }
  rewrite E1.
  assert (E2 : split_netloc ("//" ++ loc ++ p ++ "?" ++ q)
               = (loc, (p ++ "?" ++ q)%string)).
  { simpl. apply break_at_app.
    - apply no_delim_iff. auto.
    - right. destruct Hp as [->|[p' ->]]; simpl; eauto. }
  rewrite E2.
  assert (E3 : has_char "#" (p ++ "?" ++ q) = false).
  { rewrite has_char_app, Hp2. simpl. exact Hq. }
  rewrite E3.
  assert (E4 : has_char "?" (p ++ "?" ++ q) = true).
  { rewrite has_char_app. simpl. now rewrite orb_true_r. }
  rewrite E4.
  change (p ++ "?" ++ q)%string with (p ++ String "?" q)%string.
  rewrite (split_first_app "?" p q Hp1).
  rewrite Hp3, andb_false_r. simpl. auto.
Qed.

End StringFacts.


(* ================================================================== *)
(** * Facts about sets of URLs *)
(* ================================================================== *)

Section SetFacts.
Import Web.

Lemma mem_iff (x : string) (s : list string) : mem x s = true <-> In x s.
Proof.
  unfold mem. destruct (in_dec string_dec x s); split; auto; discriminate.
Qed.

Lemma mem_false_iff (x : string) (s : list string) :
  mem x s = false <-> ~ In x s.
Proof.
  unfold mem. destruct (in_dec string_dec x s); split; auto;
    [discriminate | contradiction].
Qed.

Lemma add_iff (x y : string) (s : list string) :
  In y (add x s) <-> y = x \/ In y s.
Proof.
  unfold add. destruct (mem x s) eqn:Hm.
  - apply mem_iff in Hm. split; [auto | intros [->|]; auto].
  - rewrite in_app_iff. simpl. intuition.
Qed.

Lemma add_NoDup (x : string) (s : list string) : NoDup s -> NoDup (add x s).
Proof.
  intros Hs. unfold add. destruct (mem x s) eqn:Hm; auto.
  apply mem_false_iff in Hm.
  apply NoDup_app; auto.
  - constructor; [intros [] | constructor].
  - intros y Hy [<-|[]]. contradiction.
Qed.

Lemma add_fresh (x : string) (s : list string) :
  ~ In x s -> add x s = s ++ [x].
Proof.
  intros H. unfold add. apply mem_false_iff in H. now rewrite H.
Qed.

Lemma add_incl (x : string) (s : list string) : incl s (add x s).
Proof. intros y Hy. apply add_iff. now right. Qed.

Lemma nth_cut {A : Type} (d : A) (j : nat) (s : list A) :
  j < List.length s -> s = firstn j s ++ nth j s d :: skipn (S j) s.
Proof.
  revert s; induction j as [|j IH]; intros [|a s] Hj; simpl in *; try lia.
  - reflexivity.
  - f_equal. apply IH. lia.
Qed.

Lemma pop_cut (i : nat) (s : list string) (x : string) (rest : list string) :
  pop i s = Some (x, rest) ->
  exists l1 l2, s = l1 ++ x :: l2 /\ rest = l1 ++ l2.
Proof.
  unfold pop. destruct s as [|a s]; [discriminate|].
  remember (a :: s) as l eqn:El.
  remember (i mod List.length l) as j eqn:Ej.
  intros H. inversion H; subst x rest.
  exists (firstn j l), (skipn (S j) l). split; [|reflexivity].
  apply nth_cut. subst j. apply Nat.mod_upper_bound. subst l. discriminate.
Qed.

Lemma pop_some (i : nat) (s : list string) :
  s <> [] -> exists x rest, pop i s = Some (x, rest).
Proof. destruct s; [congruence|]. intros _. simpl. eauto. Qed.

Lemma fold_add_filter_iff (p : string -> bool) (l acc : list string) (y : string) :
  In y (fold_left (fun acc x => if p x then add x acc else acc) l acc) <->
  In y acc \/ (In y l /\ p y = true).
Proof.
  revert acc; induction l as [|x l IH]; intros acc; simpl.
  - intuition.
  - rewrite IH. destruct (p x) eqn:Hp.
    + rewrite add_iff. intuition (subst; auto).
    + intuition (subst; auto). congruence.
Qed.

Lemma fold_add_filter_NoDup (p : string -> bool) (l acc : list string) :
  NoDup acc ->
  NoDup (fold_left (fun acc x => if p x then add x acc else acc) l acc).
Proof.
  revert acc; induction l as [|x l IH]; intros acc Hacc; simpl; auto.
  apply IH. destruct (p x); auto using add_NoDup.
Qed.

End SetFacts.

(* ================================================================== *)
(** * crawl_with_scrapingbee: the retry loop *)
(* ================================================================== *)

Section BeeRetry.
Import Web Bee.

Variable client : nat -> string -> ProxyParams -> Reply.

(** The loop logs one request per attempt it runs, in order, and runs at
    least one when there is one to run. *)
Lemma attempts_loop_log (attempts : list nat) (url : string) :
  forall response log,
  exists m,
    (attempts <> [] -> 1 <= m) /\ m <= List.length attempts /\
    snd (attempts_loop client attempts url response log) =
    log ++ map (request url) (firstn m attempts).
Proof.
  induction attempts as [|a rest IH]; intros response log.
  - exists 0. simpl. rewrite app_nil_r. repeat split; auto. congruence.
  - assert (Hone : log ++ [request url a] =
                   log ++ map (request url) (firstn 1 (a :: rest)))
      by reflexivity.
    assert (Hmore : forall r,
      exists m, (a :: rest <> [] -> 1 <= m) /\
                m <= List.length (a :: rest) /\
                snd (attempts_loop client rest url r (log ++ [request url a])) =
                log ++ map (request url) (firstn m (a :: rest))).
    { intros r. destruct (IH r (log ++ [request url a])) as [m [_ [Hm Hlog]]].
      exists (S m). repeat split; [lia | simpl; lia |].
      rewrite Hlog. simpl. now rewrite <- app_assoc. }
    simpl. destruct (client _ _ _) as [r|].
    + destruct (ok r).
      * exists 1. simpl. repeat split; auto; lia.
      * destruct (status_code r =? 503); [apply Hmore|].
        exists 1. simpl. repeat split; auto; lia.
    + destruct (a =? _); [|apply Hmore].
      exists 1. simpl. repeat split; auto; lia.
Qed.

Lemma pages_app (l1 l2 : list Request) : pages (l1 ++ l2) = pages l1 ++ pages l2.
Proof. unfold pages. now rewrite filter_app, map_app. Qed.

(** A page fetch logs between one and three requests, all for its URL, and
    exactly one of them is a first attempt. *)
Lemma page_fetch_log (url : string) (response : option Response)
    (log : list Request) :
  exists new,
    snd (attempts_loop client (seq 0 max_retries) url response log) = log ++ new /\
    1 <= List.length new <= max_retries /\
    pages new = [url] /\
    Forall (fun q => req_url q = url) new.
Proof.
  destruct (attempts_loop_log (seq 0 max_retries) url response log)
    as [m [Hm1 [Hm3 Hlog]]].
  exists (map (request url) (firstn m (seq 0 max_retries))).
  split; [exact Hlog|].
  assert (H1 : 1 <= m) by (apply Hm1; discriminate).
  simpl in Hm3.
  destruct m as [|[|[|[|m]]]]; try lia; simpl;
    repeat split; auto; repeat constructor.
Qed.

(** A status that is neither a success nor 503 ends the page fetch: the
    request that met it is the last one. *)
Lemma attempts_loop_terminal (attempt : nat) (rest : list nat) (url : string)
    (response : option Response) (log : list Request) (r : Response) :
  client (List.length log) url (proxy_params url attempt) = Returns r ->
  ok r = false -> status_code r <> 503 ->
  attempts_loop client (attempt :: rest) url response log =
  (Some r, log ++ [request url attempt]).
Proof.
  intros Hc Hok Hs. simpl. rewrite Hc, Hok.
  apply Nat.eqb_neq in Hs. now rewrite Hs.
Qed.

(** A further attempt follows a reply only if the reply was a 503 status
    or an exception. *)
Lemma attempts_loop_retry (attempt : nat) (rest : list nat) (url : string)
    (response : option Response) (log : list Request) :
  snd (attempts_loop client (attempt :: rest) url response log) <>
  log ++ [request url attempt] ->
  client (List.length log) url (proxy_params url attempt) = Raises \/
  exists r, client (List.length log) url (proxy_params url attempt) = Returns r
            /\ status_code r = 503.
Proof.
  simpl. destruct (client _ _ _) as [r|]; [|auto].
  destruct (ok r); simpl; [congruence|].
  destruct (status_code r =? 503) eqn:Hs; simpl; [|congruence].
  intros _. right. exists r. split; auto. now apply Nat.eqb_eq.
Qed.

End BeeRetry.

(* ================================================================== *)
(** * crawl_with_scrapingbee: the loop and its invariant *)
(* ================================================================== *)

Section BeeLoop.
Import PyStr Urllib Classify Web Extract Bee.

Variable canonical_url : string -> string -> Canonical.
Variable client : nat -> string -> ProxyParams -> Reply.
Variable pick : State -> nat.
Variable base_url : string.
Variable allowed_domains keywords : list string.
Variable max_pages : nat.

Local Abbreviation Inv := (Bee.Inv base_url allowed_domains keywords max_pages).
Local Abbreviation in_allowed := (Bee.in_allowed allowed_domains).
Local Abbreviation filter_links := (Bee.filter_links allowed_domains).
Local Abbreviation visit_link := (Bee.visit_link keywords max_pages).
Local Abbreviation crawl_page :=
  (Bee.crawl_page canonical_url client base_url allowed_domains keywords
     max_pages).
Local Abbreviation iteration :=
  (Bee.iteration canonical_url client pick base_url allowed_domains keywords
     max_pages).
Local Abbreviation running := (Bee.running max_pages).
Local Abbreviation crawl_loop :=
  (Bee.crawl_loop canonical_url client pick base_url allowed_domains keywords
     max_pages).
Local Abbreviation at_loop_head :=
  (Bee.at_loop_head canonical_url client pick base_url allowed_domains
     keywords max_pages).

Lemma filter_links_iff (links : list string) (y : string) :
  In y (filter_links links) <-> In y links /\ in_allowed y = true.
Proof.
  unfold Bee.filter_links. rewrite fold_add_filter_iff. simpl.
  split; [intros [[]|H]; exact H | intros H; right; exact H].
Qed.

Lemma visit_link_inv (p : list string) (st : State) (link : string) :
  Inv p st -> in_allowed link = true -> Inv p (visit_link st link).
Proof.
  intros [Hv Ht Hd Hb Hp Hr Hq Hdom Hprod] Hl.
  constructor; simpl; auto.
  - destruct (_ && _); auto using add_NoDup.
  - intros u. destruct (_ <? _); simpl; auto.
    destruct (mem link (visited st)) eqn:Hm; simpl; auto.
    destruct (mem link (to_visit st)); simpl; auto.
    rewrite add_iff. intros [->|Hu]; auto.
    now apply mem_false_iff.
  - intros u [Hu|Hu]; auto.
    destruct (_ && _); auto.
    apply add_iff in Hu. destruct Hu as [->|Hu]; auto.
  - intros q. destruct (_is_product_url link keywords) eqn:Hk; auto.
    destruct (negb _); auto.
    rewrite add_iff. intros [->|Hq']; auto.
Qed.

Lemma visit_link_products (st : State) (link : string) :
  incl (product_urls st) (product_urls (visit_link st link)) /\
  (_is_product_url link keywords = true ->
   In link (product_urls (visit_link st link))).
Proof.
  simpl. destruct (_is_product_url link keywords).
  - destruct (mem link (product_urls st)) eqn:Hm; simpl.
    + split; [apply incl_refl | intros _; now apply mem_iff].
    + split; [apply add_incl | intros _; apply add_iff; auto].
  - split; [apply incl_refl | discriminate].
Qed.

Lemma fold_visit_inv (p : list string) (links : list string) :
  forall st, Inv p st -> Forall (fun l => in_allowed l = true) links ->
             Inv p (fold_left visit_link links st).
Proof.
  induction links as [|l links IH]; intros st Hst Hall; simpl; auto.
  inversion Hall; subst. apply IH; auto using visit_link_inv.
Qed.

Lemma fold_visit_frame (links : list string) :
  forall st,
    visited (fold_left visit_link links st) = visited st /\
    requests (fold_left visit_link links st) = requests st /\
    incl (product_urls st) (product_urls (fold_left visit_link links st)) /\
    incl (to_visit st) (to_visit (fold_left visit_link links st)).
Proof.
  induction links as [|l links IH]; intros st; simpl.
  - repeat split; apply incl_refl.
  - destruct (IH (visit_link st l)) as [Hv [Hr [Hp Ht]]].
    rewrite Hv, Hr. repeat split; auto.
    + eapply incl_tran; [apply visit_link_products | exact Hp].
    + eapply incl_tran; [|exact Ht]. simpl.
      destruct (_ && _); [apply add_incl | apply incl_refl].
Qed.

Lemma fold_visit_products (links : list string) (link : string) :
  forall st, In link links -> _is_product_url link keywords = true ->
             In link (product_urls (fold_left visit_link links st)).
Proof.
  induction links as [|l links IH]; intros st Hin Hk; simpl; [contradiction|].
  destruct Hin as [->|Hin]; auto.
  apply (fold_visit_frame links (visit_link st link)).
  now apply visit_link_products.
Qed.

(** The fetch of one page keeps the set of visited URLs, only adds to the
    products and to the frontier, and only appends to the log. *)
Lemma crawl_page_frame (url : string) (st : State) :
  visited (crawl_page url st) = visited st /\
  incl (product_urls st) (product_urls (crawl_page url st)) /\
  incl (to_visit st) (to_visit (crawl_page url st)) /\
  requests (crawl_page url st) =
  snd (attempts_loop client (seq 0 max_retries) url None (requests st)).
Proof.
  unfold Bee.crawl_page, try_page.
  destruct (attempts_loop _ _ _ _ _) as [response log]; simpl.
  destruct response as [r|]; simpl; [|repeat split; apply incl_refl].
  destruct (ok r); simpl; [|repeat split; apply incl_refl].
  destruct (utf8 r); simpl; [|repeat split; apply incl_refl].
  match goal with |- context [fold_left _ ?l ?s] =>
    destruct (fold_visit_frame l s) as [Hv [Hr [Hp Ht]]] end.
  rewrite Hv, Hr. auto.
Qed.

Lemma crawl_page_inv (url : string) (st : State) :
  Inv [url] st -> Inv [] (crawl_page url st).
Proof.
  intros Hst. unfold Bee.crawl_page, try_page.
  destruct (page_fetch_log client url None (requests st))
    as [new [Hlog [Hlen [Hpages Hurls]]]].
  destruct (attempts_loop _ _ _ _ _) as [response log]; simpl in Hlog.
  subst log.
  assert (H1 : Inv [] {| visited := visited st; to_visit := to_visit st;
                         product_urls := product_urls st;
                         requests := requests st ++ new |}).
  { destruct Hst as [Hv Ht Hd Hb Hp Hr Hq Hdom Hprod].
    constructor; simpl in *; auto.
    - rewrite pages_app, Hpages, app_nil_r. exact Hp.
    - rewrite length_app. unfold max_retries in *. lia.
    - intros q Hin. apply in_app_iff in Hin. destruct Hin as [Hin|Hin]; auto.
      rewrite Forall_forall in Hurls. rewrite (Hurls q Hin), <- Hp.
      apply in_app_iff. right. now left. }
  destruct response as [r|]; auto.
  destruct (ok r); auto. destruct (utf8 r); auto.
  apply fold_visit_inv; auto.
  apply Forall_forall. intros l Hl. now apply filter_links_iff in Hl.
Qed.

Lemma running_true (st : State) :
  running st = true <->
  to_visit st <> [] /\ List.length (visited st) < max_pages.
Proof.
  unfold Bee.running. rewrite andb_true_iff, Nat.ltb_lt.
  destruct (to_visit st); simpl; split; intros [H1 H2]; split; auto;
    congruence.
Qed.

(** What one turn of the loop does: some URL leaves the frontier, enters
    the visited set and has its page fetched. *)
Lemma iteration_pop (st : State) :
  Inv [] st -> running st = true ->
  exists url rest,
    pop (pick st) (to_visit st) = Some (url, rest) /\
    ~ In url (visited st) /\
    iteration st =
    crawl_page url {| visited := visited st ++ [url]; to_visit := rest;
                      product_urls := product_urls st;
                      requests := requests st |}.
Proof.
  intros Hst Hrun. apply running_true in Hrun. destruct Hrun as [Hne _].
  destruct (pop_some (pick st) _ Hne) as [url [rest Hpop]].
  exists url, rest. split; auto.
  destruct (pop_cut _ _ _ _ Hpop) as [l1 [l2 [Hs _]]].
  assert (Hnot : ~ In url (visited st)).
  { apply (inv_disjoint _ _ _ _ _ _ Hst). rewrite Hs.
    apply in_app_iff. right. now left. }
  split; auto.
  unfold Bee.iteration. rewrite Hpop. simpl.
  apply mem_false_iff in Hnot. rewrite Hnot. simpl.
  apply mem_false_iff in Hnot. now rewrite (add_fresh _ _ Hnot).
Qed.

Lemma iteration_inv (st : State) :
  Inv [] st -> running st = true ->
  Inv [] (iteration st) /\
  List.length (visited (iteration st)) = S (List.length (visited st)).
Proof.
  intros Hst Hrun.
  destruct (iteration_pop st Hst Hrun) as [url [rest [Hpop [Hnot Heq]]]].
  rewrite Heq. clear Heq.
  apply running_true in Hrun. destruct Hrun as [_ Hlt].
  destruct (pop_cut _ _ _ _ Hpop) as [l1 [l2 [Hs Hrest]]].
  destruct Hst as [Hv Ht Hd Hb Hp Hr Hq Hdom Hprod].
  rewrite Hs in Ht. pose proof (NoDup_remove_1 _ _ _ Ht) as Hnd.
  pose proof (NoDup_remove_2 _ _ _ Ht) as Hni. rewrite <- Hrest in Hnd, Hni.
  split.
  - apply crawl_page_inv. constructor; simpl; auto.
    + rewrite <- (add_fresh _ _ Hnot). now apply add_NoDup.
    + intros u Hu Hin. apply in_app_iff in Hin.
      destruct Hin as [Hin|[<-|[]]]; [|contradiction].
      apply (Hd u); auto. rewrite Hs, Hrest in *.
      apply in_app_iff in Hu. apply in_app_iff. simpl. tauto.
    + rewrite length_app. simpl. lia.
    + rewrite app_nil_r in Hp. now rewrite Hp.
    + rewrite length_app. unfold max_retries in *. simpl. simpl in Hr. lia.
    + intros q Hin. apply in_app_iff. left. auto.
    + intros u Hu. apply Hdom. rewrite Hs, Hrest in *.
      rewrite !in_app_iff in *. simpl in *.
      destruct Hu as [[Hu|Hu]|[Hu|[<-|[]]]]; auto.
  - destruct (crawl_page_frame url
                {| visited := visited st ++ [url]; to_visit := rest;
                   product_urls := product_urls st;
                   requests := requests st |}) as [Hvis _].
    rewrite Hvis. simpl. rewrite length_app. simpl. lia.
Qed.

Lemma bee_init_inv : Inv [] (Bee.init base_url).
Proof.
  constructor; simpl.
  - constructor.
  - repeat constructor. intros [].
  - intros u _ [].
  - lia.
  - reflexivity.
  - lia.
  - intros q [].
  - intros u [[<-|[]]|[]]. now left.
  - intros p [].
Qed.

Lemma at_loop_head_inv (st : State) : at_loop_head st -> Inv [] st.
Proof.
  induction 1 as [|st Hst IH Hrun]; [apply bee_init_inv|].
  now apply iteration_inv.
Qed.

(** The loop leaves within [max_pages] turns, whatever the client does. *)
Lemma crawl_loop_total (fuel : nat) :
  forall st, Inv [] st -> max_pages - List.length (visited st) <= fuel ->
  exists final,
    crawl_loop fuel st = Some final /\ Inv [] final /\
    running final = false /\
    incl (product_urls st) (product_urls final) /\
    (exists new, requests final = requests st ++ new).
Proof.
  assert (Hstop : forall n st, Inv [] st -> running st = false ->
    exists final,
      crawl_loop n st = Some final /\ Inv [] final /\
      running final = false /\
      incl (product_urls st) (product_urls final) /\
      (exists new, requests final = requests st ++ new)).
  { intros n st Hst Hrun. exists st.
    split; [destruct n; simpl; now rewrite Hrun|].
    split; [assumption|]. split; [assumption|].
    split; [apply incl_refl|]. exists []. now rewrite app_nil_r. }
  induction fuel as [|fuel IH]; intros st Hst Hfuel.
  - apply Hstop; auto.
    destruct (running st) eqn:Hr; auto. apply running_true in Hr. lia.
  - destruct (running st) eqn:Hrun; [|now apply Hstop].
    simpl. rewrite Hrun.
    destruct (iteration_inv st Hst Hrun) as [Hinv Hlen].
    destruct (IH (iteration st) Hinv) as [final [Hf [Hi [Hr [Hp [new Hq]]]]]];
      [lia|].
    exists final.
    split; [assumption|]. split; [assumption|]. split; [assumption|].
    destruct (iteration_pop st Hst Hrun) as [url [rest [_ [_ Heq]]]].
    rewrite Heq in Hp, Hq.
    destruct (crawl_page_frame url
                {| visited := visited st ++ [url]; to_visit := rest;
                   product_urls := product_urls st;
                   requests := requests st |}) as [_ [Hprod [_ Hreq]]].
    split.
    + eapply incl_tran; [exact Hprod | exact Hp].
    + destruct (page_fetch_log client url None (requests st))
        as [new' [Hlog _]].
      rewrite Hreq in Hq. cbn [requests] in Hq. rewrite Hlog in Hq.
      exists (new' ++ new). now rewrite Hq, app_assoc.
Qed.

Lemma crawl_loop_fuel (fuel extra : nat) :
  forall st final, crawl_loop fuel st = Some final ->
                   crawl_loop (fuel + extra) st = Some final.
Proof.
  induction fuel as [|fuel IH]; intros st final; simpl.
  - destruct extra; simpl; destruct (running st); auto; discriminate.
  - destruct (running st); auto.
Qed.

(** Every state met at the head of the loop leads to the state the crawl
    ends in. *)
Lemma at_loop_head_final (st : State) :
  at_loop_head st ->
  exists n final,
    crawl_loop n st = Some final /\
    crawl_loop max_pages (Bee.init base_url) = Some final.
Proof.
  induction 1 as [|st Hst IH Hrun].
  - destruct (crawl_loop_total max_pages _ bee_init_inv) as [final [Hf _]];
      [simpl; lia|].
    exists max_pages, final. auto.
  - destruct IH as [n [final [Hn Hf]]].
    destruct n as [|n]; simpl in Hn; rewrite Hrun in Hn; [discriminate|].
    exists n, final. auto.
Qed.

End BeeLoop.

(* ================================================================== *)
(** * The queue-based crawl: workers and counters *)
(* ================================================================== *)

Section PoolFacts.
Import Frontier.

Lemma update_length {A : Type} (i : nat) (x : A) (l : list A) :
  List.length (update i x l) = List.length l.
Proof.
  revert i; induction l as [|a l IH]; intros [|i]; simpl; auto.
Qed.

Lemma update_In {A : Type} (i : nat) (x y : A) (l : list A) :
  In y (update i x l) -> y = x \/ In y l.
Proof.
  revert i; induction l as [|a l IH]; intros [|i]; simpl; auto.
  - intros [<-|H]; auto.
  - intros [<-|H]; auto. destruct (IH _ H); auto.
Qed.

Lemma update_In_new {A : Type} (i : nat) (x : A) (l : list A) :
  i < List.length l -> In x (update i x l).
Proof.
  revert i; induction l as [|a l IH]; intros [|i]; simpl; try lia; auto.
  intros H. right. apply IH. lia.
Qed.

(** Replacing one worker changes a sum over the workers by the difference
    of the two summands. *)
Lemma update_sum (f : Worker -> nat) (i : nat) (w w0 : Worker)
    (l : list Worker) :
  nth_error l i = Some w0 ->
  list_sum (map f (update i w l)) + f w0 = list_sum (map f l) + f w.
Proof.
  revert i; induction l as [|a l IH]; intros [|i]; simpl; try discriminate.
  - intros H. injection H as ->. lia.
  - intros H. specialize (IH _ H). lia.
Qed.

Lemma fetching_sum (l : list Worker) :
  fetching l = list_sum (map (fun w => if is_fetching w then 1 else 0) l).
Proof.
  unfold fetching. induction l as [|a l IH]; simpl; auto.
  destruct (is_fetching a); simpl; lia.
Qed.

Lemma update_fetching (i : nat) (w w0 : Worker) (l : list Worker) :
  nth_error l i = Some w0 ->
  fetching (update i w l) + (if is_fetching w0 then 1 else 0) =
  fetching l + (if is_fetching w then 1 else 0).
Proof.
  intros H. rewrite !fetching_sum.
  apply (update_sum (fun w => if is_fetching w then 1 else 0) _ _ _ _ H).
Qed.

Lemma fetching_le (l : list Worker) : fetching l <= List.length l.
Proof. apply filter_length_le. Qed.

(** A worker at [get] is not fetching, so the others leave a permit. *)
Lemma fetching_lt (i : nat) (w0 : Worker) (l : list Worker) :
  nth_error l i = Some w0 -> is_fetching w0 = false ->
  fetching l < List.length l.
Proof.
  intros H Hw.
  pose proof (update_fetching i (Fetching "") w0 l H) as Hu.
  pose proof (fetching_le (update i (Fetching "") l)) as Hle.
  rewrite update_length in Hle. rewrite Hw in Hu. simpl in Hu. lia.
Qed.

Lemma fetching_pos (l : list Worker) :
  0 < fetching l -> exists i u, nth_error l i = Some (Fetching u).
Proof.
  unfold fetching. induction l as [|a l IH]; simpl; [lia|].
  destruct a as [| |u|]; simpl; intros H;
    try (destruct (IH H) as [i [u' Hi]]; exists (S i), u'; exact Hi).
  exists 0, u. reflexivity.
Qed.

End PoolFacts.

(* ================================================================== *)
(** * The queue-based crawl: what every state satisfies *)
(* ================================================================== *)

Section FrontierSafety.
Import PyStr Urllib Classify Web Extract Frontier.

Variable canonical_url : string -> string -> Canonical.
Variable is_same_domain : string -> list string -> bool.
Variable api_key : option string.
Variable site : string -> Reply.
Variable base_url : string.
Variable allowed_domains product_url_keywords : list string.
Variable concurrency max_pages : nat.

Local Abbreviation Inv :=
  (Frontier.Inv is_same_domain api_key allowed_domains product_url_keywords
     concurrency).
Local Abbreviation Puts :=
  (Frontier.Puts is_same_domain allowed_domains product_url_keywords).
Local Abbreviation found_link :=
  (Frontier.found_link is_same_domain allowed_domains product_url_keywords).
Local Abbreviation after_fetch :=
  (Frontier.after_fetch canonical_url is_same_domain allowed_domains
     product_url_keywords max_pages).
Local Abbreviation start_fetch :=
  (Frontier.start_fetch canonical_url is_same_domain api_key allowed_domains
     product_url_keywords max_pages).
Local Abbreviation worker_step :=
  (Frontier.worker_step canonical_url is_same_domain api_key site
     allowed_domains product_url_keywords max_pages).
Local Abbreviation reachable :=
  (Frontier.reachable canonical_url is_same_domain api_key site base_url
     allowed_domains product_url_keywords concurrency max_pages).

Lemma puts_nil (st : State) : Puts [] st st.
Proof.
  constructor; auto; try lia; try apply incl_refl.
  intros l [].
Qed.

Lemma puts_one (st : State) (link : string) : Puts [link] st (found_link st link).
Proof.
  unfold Frontier.found_link.
  destruct (negb (mem link (seen st)) && is_same_domain link allowed_domains)
    eqn:Hc.
  - apply andb_true_iff in Hc. destruct Hc as [Hs Hd].
    apply negb_true_iff, mem_false_iff in Hs.
    constructor; simpl; auto.
    + rewrite length_app. simpl. lia.
    + rewrite length_app. simpl. lia.
    + intros u Hu. apply in_app_iff in Hu.
      destruct Hu as [Hu|[<-|[]]]; auto.
    + intros c. destruct (_looks_like_product_url link _) eqn:Hk; auto.
      rewrite add_iff. intros [->|Hc]; auto.
    + destruct (_looks_like_product_url link _);
        [apply add_incl | apply incl_refl].
    + intros l [<-|[]] _ _ Hk. rewrite Hk. apply add_iff. now left.
  - constructor; simpl; auto; try lia; try apply incl_refl.
    intros l [<-|[]] Hs Hd Hk. exfalso.
    apply mem_false_iff in Hs. rewrite Hs, Hd in Hc. discriminate.
Qed.

Lemma puts_app (l1 l2 : list string) (a b c : State) :
  Puts l1 a b -> Puts l2 b c -> Puts (l1 ++ l2) a c.
Proof.
  intros [S1 M1 W1 R1 U1 B1 Q1 C1 K1 N1] [S2 M2 W2 R2 U2 B2 Q2 C2 K2 N2].
  constructor; try congruence.
  - lia.
  - rewrite length_app. lia.
  - intros u Hu. destruct (Q2 u Hu) as [H|[H1 [H2 H3]]].
    + destruct (Q1 u H) as [H'|[H1 H2]]; auto.
      right. split; auto. apply in_app_iff. auto.
    + right. rewrite S1 in H2. split; auto. apply in_app_iff. auto.
  - intros u Hu. destruct (C2 u Hu) as [H|[H1 H2]].
    + destruct (C1 u H) as [H'|[H1 H2]]; auto.
      right. split; auto. apply in_app_iff. auto.
    + right. split; auto. apply in_app_iff. auto.
  - eapply incl_tran; eauto.
  - intros l Hl Hs Hd Hk. apply in_app_iff in Hl. destruct Hl as [Hl|Hl].
    + apply K2. auto.
    + apply N2; auto. now rewrite S1.
Qed.

Lemma puts_fold (links : list string) :
  forall st, Puts links st (fold_left found_link links st).
Proof.
  induction links as [|l links IH]; intros st; simpl; [apply puts_nil|].
  change (l :: links) with ([l] ++ links).
  eapply puts_app; [apply puts_one | apply IH].
Qed.

(** The links a worker handles after a fetch: those of the page when there
    is one and it is not empty. *)
Lemma after_fetch_spec (i : nat) (url : string) (html : option Html)
    (st : State) :
  exists links st2,
    links = match html with
            | Some h => if nonempty h
                        then _extract_links canonical_url url h else []
            | None => []
            end /\
    Puts links (with_sem (S (sem st)) st) st2 /\
    after_fetch i url html st =
    set_worker i
      (if max_pages <=? List.length (seen st) then Exited else AtGet)
      (task_done st2).
Proof.
  unfold Frontier.after_fetch.
  set (st1 := with_sem (S (sem st)) st).
  assert (Hgo : forall links st2, Puts links st1 st2 ->
            (if max_pages <=? List.length (seen (task_done st2))
             then set_worker i Exited (task_done st2)
             else set_worker i AtGet (task_done st2)) =
            set_worker i
              (if max_pages <=? List.length (seen st) then Exited else AtGet)
              (task_done st2)).
  { intros links st2 H. simpl. rewrite (puts_seen _ _ _ _ _ _ H). simpl.
    now destruct (max_pages <=? _). }
  destruct html as [h|].
  - destruct (nonempty h).
    + eexists _, _. split; [reflexivity|]. split; [apply puts_fold|].
      apply (Hgo _ _ (puts_fold _ st1)).
    + exists [], st1. split; [reflexivity|]. split; [apply puts_nil|].
      apply (Hgo _ _ (puts_nil st1)).
  - exists [], st1. split; [reflexivity|]. split; [apply puts_nil|].
    apply (Hgo _ _ (puts_nil st1)).
Qed.

Lemma after_fetch_inv (i : nat) (url : string) (html : option Html)
    (st : State) (w0 : Worker) (held : nat) :
  nth_error (workers st) i = Some w0 ->
  held + (if is_fetching w0 then 1 else 0) = 1 ->
  Inv held st -> Inv 0 (after_fetch i url html st).
Proof.
  intros Hw Hheld [Hlen Hsem Hnw Hun Hns Hnr Hreq Hkey Hcand].
  destruct (after_fetch_spec i url html st) as [links [st2 [_ [HP ->]]]].
  destruct HP as [S1 M1 W1 R1 U1 B1 Q1 C1 K1 N1]. simpl in *.
  set (x := if max_pages <=? List.length (seen st) then Exited else AtGet).
  assert (Hx : is_fetching x = false) by (subst x; now destruct (_ <=? _)).
  pose proof (update_fetching i x w0 _ Hw) as Hf. rewrite Hx in Hf.
  constructor; simpl; rewrite ?W1, ?S1, ?M1, ?R1; auto.
  - now rewrite update_length.
  - lia.
  - intros u Hu. apply update_In in Hu. destruct Hu as [Hu|Hu].
    + subst x. destruct (_ <=? _); discriminate.
    + now apply (Hnw u).
  - lia.
  - intros c Hc. destruct (C1 c Hc) as [H|[_ H]]; auto.
Qed.

Lemma start_fetch_inv (i : nat) (url : string) (st : State) (w0 : Worker) :
  nth_error (workers st) i = Some w0 -> is_fetching w0 = false ->
  Inv 1 (with_sem (sem st - 1) st) ->
  In url (seen st) -> ~ In url (requests st) ->
  is_same_domain url allowed_domains = true ->
  Inv 0 (start_fetch i url st).
Proof.
  intros Hw Hw0 Hst Hseen Hnew Hdom. unfold Frontier.start_fetch.
  destruct (truthy api_key) eqn:Hk.
  - destruct Hst as [Hlen Hsem Hnw Hun Hns Hnr Hreq Hkey Hcand].
    simpl in *.
    pose proof (update_fetching i (Fetching url) w0 _ Hw) as Hf.
    rewrite Hw0 in Hf. simpl in Hf.
    constructor; simpl; auto.
    + now rewrite update_length.
    + lia.
    + intros u Hu. apply update_In in Hu. destruct Hu as [Hu|Hu].
      * discriminate.
      * now apply (Hnw u).
    + lia.
    + apply NoDup_app; auto.
      * repeat constructor. intros [].
      * intros y Hy [<-|[]]. contradiction.
    + intros u Hu. apply in_app_iff in Hu.
      destruct Hu as [Hu|[<-|[]]]; auto.
    + intros Hno. congruence.
  - eapply after_fetch_inv; [exact Hw | | exact Hst]. now rewrite Hw0.
Qed.

(** Every transition of a worker keeps the invariant. *)
Lemma pool_step_inv (i : nat) (st st' : State) :
  Inv 0 st -> worker_step i st = Some st' -> Inv 0 st'.
Proof.
  intros Hst. unfold Frontier.worker_step.
  destruct (nth_error (workers st) i) as [w|] eqn:Hw; [|discriminate].
  destruct w as [|url|url|]; try discriminate.
  - (* at [get] *)
    destruct (to_visit st) as [|url rest] eqn:Hq; [discriminate|].
    pose proof Hst as [Hlen Hsem Hnw Hun Hns Hnr Hreq Hkey Hcand].
    rewrite Hq in Hun. simpl in Hun. rewrite Nat.add_0_r in Hsem, Hun.
    simpl. destruct (mem url (seen st)) eqn:Hm.
    + intros H. injection H as <-.
      constructor; simpl; auto; lia.
    + apply mem_false_iff in Hm.
      assert (Hseen' : In url (add url (seen st))) by (apply add_iff; auto).
      destruct (is_same_domain url allowed_domains) eqn:Hd; simpl.
      * pose proof (fetching_lt i AtGet _ Hw eq_refl) as Hlt.
        assert (Hpos : 0 < sem st) by lia.
        apply Nat.ltb_lt in Hpos. rewrite Hpos.
        intros H. injection H as <-.
        eapply start_fetch_inv; simpl; eauto.
        -- constructor; simpl; auto; try lia.
           ++ now apply add_NoDup.
           ++ intros u Hu. destruct (Hreq u Hu). split; auto.
              apply add_iff. auto.
        -- intros Hu. apply Hm. now apply Hreq.
      * intros H. injection H as <-.
        constructor; simpl; auto; try lia.
        -- now apply add_NoDup.
        -- intros u Hu. destruct (Hreq u Hu). split; auto.
           apply add_iff. auto.
  - (* waiting for a permit: no worker ever does *)
    exfalso. apply (inv_no_wait _ _ _ _ _ _ _ Hst url).
    eapply nth_error_In; eauto.
  - (* the answer arrives *)
    intros H. injection H as <-.
    apply (after_fetch_inv i url _ st (Fetching url) 0 Hw eq_refl Hst).
Qed.

Lemma fetching_repeat (n : nat) : fetching (repeat AtGet n) = 0.
Proof. unfold fetching. induction n; simpl; auto. Qed.

Lemma pool_init_inv : Inv 0 (Frontier.init base_url concurrency).
Proof.
  constructor; simpl; rewrite ?fetching_repeat.
  - apply repeat_length.
  - lia.
  - intros url Hu. apply repeat_spec in Hu. discriminate.
  - lia.
  - constructor.
  - constructor.
  - intros u [].
  - reflexivity.
  - intros c [].
Qed.

Lemma steps_reachable (order : list nat) :
  forall st st',
    reachable st ->
    Frontier.steps canonical_url is_same_domain api_key site allowed_domains
      product_url_keywords max_pages order st = Some st' ->
    reachable st'.
Proof.
  induction order as [|i order IH]; intros st st' Hst; simpl.
  - intros H. injection H as <-. exact Hst.
  - destruct (worker_step i st) as [st1|] eqn:Hstep; [|discriminate].
    apply IH. econstructor; [exact Hst | exists i; exact Hstep].
Qed.

Lemma pool_reachable_inv (st : State) : reachable st -> Inv 0 st.
Proof.
  induction 1 as [|st st' _ IH [i Hstep]]; [apply pool_init_inv|].
  eapply pool_step_inv; eauto.
Qed.

End FrontierSafety.

(* ================================================================== *)
(** * The queue-based crawl: draining the queue *)
(* ================================================================== *)

Section FrontierDrain.
Import PyStr Urllib Classify Web Extract Frontier.

Variable canonical_url : string -> string -> Canonical.
Variable is_same_domain : string -> list string -> bool.
Variable api_key : option string.
Variable site : string -> Reply.
Variable base_url : string.
Variable allowed_domains product_url_keywords : list string.
Variable concurrency max_pages : nat.

Local Abbreviation Inv :=
  (Frontier.Inv is_same_domain api_key allowed_domains product_url_keywords
     concurrency).
Local Abbreviation Puts :=
  (Frontier.Puts is_same_domain allowed_domains product_url_keywords).
Local Abbreviation after_fetch :=
  (Frontier.after_fetch canonical_url is_same_domain allowed_domains
     product_url_keywords max_pages).
Local Abbreviation start_fetch :=
  (Frontier.start_fetch canonical_url is_same_domain api_key allowed_domains
     product_url_keywords max_pages).
Local Abbreviation worker_step :=
  (Frontier.worker_step canonical_url is_same_domain api_key site
     allowed_domains product_url_keywords max_pages).
Local Abbreviation enabled :=
  (Frontier.enabled canonical_url is_same_domain api_key site
     allowed_domains product_url_keywords max_pages).
Local Abbreviation run :=
  (Frontier.run canonical_url is_same_domain api_key site
     allowed_domains product_url_keywords max_pages).
Local Abbreviation page_links := (Frontier.page_links canonical_url site).
Local Abbreviation page_cost := (Frontier.page_cost canonical_url site).
Local Abbreviation unseen_cost := (Frontier.unseen_cost canonical_url site).
Local Abbreviation page_weight := (Frontier.page_weight canonical_url site).
Local Abbreviation worker_cost := (Frontier.worker_cost canonical_url site).
Local Abbreviation work_left := (Frontier.work_left canonical_url site).
Local Abbreviation Bounded :=
  (Frontier.Bounded is_same_domain allowed_domains).

(** The four ways a worker moves: it drops a URL already seen, it drops a
    URL outside the allowed domains, it takes a permit for a new URL, or
    the answer to its request arrives. *)
Lemma worker_step_cases (i : nat) (st st' : State) :
  Inv 0 st -> worker_step i st = Some st' ->
  (exists url rest,
      nth_error (workers st) i = Some AtGet /\ to_visit st = url :: rest /\
      ((In url (seen st) /\ st' = task_done (with_to_visit rest st)) \/
       (~ In url (seen st) /\ is_same_domain url allowed_domains = false /\
        st' = task_done (with_seen (add url (seen st))
                           (with_to_visit rest st))) \/
       (~ In url (seen st) /\ is_same_domain url allowed_domains = true /\
        0 < sem st /\
        st' = start_fetch i url (with_seen (add url (seen st))
                                   (with_to_visit rest st))))) \/
  (exists url,
      nth_error (workers st) i = Some (Fetching url) /\
      st' = after_fetch i url (fetch_result (site url)) st).
Proof.
  intros Hst. unfold Frontier.worker_step.
  destruct (nth_error (workers st) i) as [w|] eqn:Hw; [|discriminate].
  destruct w as [|url|url|]; try discriminate.
  - destruct (to_visit st) as [|url rest] eqn:Hq; [discriminate|].
    intros H. left. exists url, rest. split; auto. split; auto.
    simpl in H. destruct (mem url (seen st)) eqn:Hm.
    + apply mem_iff in Hm. injection H as <-. auto.
    + apply mem_false_iff in Hm. right.
      destruct (is_same_domain url allowed_domains) eqn:Hd; simpl in H.
      * right.
        pose proof (fetching_lt i AtGet _ Hw eq_refl) as Hlt.
        pose proof (inv_sem _ _ _ _ _ _ _ Hst) as Hsem.
        pose proof (inv_workers _ _ _ _ _ _ _ Hst) as Hlen.
        assert (Hpos : 0 < sem st) by lia.
        pose proof Hpos as Hpos'. apply Nat.ltb_lt in Hpos'.
        rewrite Hpos' in H. injection H as <-. auto.
      * left. injection H as <-. auto.
  - exfalso. apply (inv_no_wait _ _ _ _ _ _ _ Hst url).
    eapply nth_error_In; eauto.
  - intros H. injection H as <-. right. exists url. auto.
Qed.

Lemma sum_cons (x : nat) (l : list nat) : list_sum (x :: l) = x + list_sum l.
Proof. reflexivity. Qed.

Lemma unseen_cost_mono (R seen : list string) (u : string) :
  unseen_cost R (add u seen) <= unseen_cost R seen.
Proof.
  unfold Frontier.unseen_cost.
  induction R as [|b R IH]; cbn [filter map]; rewrite ?sum_cons; auto.
  destruct (mem b (add u seen)) eqn:H1; destruct (mem b seen) eqn:H2;
    cbn [negb map]; rewrite ?sum_cons; try lia.
  apply mem_false_iff in H1. apply mem_iff in H2.
  exfalso. apply H1. apply add_iff. auto.
Qed.

Lemma unseen_cost_add (R seen : list string) (u : string) :
  In u R -> ~ In u seen ->
  unseen_cost R (add u seen) + (2 + page_cost u) <= unseen_cost R seen.
Proof.
  intros Hin Hnot.
  induction R as [|a R IH]; [contradiction|].
  pose proof (unseen_cost_mono R seen u) as Hmono.
  unfold Frontier.unseen_cost in *. cbn [filter map]; rewrite ?sum_cons.
  destruct (string_dec a u) as [->|Hne].
  - assert (H1 : mem u (add u seen) = true)
      by (apply mem_iff, add_iff; auto).
    assert (H2 : mem u seen = false) by now apply mem_false_iff.
    rewrite H1, H2. cbn [negb map]; rewrite ?sum_cons.
    unfold Frontier.page_weight at 2. lia.
  - destruct Hin as [Hin|Hin]; [contradiction|].
    specialize (IH Hin).
    destruct (mem a (add u seen)) eqn:H1; destruct (mem a seen) eqn:H2;
      cbn [negb map]; rewrite ?sum_cons; try lia.
    apply mem_false_iff in H1. apply mem_iff in H2.
    exfalso. apply H1. apply add_iff. auto.
Qed.

Lemma fetching_none (l : list Worker) (u : string) :
  fetching l = 0 -> ~ In (Fetching u) l.
Proof.
  unfold fetching. intros H Hin.
  assert (Hf : In (Fetching u) (filter is_fetching l))
    by (apply filter_In; auto).
  destruct (filter is_fetching l); [contradiction | discriminate].
Qed.

(** The state of a worker that has taken a new URL off the queue and a
    permit of the semaphore. *)
Lemma dequeue_inv (i : nat) (st : State) (url : string) (rest : list string) :
  Inv 0 st -> nth_error (workers st) i = Some AtGet ->
  to_visit st = url :: rest -> ~ In url (seen st) ->
  Inv 1 (with_sem (sem st - 1)
           (with_seen (add url (seen st)) (with_to_visit rest st))).
Proof.
  intros [Hlen Hsem Hnw Hun Hns Hnr Hreq Hkey Hcand] Hw Hq Hm.
  pose proof (fetching_lt i AtGet _ Hw eq_refl) as Hlt.
  rewrite Hq in Hun. simpl in Hun.
  constructor; simpl; auto; try lia.
  - now apply add_NoDup.
  - intros u Hu. destruct (Hreq u Hu). split; auto. apply add_iff. auto.
Qed.

Local Abbreviation Classified :=
  (Frontier.Classified base_url product_url_keywords).
Local Abbreviation reachable :=
  (Frontier.reachable canonical_url is_same_domain api_key site base_url
     allowed_domains product_url_keywords concurrency max_pages).

Lemma after_fetch_classified (i : nat) (url : string) (html : option Html)
    (st : State) :
  Classified st -> Classified (after_fetch i url html st).
Proof.
  intros Hc.
  destruct (after_fetch_spec canonical_url is_same_domain allowed_domains
              product_url_keywords max_pages i url html st)
    as [links [st2 [_ [HP ->]]]].
  destruct HP as [S1 M1 W1 R1 U1 B1 Q1 C1 K1 N1]. simpl in *.
  intros u Hu. simpl in Hu. rewrite S1 in Hu.
  assert (Hold : In u (seen st) \/ In u (to_visit st) ->
                 u = base_url \/
                 (_looks_like_product_url u product_url_keywords = true ->
                  In u (product_candidates st2))).
  { intros H. destruct (Hc u H) as [->|Hk]; auto. }
  destruct Hu as [Hu|Hu]; auto.
  destruct (Q1 u Hu) as [H|[H1 [H2 H3]]]; auto.
Qed.

Lemma step_classified (i : nat) (st st' : State) :
  Inv 0 st -> Classified st -> worker_step i st = Some st' -> Classified st'.
Proof.
  intros Hst Hc Hstep.
  destruct (worker_step_cases i st st' Hst Hstep)
    as [[url [rest [Hw [Hq Hcase]]]] | [url [Hw ->]]];
    [|now apply after_fetch_classified].
  assert (Hpre : Classified (with_seen (add url (seen st))
                               (with_to_visit rest st))).
  { intros u Hu. simpl in Hu. apply Hc. rewrite Hq.
    destruct Hu as [Hu|Hu]; [|right; now right].
    apply add_iff in Hu. destruct Hu as [->|Hu]; auto. right. now left. }
  destruct Hcase as [[Hseen ->] | [[Hnew [Hd ->]] | [Hnew [Hd [Hpos ->]]]]].
  - intros u Hu. simpl in *. apply Hc. rewrite Hq.
    destruct Hu as [Hu|Hu]; auto. right. now right.
  - exact Hpre.
  - unfold Frontier.start_fetch. destruct (truthy api_key).
    + exact Hpre.
    + apply after_fetch_classified. exact Hpre.
Qed.

Lemma init_classified : Classified (Frontier.init base_url concurrency).
Proof. intros u [[]|[<-|[]]]. now left. Qed.

Lemma reachable_classified (st : State) : reachable st -> Classified st.
Proof.
  induction 1 as [|st st' Hr IH [i Hstep]]; [apply init_classified|].
  eapply step_classified; eauto.
  eapply pool_reachable_inv; eauto.
Qed.

(** The candidates only grow. *)
Lemma after_fetch_candidates (i : nat) (url : string) (html : option Html)
    (st : State) :
  incl (product_candidates st) (product_candidates (after_fetch i url html st)).
Proof.
  destruct (after_fetch_spec canonical_url is_same_domain allowed_domains
              product_url_keywords max_pages i url html st)
    as [links [st2 [_ [HP ->]]]].
  apply (puts_keep _ _ _ _ _ _ HP).
Qed.

Lemma step_candidates (i : nat) (st st' : State) :
  worker_step i st = Some st' ->
  incl (product_candidates st) (product_candidates st').
Proof.
  unfold Frontier.worker_step, Frontier.start_fetch.
  destruct (nth_error (workers st) i) as [[|url|url|]|]; try discriminate.
  - destruct (to_visit st) as [|url rest]; [discriminate|]. simpl.
    destruct (mem url (seen st)); [intros H; injection H as <-; apply incl_refl|].
    destruct (is_same_domain url allowed_domains); simpl;
      [|intros H; injection H as <-; apply incl_refl].
    destruct (0 <? sem st); [|intros H; injection H as <-; apply incl_refl].
    destruct (truthy api_key); intros H; injection H as <-;
      [apply incl_refl|].
    eapply incl_tran; [|apply after_fetch_candidates]. apply incl_refl.
  - destruct (0 <? sem st); [|discriminate].
    destruct (truthy api_key); intros H; injection H as <-;
      [apply incl_refl|].
    eapply incl_tran; [|apply after_fetch_candidates]. apply incl_refl.
  - intros H. injection H as <-. apply after_fetch_candidates.
Qed.

(** A crawl that returns hands back the candidates of a state it went
    through, and every candidate found on the way is among them. *)
Lemma run_result (sched : nat -> nat) (fuel : nat) :
  forall k st urls,
    reachable st -> run fuel sched k st = Returned urls ->
    incl (product_candidates st) urls /\
    exists final, reachable final /\ unfinished final = 0 /\
                  urls = product_candidates final.
Proof.
  induction fuel as [|fuel IH]; intros k st urls Hr; simpl.
  - destruct (unfinished st =? 0) eqn:Hu; [|discriminate].
    intros H. injection H as <-. apply Nat.eqb_eq in Hu.
    split; [apply incl_refl | eauto].
  - destruct (unfinished st =? 0) eqn:Hu.
    + intros H. injection H as <-. apply Nat.eqb_eq in Hu.
      split; [apply incl_refl | eauto].
    + destruct (enabled st) as [|i0 l]; [discriminate|].
      destruct (worker_step _ st) as [st'|] eqn:Hstep; [|discriminate].
      intros H.
      assert (Hr' : reachable st') by (econstructor; [exact Hr | eexists; eauto]).
      destruct (IH _ _ _ Hr' H) as [Hincl Hfinal].
      split; auto.
      eapply incl_tran; [eapply step_candidates; eauto | exact Hincl].
Qed.

(** A request goes out only for a URL that the same transition has just
    put into [seen]; a URL found in [seen] is dropped. *)
Lemma step_requests (i : nat) (st st' : State) :
  Inv 0 st -> worker_step i st = Some st' ->
  requests st' = requests st \/
  exists url rest,
    to_visit st = url :: rest /\ ~ In url (seen st) /\
    In url (seen st') /\ requests st' = requests st ++ [url].
Proof.
  intros Hst Hstep.
  assert (Haf : forall j u h s, requests (after_fetch j u h s) = requests s).
  { intros j u h s.
    destruct (after_fetch_spec canonical_url is_same_domain allowed_domains
                product_url_keywords max_pages j u h s)
      as [links [st2 [_ [HP ->]]]].
    simpl. now rewrite (puts_requests _ _ _ _ _ _ HP). }
  destruct (worker_step_cases i st st' Hst Hstep)
    as [[url [rest [Hw [Hq Hcase]]]] | [url [Hw ->]]];
    [|left; apply Haf].
  destruct Hcase as [[Hseen ->] | [[Hnew [Hd ->]] | [Hnew [Hd [Hpos ->]]]]];
    auto.
  unfold Frontier.start_fetch. destruct (truthy api_key).
  - right. exists url, rest. simpl. repeat split; auto.
    apply add_iff. auto.
  - left. rewrite Haf. reflexivity.
Qed.

Lemma enabled_iff (st : State) (i : nat) :
  In i (enabled st) <->
  i < List.length (workers st) /\ exists st', worker_step i st = Some st'.
Proof.
  unfold Frontier.enabled. rewrite filter_In, in_seq.
  destruct (worker_step i st) as [st'|]; split.
  - intros [H _]. split; [lia | eauto].
  - intros [H _]. split; [lia | reflexivity].
  - intros [_ H]. discriminate.
  - intros [_ [st' H]]. discriminate.
Qed.

Section Closed.

Variable R : list string.
Hypothesis Hclosed :
  Frontier.closed canonical_url is_same_domain site base_url allowed_domains R.
Hypothesis Hsmall : List.length R < max_pages.

Lemma below_budget (held : nat) (st : State) :
  Inv held st -> Bounded R st ->
  (max_pages <=? List.length (seen st)) = false.
Proof.
  intros Hst Hb. apply Nat.leb_gt.
  pose proof (NoDup_incl_length (inv_nodup_seen _ _ _ _ _ _ _ Hst)
                (bnd_seen _ _ _ _ Hb)).
  lia.
Qed.

Lemma after_fetch_drain (i : nat) (url : string) (html : option Html)
    (st : State) (w0 : Worker) (held : nat) :
  nth_error (workers st) i = Some w0 ->
  Inv held st -> Bounded R st ->
  html = None \/ (html = fetch_result (site url) /\ In url R) ->
  Bounded R (after_fetch i url html st) /\
  work_left R (after_fetch i url html st) + worker_cost w0 <=
  work_left R st + match html with None => 0 | Some _ => page_cost url end.
Proof.
  intros Hw Hst Hb Hhtml.
  pose proof (below_budget _ _ Hst Hb) as Hbudget.
  destruct (after_fetch_spec canonical_url is_same_domain allowed_domains
              product_url_keywords max_pages i url html st)
    as [links [st2 [Hlinks [HP ->]]]].
  rewrite Hbudget.
  destruct HP as [S1 M1 W1 R1 U1 B1 Q1 C1 K1 N1]. simpl in *.
  destruct Hb as [Bq Bs Bf Ba].
  assert (Hin : forall l, In l links ->
                 is_same_domain l allowed_domains = true -> In l R).
  { intros l Hl Hd. destruct Hhtml as [->|[-> HR]].
    - subst links. contradiction.
    - apply (proj2 Hclosed url l HR); auto.
      unfold Frontier.page_links. now rewrite <- Hlinks. }
  assert (Hcount : List.length links <=
                   match html with None => 0 | Some _ => page_cost url end).
  { destruct Hhtml as [->|[-> HR]].
    - subst links. simpl. lia.
    - unfold Frontier.page_cost, Frontier.page_links.
      rewrite Hlinks. destruct (fetch_result (site url)); simpl; lia. }
  split.
  - constructor; simpl; rewrite ?S1, ?W1; auto.
    + intros u Hu. destruct (Q1 u Hu) as [H|[H1 [_ H2]]]; auto.
    + intros u Hu. apply update_In in Hu.
      destruct Hu as [Hu|Hu]; [discriminate | auto].
    + intros Hu. apply update_In in Hu.
      destruct Hu as [Hu|Hu]; [discriminate | auto].
  - unfold Frontier.work_left. simpl. rewrite S1, W1.
    pose proof (update_sum worker_cost i AtGet w0 _ Hw) as Hsum.
    simpl in Hsum. lia.
Qed.

(** Every transition keeps the crawl inside [R] and uses up some of the
    work that is left. *)
Lemma step_drain (i : nat) (st st' : State) :
  Inv 0 st -> Bounded R st -> worker_step i st = Some st' ->
  Bounded R st' /\ work_left R st' < work_left R st.
Proof.
  intros Hst Hb Hstep.
  destruct (worker_step_cases i st st' Hst Hstep)
    as [[url [rest [Hw [Hq Hcase]]]] | [url [Hw ->]]].
  - pose proof Hb as [Bq Bs Bf Ba].
    assert (Hurl : In url R /\ is_same_domain url allowed_domains = true).
    { apply Bq. rewrite Hq. now left. }
    assert (Hrest : forall u, In u rest -> In u (to_visit st)).
    { intros u Hu. rewrite Hq. now right. }
    destruct Hcase as [[Hseen ->] | [[Hnew [Hd ->]] | [Hnew [Hd [Hpos ->]]]]].
    + split.
      * constructor; simpl; auto.
      * unfold Frontier.work_left. simpl. rewrite Hq. simpl. lia.
    + destruct Hurl. congruence.
    + pose proof (dequeue_inv i st url rest Hst Hw Hq Hnew) as Hinv1.
      pose proof (unseen_cost_add R (seen st) url (proj1 Hurl) Hnew) as Hcost.
      assert (Hb1 : Bounded R (with_sem (sem st - 1)
                       (with_seen (add url (seen st))
                          (with_to_visit rest st)))).
      { constructor; simpl; auto.
        intros u Hu. apply add_iff in Hu. destruct Hu as [->|Hu]; auto.
        tauto. }
      unfold Frontier.start_fetch. destruct (truthy api_key).
      * split.
        -- constructor; simpl; auto.
           ++ intros u Hu. apply add_iff in Hu.
              destruct Hu as [->|Hu]; auto. tauto.
           ++ intros u Hu. apply update_In in Hu.
              destruct Hu as [Hu|Hu]; auto. injection Hu as ->. tauto.
           ++ intros Hu. apply update_In in Hu.
              destruct Hu as [Hu|Hu]; [discriminate | auto].
        -- unfold Frontier.work_left. simpl. rewrite Hq. simpl.
           pose proof (update_sum worker_cost i (Fetching url) AtGet _ Hw)
             as Hsum.
           simpl in Hsum. lia.
      * destruct (after_fetch_drain i url None
                    (with_sem (sem st - 1)
                       (with_seen (add url (seen st))
                          (with_to_visit rest st)))
                    AtGet 1 Hw Hinv1 Hb1 (or_introl eq_refl))
          as [Hb' Hwork].
        split; auto. simpl in Hwork.
        unfold Frontier.work_left in *. simpl in *. rewrite Hq. simpl. lia.
  - assert (HR : In url R).
    { apply (bnd_fetching _ _ _ _ Hb). eapply nth_error_In; eauto. }
    destruct (after_fetch_drain i url (fetch_result (site url)) st
                (Fetching url) 0 Hw Hst Hb (or_intror (conj eq_refl HR)))
      as [Hb' Hwork].
    split; auto. simpl in Hwork.
    destruct (fetch_result (site url)); lia.
Qed.

(** While tasks are unfinished some worker can run. *)
Lemma progress (st : State) :
  1 <= concurrency -> Inv 0 st -> Bounded R st -> unfinished st <> 0 ->
  exists i st', i < List.length (workers st) /\ worker_step i st = Some st'.
Proof.
  intros Hc Hst Hb Hun.
  pose proof Hst as [Hlen Hsem Hnw Hu Hns Hnr Hreq Hkey Hcand].
  destruct (Nat.eq_dec (fetching (workers st)) 0) as [Hz|Hnz].
  - destruct (nth_error (workers st) 0) as [w|] eqn:Hw.
    + assert (Hin : In w (workers st)) by (eapply nth_error_In; eauto).
      assert (w = AtGet) as ->.
      { destruct w as [|u|u|]; auto.
        - destruct (Hnw u Hin).
        - destruct (fetching_none _ u Hz Hin).
        - destruct (bnd_alive _ _ _ _ Hb Hin). }
      exists 0. unfold Frontier.worker_step. rewrite Hw.
      destruct (to_visit st) as [|url rest]; [simpl in Hu; lia|].
      destruct (mem url _); [eexists; split; [lia | reflexivity]|].
      destruct (negb _); [eexists; split; [lia | reflexivity]|].
      destruct (0 <? _); eexists; (split; [lia | reflexivity]).
    + apply nth_error_None in Hw. lia.
  - destruct (fetching_pos (workers st)) as [i [u Hi]]; [lia|].
    exists i. unfold Frontier.worker_step. rewrite Hi.
    eexists. split; [|reflexivity].
    apply nth_error_Some. congruence.
Qed.

(** With fuel for the work that is left, the crawl returns under every
    scheduler. *)
Lemma run_returns (sched : nat -> nat) (fuel : nat) :
  1 <= concurrency ->
  forall st k, Inv 0 st -> Bounded R st -> work_left R st <= fuel ->
               exists urls, run fuel sched k st = Returned urls.
Proof.
  intros Hc. induction fuel as [|fuel IH]; intros st k Hst Hb Hwork.
  - simpl. destruct (unfinished st =? 0) eqn:Hu; [eauto|].
    apply Nat.eqb_neq in Hu.
    destruct (progress st Hc Hst Hb Hu) as [i [st' [_ Hstep]]].
    destruct (step_drain i st st' Hst Hb Hstep). lia.
  - simpl. destruct (unfinished st =? 0) eqn:Hu; [eauto|].
    apply Nat.eqb_neq in Hu.
    destruct (progress st Hc Hst Hb Hu) as [i [st' [Hi Hstep]]].
    assert (Hen : In i (enabled st)) by (apply enabled_iff; eauto).
    destruct (enabled st) as [|i0 l] eqn:He; [contradiction|].
    set (j := nth (sched k mod List.length (i0 :: l)) (i0 :: l) i0).
    assert (Hj : In j (enabled st)).
    { rewrite He. apply nth_In. apply Nat.mod_upper_bound. discriminate. }
    apply enabled_iff in Hj. destruct Hj as [_ [st'' Hstep']].
    rewrite Hstep'.
    destruct (step_drain j st st'' Hst Hb Hstep') as [Hb' Hlt].
    apply IH; auto; [|lia].
    eapply pool_step_inv; eauto.
Qed.

End Closed.

End FrontierDrain.

(* ================================================================== *)
(** * Classification *)
(* ================================================================== *)

Section ClassificationClaims.
Import PyStr Urllib Classify.

(** C3, as the code has it, on a URL of printable ASCII without square
    brackets, where [urlparse] and [str.lower()] are as modelled:
    [_looks_like_product_url], which the queue-based crawl uses, answers
    true exactly when some configured keyword, as written, occurs in the
    lower-cased path of the URL, so that on a URL of the form
    [scheme://netloc/path?query] neither the network location nor the
    query counts; [_is_product_url], which [crawl_with_scrapingbee] and
    [_crawl_page] use, answers true exactly when some keyword occurs in
    the whole lower-cased URL, host and query string included. *)
Theorem classification_variants (url : string) (keywords : list string)
    (sch loc p q : string) (Hplain : Plain.plain url = true) :
  (_looks_like_product_url url keywords = true <->
   exists k, In k keywords /\ occurs_in k (lower (path (urlparse url)))) /\
  (url_parts sch loc p q ->
   url = (sch ++ "://" ++ loc ++ p ++ "?" ++ q)%string ->
   (_looks_like_product_url url keywords = true <->
    exists k, In k keywords /\ occurs_in k (lower p))) /\
  (_is_product_url url keywords = true <->
   exists k, In k keywords /\ occurs_in k (lower url)).
Proof.
  split; [apply any_contains_iff|]. split; [|apply any_contains_iff].
  intros Hparts ->. unfold _looks_like_product_url.
  destruct (urlparse_parts sch loc p q Hparts) as [_ [-> _]].
  apply any_contains_iff.
Qed.

Lemma classification_variants_witness :
  Plain.plain "https://product.test/about?ref=product" = true /\
  url_parts "https" "product.test" "/about" "ref=product" /\
  ~ (exists k, In k ["product"] /\ occurs_in k (lower "/about")) /\
  _looks_like_product_url "https://product.test/about?ref=product" ["product"]
  <> true /\
  _is_product_url "https://product.test/about?ref=product" ["product"] = true.
Proof.
  assert (Hparts : url_parts "https" "product.test" "/about" "ref=product").
  { split; [exists "h"%char, "ttps"; split; reflexivity|].
    split; [reflexivity|]. split; [repeat split; reflexivity|].
    split; [right; exists "about"; reflexivity|].
    split; [repeat split; reflexivity | reflexivity]. }
  assert (Hno : ~ (exists k, In k ["product"] /\ occurs_in k (lower "/about"))).
  { intros H. apply any_contains_iff in H. discriminate H. }
  split; [reflexivity|]. split; [exact Hparts|]. split; [exact Hno|].
  destruct (classification_variants "https://product.test/about?ref=product"
              ["product"] "https" "product.test" "/about" "ref=product"
              eq_refl) as [_ [Hpath Hurl]].
  split.
  - intros H. apply Hno. apply (Hpath Hparts eq_refl). exact H.
  - apply Hurl. exists "product". split; [simpl; auto|].
    exists "https://", ".test/about?ref=product". reflexivity.
Defined.

(** C3 fails for [_is_product_url]: a keyword that occurs in the query
    string only makes the URL a product, although no keyword occurs in its
    path. *)
Lemma classification_not_path_only :
  ~ (_is_product_url "https://shop.test/about?ref=product" ["product"] = true
     <->
     exists k, In k ["product"] /\
               occurs_in k
                 (lower (path (urlparse "https://shop.test/about?ref=product")))).
Proof.
  intros [H _].
  assert (Hp : _is_product_url "https://shop.test/about?ref=product"
                 ["product"] = true) by reflexivity.
  apply H, any_contains_iff in Hp. vm_compute in Hp. discriminate.
Qed.

End ClassificationClaims.

(* ================================================================== *)
(** * The retry loops *)
(* ================================================================== *)

Section RetryClaims.
Import Web Main.

(** C6 where the code departs from it: when every answer to a request of
    [fetch_html_with_scrapingbee] is an error status other than 503, a 404
    say, the function still issues three requests before it raises,
    because the [raise] for such a status sits inside the [try] whose
    [except] clause sleeps and goes on to the next attempt. *)
Theorem fetch_html_retries_error_status
    (client : nat -> string -> ProxyParams -> Reply) (url : string)
    (log : list Request)
    (Herr : forall n p, exists r,
        client n url p = Returns r /\ ok r = false /\ status_code r <> 503) :
  fetch_html_with_scrapingbee client url 3 log
  = (FetchRaised,
     log ++ [request url 0; request url 1; request url 2]).
Proof.
  assert (Hbody : forall n attempt,
            attempt_body 3 attempt (client n url (proxy_params url attempt))
            = ARaise).
  { intros n attempt.
    destruct (Herr n (proxy_params url attempt)) as [r [-> [Hok Hs]]].
    unfold attempt_body. rewrite Hok.
    apply Nat.eqb_neq in Hs. now rewrite Hs. }
  unfold fetch_html_with_scrapingbee. simpl.
  rewrite !Hbody. simpl. now rewrite <- !app_assoc.
Qed.

Lemma fetch_html_retries_error_status_witness :
  (forall n p, exists r,
      Shop.not_found n "https://shop.test/product/1" p = Returns r /\
      ok r = false /\ status_code r <> 503) /\
  fetch_html_with_scrapingbee Shop.not_found "https://shop.test/product/1" 3 []
  = (FetchRaised,
     [request "https://shop.test/product/1" 0;
      request "https://shop.test/product/1" 1;
      request "https://shop.test/product/1" 2]).
Proof.
  assert (Herr : forall n p, exists r,
             Shop.not_found n "https://shop.test/product/1" p = Returns r /\
             ok r = false /\ status_code r <> 503).
  { intros n p. eexists. split; [reflexivity|]. split; [reflexivity|].
    simpl. discriminate. }
  split; [exact Herr|].
  apply (fetch_html_retries_error_status Shop.not_found
           "https://shop.test/product/1" [] Herr).
Defined.

End RetryClaims.

(* ================================================================== *)
(** * The claims about the two crawls *)
(* ================================================================== *)

Section CrawlClaims.
Import PyStr Urllib Classify Web Extract.

Variable canonical_url : string -> string -> Canonical.
Variable base_url : string.
Variable allowed_domains keywords : list string.
Variable max_pages : nat.

(** The arguments of [crawl_with_scrapingbee]. *)
Variable client : nat -> string -> ProxyParams -> Reply.
Variable pick : Bee.State -> nat.

(** The arguments and the surroundings of the queue-based [crawl]. *)
Variable is_same_domain : string -> list string -> bool.
Variable api_key : option string.
Variable site : string -> Reply.
Variable concurrency : nat.

Local Abbreviation bee_crawl :=
  (Bee.crawl_with_scrapingbee canonical_url client pick base_url
     allowed_domains keywords max_pages).
Local Abbreviation bee_loop :=
  (Bee.crawl_loop canonical_url client pick base_url allowed_domains keywords
     max_pages).
Local Abbreviation bee_iteration :=
  (Bee.iteration canonical_url client pick base_url allowed_domains keywords
     max_pages).
Local Abbreviation bee_head :=
  (Bee.at_loop_head canonical_url client pick base_url allowed_domains
     keywords max_pages).
Local Abbreviation bee_inv :=
  (Bee.Inv base_url allowed_domains keywords max_pages).
Local Abbreviation queue_reachable :=
  (Frontier.reachable canonical_url is_same_domain api_key site base_url
     allowed_domains keywords concurrency max_pages).
Local Abbreviation queue_step :=
  (Frontier.worker_step canonical_url is_same_domain api_key site
     allowed_domains keywords max_pages).
Local Abbreviation queue_crawl :=
  (Frontier.crawl canonical_url is_same_domain api_key site base_url
     allowed_domains keywords concurrency max_pages).
Local Abbreviation queue_inv :=
  (Frontier.Inv is_same_domain api_key allowed_domains keywords concurrency).

(** [crawl_with_scrapingbee] returns, and what it returns satisfies the
    invariant of the loop. *)
Lemma bee_returns :
  exists final,
    bee_crawl max_pages = Some final /\ bee_inv [] final /\
    Bee.running max_pages final = false.
Proof.
  destruct (crawl_loop_total canonical_url client pick base_url
              allowed_domains keywords max_pages max_pages
              (Bee.init base_url) (bee_init_inv _ _ _ _))
    as [final [Hf [Hi [Hr _]]]]; [simpl; lia|].
  exists final. auto.
Qed.

(** What was found by the time the loop is at its head is in what the
    crawl returns. *)
Lemma bee_keeps_products (st : Bee.State) :
  bee_head st ->
  exists final,
    bee_crawl max_pages = Some final /\
    incl (Bee.product_urls st) (Bee.product_urls final).
Proof.
  intros Hhead.
  destruct (at_loop_head_final _ _ _ _ _ _ _ st Hhead) as [n [final [Hn Hf]]].
  exists final. split; [exact Hf|].
  pose proof (at_loop_head_inv _ _ _ _ _ _ _ st Hhead) as Hinv.
  clear Hf Hhead. revert st Hn Hinv.
  induction n as [|n IH]; intros st Hn Hinv; simpl in Hn.
  - destruct (Bee.running max_pages st); [discriminate|].
    injection Hn as <-. apply incl_refl.
  - destruct (Bee.running max_pages st) eqn:Hrun.
    + destruct (iteration_inv canonical_url client pick _ _ _ _ st Hinv Hrun)
        as [Hinv' _].
      eapply incl_tran; [|apply (IH _ Hn Hinv')].
      destruct (iteration_pop canonical_url client pick _ _ _ _ st Hinv Hrun)
        as [url [rest [_ [_ ->]]]].
      match goal with |- incl _ (Bee.product_urls (Bee.crawl_page _ _ _ _ _ _ ?u ?s)) =>
        destruct (crawl_page_frame canonical_url client base_url
                    allowed_domains keywords max_pages u s) as [_ [H _]]
      end.
      exact H.
    + injection Hn as <-. apply incl_refl.
Qed.

(** A seed outside the allowed domains is dropped by the first worker that
    runs, and so is any seed when the key is missing: the crawl returns
    nothing after one transition. *)
Lemma first_step_returns (sched : nat -> nat) :
  1 <= concurrency ->
  is_same_domain base_url allowed_domains = false \/ truthy api_key = false ->
  queue_crawl 1 sched = Frontier.Returned [].
Proof.
  intros Hc Hwhy. unfold Frontier.crawl. simpl.
  assert (Hpos : (0 <? concurrency) = true) by (apply Nat.ltb_lt; lia).
  assert (Hstep : forall i st',
            queue_step i (Frontier.init base_url concurrency) = Some st' ->
            Frontier.unfinished st' = 0 /\ Frontier.product_candidates st' = []).
  { intros i st'. unfold Frontier.worker_step. simpl.
    destruct (nth_error (repeat Frontier.AtGet concurrency) i) as [w|] eqn:Hw;
      [|discriminate].
    apply nth_error_In, repeat_spec in Hw. subst w.
    destruct (is_same_domain base_url allowed_domains) eqn:Hd; simpl.
    - destruct Hwhy as [Hwhy|Hkey]; [discriminate|].
      rewrite Hpos. unfold Frontier.start_fetch. rewrite Hkey.
      unfold Frontier.after_fetch. simpl.
      destruct (max_pages <=? 1); intros H; injection H as <-; auto.
    - intros H. injection H as <-. auto. }
  assert (H0 : In 0 (Frontier.enabled canonical_url is_same_domain api_key
                       site allowed_domains keywords max_pages
                       (Frontier.init base_url concurrency))).
  { apply enabled_iff. simpl. rewrite repeat_length. split; [lia|].
    unfold Frontier.worker_step. simpl.
    destruct concurrency; [lia|]. simpl.
    destruct (is_same_domain base_url allowed_domains); simpl; eauto. }
  destruct (Frontier.enabled _ _ _ _ _ _ _ _) as [|i0 l] eqn:He;
    [contradiction|].
  set (j := nth (sched 0 mod List.length (i0 :: l)) (i0 :: l) i0).
  assert (Hj : In j (i0 :: l)).
  { apply nth_In. apply Nat.mod_upper_bound. discriminate. }
  rewrite <- He in Hj. apply enabled_iff in Hj. destruct Hj as [_ [st' Hj]].
  fold j. rewrite Hj. destruct (Hstep _ _ Hj) as [Hu Hp].
  now rewrite Hu, Hp.
Qed.

(** C1.  No URL is fetched twice.  In the queue-based crawl the log of
    requests never holds a URL twice and holds only URLs that are in
    [seen]; a transition that sends a request is one that found the URL at
    the head of the queue, found it absent from [seen] and put it there,
    so a URL that is already in [seen] is dropped without a request
    however often it was queued.  In [crawl_with_scrapingbee] the page
    fetches that were started are the visited URLs, each once (a page
    fetch being the retry loop for one URL). *)
Theorem no_duplicate_fetch (st : Frontier.State) (Hst : queue_reachable st) :
  NoDup (Frontier.requests st) /\
  (forall u, In u (Frontier.requests st) -> In u (Frontier.seen st)) /\
  (forall i st',
      queue_step i st = Some st' ->
      Frontier.requests st' = Frontier.requests st \/
      exists url rest,
        Frontier.to_visit st = url :: rest /\
        ~ In url (Frontier.seen st) /\ In url (Frontier.seen st') /\
        Frontier.requests st' = Frontier.requests st ++ [url]) /\
  exists final,
    bee_crawl max_pages = Some final /\
    NoDup (Bee.pages (Bee.requests final)) /\
    Bee.pages (Bee.requests final) = Bee.visited final.
Proof.
  pose proof (pool_reachable_inv _ _ _ _ _ _ _ _ _ st Hst) as Hinv.
  split; [apply (Frontier.inv_nodup_requests _ _ _ _ _ _ _ Hinv)|].
  split; [intros u Hu; apply (Frontier.inv_requests _ _ _ _ _ _ _ Hinv u Hu)|].
  split; [intros i st' Hstep; eapply step_requests; eauto|].
  destruct bee_returns as [final [Hf [Hi _]]].
  exists final. split; [exact Hf|].
  pose proof (Bee.inv_pages _ _ _ _ _ _ Hi) as Hp. rewrite app_nil_r in Hp.
  split; [|exact Hp]. rewrite Hp.
  apply (Bee.inv_nodup_visited _ _ _ _ _ _ Hi).
Qed.

(** C2, as the code has it.  [crawl_with_scrapingbee] starts at most
    [max_pages] page fetches; each takes up to three requests, so the
    requests number at most three times [max_pages]; and once
    [len(visited)] has reached [max_pages] the loop is left and nothing
    more is requested. *)
Theorem page_budget :
  (exists final,
      bee_crawl max_pages = Some final /\
      List.length (Bee.pages (Bee.requests final)) <= max_pages /\
      List.length (Bee.visited final) <= max_pages /\
      List.length (Bee.requests final) <= 3 * max_pages) /\
  (forall st fuel,
      max_pages <= List.length (Bee.visited st) -> bee_loop fuel st = Some st).
Proof.
  split.
  - destruct bee_returns as [final [Hf [Hi _]]].
    exists final. split; [exact Hf|].
    pose proof (Bee.inv_pages _ _ _ _ _ _ Hi) as Hp. rewrite app_nil_r in Hp.
    pose proof (Bee.inv_budget _ _ _ _ _ _ Hi) as Hb.
    pose proof (Bee.inv_requests _ _ _ _ _ _ Hi) as Hr.
    unfold Bee.max_retries in Hr. simpl in Hr.
    rewrite Hp. repeat split; lia.
  - intros st fuel Hfull.
    assert (Hrun : Bee.running max_pages st = false).
    { unfold Bee.running. apply andb_false_iff. right.
      apply Nat.ltb_ge. exact Hfull. }
    destruct fuel; simpl; now rewrite Hrun.
Qed.

(** The page that was fetched enters the handling of its links through
    the request alone: the links are resolved against [base_url]. *)
Lemma crawl_page_resolves_against_base (url : string) (st : Bee.State)
    (r : Response) :
  fst (Bee.attempts_loop client (seq 0 Bee.max_retries) url None
         (Bee.requests st)) = Some r ->
  ok r = true -> utf8 r = true ->
  Bee.crawl_page canonical_url client base_url allowed_domains keywords
    max_pages url st
  = fold_left (Bee.visit_link keywords max_pages)
      (Bee.filter_links allowed_domains
         (_extract_links canonical_url base_url (body r)))
      {| Bee.visited := Bee.visited st; Bee.to_visit := Bee.to_visit st;
         Bee.product_urls := Bee.product_urls st;
         Bee.requests :=
           snd (Bee.attempts_loop client (seq 0 Bee.max_retries) url None
                  (Bee.requests st)) |}.
Proof.
  intros Hresp Hok Hutf. unfold Bee.crawl_page, Bee.try_page.
  destruct (Bee.attempts_loop client _ url None (Bee.requests st))
    as [response log]. cbn [fst snd] in *. subst response.
  now rewrite Hok, Hutf.
Qed.

(** What a turn of the loop does when the page fetch fails. *)
Lemma failed_turn (st : Bee.State) (url : string) (rest : list string) :
  bee_inv [] st -> Bee.running max_pages st = true ->
  pop (pick st) (Bee.to_visit st) = Some (url, rest) ->
  Bee.page_failed canonical_url client base_url url st ->
  Bee.visited (bee_iteration st) = Bee.visited st ++ [url] /\
  Bee.to_visit (bee_iteration st) = rest /\
  Bee.product_urls (bee_iteration st) = Bee.product_urls st.
Proof.
  intros Hinv Hrun Hpop Hfail.
  destruct (iteration_pop canonical_url client pick _ _ _ _ st Hinv Hrun)
    as [url' [rest' [Hpop' [_ ->]]]].
  rewrite Hpop in Hpop'. injection Hpop' as <- <-.
  unfold Bee.page_failed in Hfail.
  unfold Bee.crawl_page, Bee.try_page. cbn [Bee.requests].
  destruct (Bee.attempts_loop client _ url None (Bee.requests st))
    as [response log]. cbn [fst] in Hfail.
  destruct response as [r|]; [|simpl; auto].
  destruct (ok r); [|simpl; auto].
  destruct (utf8 r); [|simpl; auto].
  destruct Hfail as [Hf|[Hf|Hf]]; try discriminate.
  unfold _extract_links. rewrite Hf. simpl. auto.
Qed.

(** C8.  When the page fetch of the URL taken off the frontier fails (no
    response after the retries, an error status, bytes that do not
    decode, an extraction of the links that raises), the turn ends with
    the URL visited, the rest of the frontier and the products as they
    were; the loop is at its head again, and the crawl returns a state
    that holds every product found so far.  [_crawl_page] likewise turns
    whatever its [try] block raises into two empty sets. *)
Theorem page_failure_contained (st : Bee.State) (url : string)
    (rest : list string)
    (Hhead : bee_head st) (Hrun : Bee.running max_pages st = true)
    (Hpop : pop (pick st) (Bee.to_visit st) = Some (url, rest))
    (Hfail : Bee.page_failed canonical_url client base_url url st) :
  (Bee.visited (bee_iteration st) = Bee.visited st ++ [url] /\
   Bee.to_visit (bee_iteration st) = rest /\
   Bee.product_urls (bee_iteration st) = Bee.product_urls st) /\
  bee_head (bee_iteration st) /\
  (exists final,
      bee_crawl max_pages = Some final /\
      incl (Bee.product_urls st) (Bee.product_urls final)) /\
  (forall page words,
      fst (Batch._crawl_page_try canonical_url api_key site base_url
             allowed_domains page words) = None ->
      fst (Batch._crawl_page canonical_url api_key site base_url
             allowed_domains page words) = ([], [])).
Proof.
  split.
  - apply failed_turn; auto. now apply at_loop_head_inv in Hhead.
  - split; [now constructor|]. split; [now apply bee_keeps_products|].
    intros page words. unfold Batch._crawl_page.
    destruct (Batch._crawl_page_try _ _ _ _ _ _ _) as [[result|] log];
      simpl; [discriminate | reflexivity].
Qed.

(** C7, as the code has it.  Without the key, [run] returns before the
    crawl is started.  The crawl functions do not abort: [fetch] answers
    [None] and [_crawl_page] answers two empty sets for the URL they are
    given, and neither sends a request, so the log of the queue-based
    crawl stays empty and the crawl, if it has a worker, returns the empty
    list once the seed has been dropped. *)
Theorem missing_key_sends_no_request (Hkey : truthy api_key = false) :
  (forall fuel,
      Main.run canonical_url client pick api_key base_url allowed_domains
        keywords fuel = Some Main.KeyMissing) /\
  (forall st, queue_reachable st -> Frontier.requests st = []) /\
  (1 <= concurrency ->
   forall sched, queue_crawl 1 sched = Frontier.Returned []) /\
  (forall page words,
      Batch._crawl_page canonical_url api_key site base_url
        allowed_domains page words = (([], []), [])).
Proof.
  split; [|split; [|split]].
  - intros fuel. unfold Main.run. now rewrite Hkey.
  - intros st Hst.
    apply (Frontier.inv_key _ _ _ _ _ _ _
             (pool_reachable_inv _ _ _ _ _ _ _ _ _ st Hst) Hkey).
  - intros Hc sched. apply first_step_returns; auto.
  - intros page words. unfold Batch._crawl_page, Batch._crawl_page_try.
    now rewrite Hkey.
Qed.

End CrawlClaims.

(* ================================================================== *)
(** * The claims on the shop *)
(* ================================================================== *)

Section ShopRuns.
Import PyStr Urllib Classify Web Extract.

Lemma pool_after_seed_reachable :
  Frontier.reachable Utils.canonical_url Utils.is_same_domain (Some "key")
    Shop.site Shop.seed Shop.allowed Shop.keywords 2 10 Shop.pool_after_seed.
Proof.
  eapply Frontier.reach_step; [apply Frontier.reach_init|].
  exists 0. reflexivity.
Defined.

Lemma pool_without_key_reachable :
  Frontier.reachable Utils.canonical_url Utils.is_same_domain None
    Shop.site Shop.seed Shop.allowed Shop.keywords 2 10 Shop.pool_without_key.
Proof.
  eapply Frontier.reach_step; [apply Frontier.reach_init|].
  exists 0. reflexivity.
Defined.

Lemma bee_after_seed_head :
  Bee.at_loop_head Utils.canonical_url Shop.seed_only Shop.oldest Shop.seed
    Shop.allowed Shop.keywords 10 Shop.bee_after_seed.
Proof. apply Bee.head_next; [apply Bee.head_init | reflexivity]. Defined.

Lemma no_duplicate_fetch_witness :
  Frontier.reachable Utils.canonical_url Utils.is_same_domain (Some "key")
    Shop.site Shop.seed Shop.allowed Shop.keywords 2 10 Shop.pool_after_seed /\
  NoDup (Frontier.requests Shop.pool_after_seed).
Proof.
  split; [exact pool_after_seed_reachable|].
  exact (proj1 (no_duplicate_fetch Utils.canonical_url Shop.seed Shop.allowed
                  Shop.keywords 10 Shop.client Shop.oldest
                  Utils.is_same_domain (Some "key") Shop.site 2
                  Shop.pool_after_seed pool_after_seed_reachable)).
Defined.

(** C2 fails as stated: with a budget of one page and a client that is
    out of service, [crawl_with_scrapingbee] fetches one page, the seed,
    and issues three requests for it. *)
Lemma budget_exceeded_by_retries :
  exists final,
    Bee.crawl_with_scrapingbee Utils.canonical_url Shop.unavailable
      Shop.oldest Shop.seed Shop.allowed Shop.keywords 1 1 = Some final /\
    Bee.pages (Bee.requests final) = [Shop.seed] /\
    List.length (Bee.requests final) = 3 /\
    ~ List.length (Bee.requests final) <= 1.
Proof.
  eexists. split; [reflexivity|]. split; [reflexivity|].
  split; [reflexivity|].
  vm_compute. intros H. inversion H as [|n H']. inversion H'.
Qed.

Lemma page_budget_witness :
  1 <= List.length [Shop.seed] /\
  Bee.crawl_loop Utils.canonical_url Shop.client Shop.oldest Shop.seed
    Shop.allowed Shop.keywords 1 5
    {| Bee.visited := [Shop.seed];
       Bee.to_visit := ["https://shop.test/about"];
       Bee.product_urls := ["https://shop.test/product/1"];
       Bee.requests := [Bee.request Shop.seed 0] |}
  = Some {| Bee.visited := [Shop.seed];
            Bee.to_visit := ["https://shop.test/about"];
            Bee.product_urls := ["https://shop.test/product/1"];
            Bee.requests := [Bee.request Shop.seed 0] |}.
Proof.
  split; [simpl; lia|].
  apply (proj2 (page_budget Utils.canonical_url Shop.seed Shop.allowed
                  Shop.keywords 1 Shop.client Shop.oldest)).
  simpl. lia.
Defined.

(** C4 at the failing input: the category page [https://shop.test/cat/]
    links to [item1]; [crawl_with_scrapingbee] resolves the link against
    the base URL and visits [https://shop.test/item1], and never visits
    [https://shop.test/cat/item1], which is what resolving against the
    page's own URL gives and what the queue-based crawl goes on to. *)
Theorem relative_links_resolved_against_base_url :
  (exists final,
      Bee.crawl_with_scrapingbee Utils.canonical_url Shop.client Shop.oldest
        Shop.seed Shop.allowed Shop.keywords 10 10 = Some final /\
      In "https://shop.test/cat/" (Bee.visited final) /\
      In "https://shop.test/item1" (Bee.visited final) /\
      ~ In "https://shop.test/cat/item1" (Bee.visited final)) /\
  _extract_links Utils.canonical_url "https://shop.test/cat/"
    {| nonempty := true; anchors := Some ["item1"] |}
  = ["https://shop.test/cat/item1"] /\
  _extract_links Utils.canonical_url Shop.seed
    {| nonempty := true; anchors := Some ["item1"] |}
  = ["https://shop.test/item1"] /\
  (exists st,
      Frontier.steps Utils.canonical_url Utils.is_same_domain (Some "key")
        Shop.site Shop.allowed Shop.keywords 10 (repeat 0 12)
        (Frontier.init Shop.seed 1) = Some st /\
      In "https://shop.test/cat/item1" (Frontier.seen st) /\
      ~ In "https://shop.test/item1" (Frontier.seen st)).
Proof.
  split; [|split; [reflexivity|split; [reflexivity|]]].
  - eexists. split; [vm_compute; reflexivity|].
    split; [vm_compute; tauto|]. split; [vm_compute; tauto|].
    vm_compute. intros H.
    repeat (destruct H as [H|H]; [discriminate H|]). exact H.
  - eexists. split; [vm_compute; reflexivity|].
    split; [vm_compute; tauto|].
    vm_compute. intros H.
    repeat (destruct H as [H|H]; [discriminate H|]). exact H.
Qed.

(** C7 fails as stated: without the key the queue-based crawl does take
    up the seed; the fetch comes back empty-handed, and the worker is back
    at the queue, so the states of the crawl are not all untouched. *)
Lemma missing_key_contained_per_url :
  ~ (forall st,
        Frontier.reachable Utils.canonical_url Utils.is_same_domain None
          Shop.site Shop.seed Shop.allowed Shop.keywords 2 10 st ->
        Frontier.seen st = []) /\
  Frontier.seen Shop.pool_without_key = [Shop.seed] /\
  Frontier.workers Shop.pool_without_key = [Frontier.AtGet; Frontier.AtGet] /\
  Frontier.crawl Utils.canonical_url Utils.is_same_domain None Shop.site
    Shop.seed Shop.allowed Shop.keywords 2 10 5 Shop.in_turn
  = Frontier.Returned [].
Proof.
  split; [|repeat split; reflexivity].
  intros H. specialize (H _ pool_without_key_reachable). discriminate H.
Qed.

Lemma missing_key_sends_no_request_witness :
  truthy None = false /\
  Main.run Utils.canonical_url Shop.client Shop.oldest None Shop.seed
    Shop.allowed Shop.keywords 5 = Some Main.KeyMissing.
Proof.
  split; [reflexivity|].
  apply (proj1 (missing_key_sends_no_request Utils.canonical_url Shop.seed
                  Shop.allowed Shop.keywords 10 Shop.client Shop.oldest
                  Utils.is_same_domain None Shop.site 1 eq_refl)).
Defined.

Lemma page_failure_contained_witness :
  Bee.page_failed Utils.canonical_url Shop.seed_only Shop.seed
    "https://shop.test/product/1" Shop.bee_after_seed /\
  Bee.product_urls
    (Bee.iteration Utils.canonical_url Shop.seed_only Shop.oldest Shop.seed
       Shop.allowed Shop.keywords 10 Shop.bee_after_seed)
  = Bee.product_urls Shop.bee_after_seed.
Proof.
  assert (Hfail : Bee.page_failed Utils.canonical_url Shop.seed_only
                    Shop.seed "https://shop.test/product/1"
                    Shop.bee_after_seed).
  { vm_compute. left. reflexivity. }
  split; [exact Hfail|].
  apply (page_failure_contained Utils.canonical_url Shop.seed Shop.allowed
           Shop.keywords 10 Shop.seed_only Shop.oldest None Shop.site
           Shop.bee_after_seed "https://shop.test/product/1"
           ["https://shop.test/about"; "https://shop.test/product/2";
            "https://shop.test/cat/"]
           bee_after_seed_head eq_refl eq_refl Hfail).
Defined.

Lemma shop_closed :
  Frontier.closed Utils.canonical_url Utils.is_same_domain Shop.site
    Shop.seed Shop.allowed Shop.inside.
Proof.
  split; [intros _; simpl; auto|].
  intros u link Hu.
  repeat (destruct Hu as [<-|Hu];
          [intros Hl; vm_compute in Hl;
           repeat (destruct Hl as [<-|Hl];
                   [intros Hd; try (vm_compute in Hd; discriminate Hd);
                    vm_compute; tauto|]);
           destruct Hl|]).
  destruct Hu.
Defined.

(** The queue-based crawl tests the budget only after a fetch and only in
    the worker that made it: with two workers and a budget of one page,
    the second worker still requests a product page after the first has
    fetched the seed and left, and the crawl then waits for ever on the
    links that no worker is left to take. *)
Example queue_checks_budget_late :
  exists st,
    Frontier.reachable Utils.canonical_url Utils.is_same_domain (Some "key")
      Shop.site Shop.seed Shop.allowed Shop.keywords 2 1 st /\
    Frontier.requests st = [Shop.seed; "https://shop.test/product/1"] /\
    Frontier.crawl Utils.canonical_url Utils.is_same_domain (Some "key")
      Shop.site Shop.seed Shop.allowed Shop.keywords 2 1 10 Shop.in_turn
    = Frontier.Hung.
Proof.
  eexists. split; [|split; [|reflexivity]].
  - eapply (steps_reachable _ _ _ _ _ _ _ _ _ [0; 0; 1]);
      [apply Frontier.reach_init | vm_compute; reflexivity].
  - reflexivity.
Qed.

(** The batch crawl tests the budget once for a whole batch: with batches
    of three and a budget of two pages it requests four. *)
Example batch_checks_budget_late :
  option_map Batch.requests
    (Batch.crawl Utils.canonical_url (Some "key") Shop.site Shop.seed
       Shop.allowed Shop.keywords 3 2 5)
  = Some [Shop.seed; "https://shop.test/product/1";
          "https://shop.test/about"; "https://shop.test/product/2"].
Proof. reflexivity. Qed.

(** A pool without workers never takes the seed off the queue. *)
Example no_worker_hangs (fuel : nat) :
  Frontier.crawl Utils.canonical_url Utils.is_same_domain (Some "key")
    Shop.site Shop.seed Shop.allowed Shop.keywords 0 10 (S fuel) Shop.in_turn
  = Frontier.Hung.
Proof. reflexivity. Qed.

(** Scenario A of the spec: both crawls return the two product pages of
    the seed page. *)
Example scenario_a :
  option_map Bee.product_urls
    (Bee.crawl_with_scrapingbee Utils.canonical_url Shop.client Shop.oldest
       Shop.seed Shop.allowed Shop.keywords 10 10)
  = Some ["https://shop.test/product/1"; "https://shop.test/product/2"] /\
  Frontier.crawl Utils.canonical_url Utils.is_same_domain (Some "key")
    Shop.site Shop.seed Shop.allowed Shop.keywords 2 10 19 Shop.in_turn
  = Frontier.Returned
      ["https://shop.test/product/1"; "https://shop.test/product/2"].
Proof. split; reflexivity. Qed.

End ShopRuns.

(* ================================================================== *)
(** * More on strings, urlparse and the two classifiers *)
(* ================================================================== *)

Section MoreStringFacts.
Import PyStr Urllib Classify.

Lemma append_assoc (a b c : string) :
  ((a ++ b) ++ c = a ++ (b ++ c))%string.
Proof. induction a as [|x a IH]; simpl; [reflexivity | now rewrite IH]. Qed.

Lemma append_nil_r (a : string) : (a ++ "")%string = a.
Proof. induction a as [|x a IH]; simpl; [reflexivity | now rewrite IH]. Qed.

Lemma lower_app (a b : string) :
  lower (a ++ b) = (lower a ++ lower b)%string.
Proof. induction a as [|c a IH]; simpl; [reflexivity | now rewrite IH]. Qed.

Lemma lower_ascii_idem (c : ascii) : lower_ascii (lower_ascii c) = lower_ascii c.
Proof. destruct c as [[] [] [] [] [] [] [] []]; reflexivity. Qed.

(** The characters [str.lower()] leaves alone. *)
Lemma lowered_app (a b : string) :
  forallb_str (fun c => Ascii.eqb (lower_ascii c) c) (a ++ b) =
  andb (forallb_str (fun c => Ascii.eqb (lower_ascii c) c) a)
       (forallb_str (fun c => Ascii.eqb (lower_ascii c) c) b).
Proof.
  induction a as [|c a IH]; simpl; [reflexivity|].
  now rewrite IH, andb_assoc.
Qed.

Lemma lowered_lower (s : string) :
  forallb_str (fun c => Ascii.eqb (lower_ascii c) c) (lower s) = true.
Proof.
  induction s as [|c s IH]; simpl; [reflexivity|].
  rewrite IH, lower_ascii_idem, Ascii.eqb_refl. reflexivity.
Qed.

Lemma lowered_fixed (s : string) :
  forallb_str (fun c => Ascii.eqb (lower_ascii c) c) s = true -> lower s = s.
Proof.
  induction s as [|c s IH]; simpl; [reflexivity|].
  intros H. apply andb_true_iff in H. destruct H as [Hc Hs].
  apply Ascii.eqb_eq in Hc. now rewrite Hc, IH.
Qed.

Lemma occurs_in_lowered (k s : string) :
  occurs_in k (lower s) -> lower k = k.
Proof.
  intros [pre [post H]]. apply lowered_fixed.
  pose proof (lowered_lower s) as Hl. rewrite H, !lowered_app in Hl.
  apply andb_true_iff in Hl. destruct Hl as [_ Hl].
  apply andb_true_iff in Hl. tauto.
Qed.

Lemma occurs_in_lower (a s : string) :
  occurs_in a s -> forall k, occurs_in k (lower a) -> occurs_in k (lower s).
Proof.
  intros [pre [post ->]] k [pre' [post' Hk]].
  exists (lower pre ++ pre')%string, (post' ++ lower post)%string.
  rewrite !lower_app, Hk.
  now rewrite !append_assoc.
Qed.

Lemma occurs_in_prefix (a b : string) : occurs_in a (a ++ b).
Proof. exists "", b. reflexivity. Qed.

Lemma occurs_in_refl (a : string) : occurs_in a a.
Proof. exists "", "". simpl. now rewrite append_nil_r. Qed.

Lemma occurs_in_trans (a b c : string) :
  occurs_in a b -> occurs_in b c -> occurs_in a c.
Proof.
  intros [p1 [q1 ->]] [p2 [q2 ->]].
  exists (p2 ++ p1)%string, (q1 ++ q2)%string.
  now rewrite !append_assoc.
Qed.

Lemma occurs_in_suffix (a b c : string) :
  occurs_in a c -> occurs_in a (b ++ c).
Proof.
  intros H. eapply occurs_in_trans; [exact H|].
  exists b, "". now rewrite append_nil_r.
Qed.

Lemma occurs_in_app_l (a b c : string) :
  occurs_in a b -> occurs_in a (b ++ c).
Proof.
  intros H. eapply occurs_in_trans; [exact H | apply occurs_in_prefix].
Qed.

Lemma split_first_cut (c : ascii) (s : string) :
  has_char c s = true ->
  s = (fst (split_first c s) ++ String c (snd (split_first c s)))%string.
Proof.
  induction s as [|d s IH]; simpl; [discriminate|].
  destruct (Ascii.eqb c d) eqn:E.
  - apply Ascii.eqb_eq in E. now subst.
  - intros H. destruct (split_first c s) as [a b]. simpl in *.
    now rewrite <- IH.
Qed.

Lemma break_at_cut (p : ascii -> bool) (s : string) :
  s = (fst (break_at p s) ++ snd (break_at p s))%string.
Proof.
  induction s as [|d s IH]; simpl; [reflexivity|].
  destruct (p d); [reflexivity|].
  destruct (break_at p s) as [a b]. simpl in *. now rewrite <- IH.
Qed.

Lemma split_last_slash_cut (s : string) :
  s = (fst (split_last_slash s) ++ snd (split_last_slash s))%string.
Proof.
  induction s as [|c s IH]; simpl; [reflexivity|].
  destruct (split_last_slash s) as [h t]. simpl in IH.
  destruct (has_char "/" s); simpl; [now rewrite <- IH|].
  destruct (Ascii.eqb c "/"); reflexivity.
Qed.

(** What is left of the URL once the scheme is cut off is the end of
    the URL. *)
Lemma split_scheme_rest (url : string) :
  exists pre, url = (pre ++ snd (split_scheme url))%string.
Proof.
  unfold split_scheme.
  destruct (has_char ":" url) eqn:Hc; [|exists ""; reflexivity].
  pose proof (split_first_cut ":" url Hc) as Hcut.
  destruct (split_first ":" url) as [s rest]. simpl in Hcut.
  destruct s as [|c s]; [exists ""; reflexivity|].
  destruct (andb _ _); [|exists ""; reflexivity].
  exists (String c s ++ ":")%string. simpl. rewrite Hcut at 1. simpl.
  f_equal. now rewrite append_assoc.
Qed.

Lemma split_netloc_cut (u : string) :
  exists pre, u = (pre ++ fst (split_netloc u) ++ snd (split_netloc u))%string.
Proof.
  unfold split_netloc.
  destruct u as [|c1 u]; [exists ""; reflexivity|].
  destruct (Ascii.eqb c1 "/") eqn:E1;
    [apply Ascii.eqb_eq in E1; subst c1 | ].
  - destruct u as [|c2 u]; [exists ""; reflexivity|].
    destruct (Ascii.eqb c2 "/") eqn:E2;
      [apply Ascii.eqb_eq in E2; subst c2 | ].
    + exists "//". simpl. do 2 f_equal. apply break_at_cut.
    + exists "". destruct c2 as [[] [] [] [] [] [] [] []]; try reflexivity.
      discriminate.
  - exists "". destruct c1 as [[] [] [] [] [] [] [] []]; try reflexivity.
    discriminate.
Qed.

Lemma cut_at_prefix (c : ascii) (s : string) :
  exists post,
    s = (fst (if has_char c s then split_first c s else (s, "")) ++ post)%string.
Proof.
  destruct (has_char c s) eqn:H.
  - eexists. apply (split_first_cut c s H).
  - exists "". simpl. now rewrite append_nil_r.
Qed.

Lemma splitparams_prefix (s : string) :
  exists post, s = (fst (splitparams s) ++ post)%string.
Proof.
  unfold splitparams.
  pose proof (split_last_slash_cut s) as Hcut.
  destruct (split_last_slash s) as [h t]. simpl in Hcut.
  destruct (has_char ";" t) eqn:Ht.
  - pose proof (split_first_cut ";" t Ht) as Hc.
    destruct (split_first ";" t) as [a b]. simpl in *.
    exists (String ";" b). rewrite Hcut at 1. rewrite Hc at 1.
    now rewrite append_assoc.
  - exists "". simpl. now rewrite append_nil_r.
Qed.

(** The path and the network location that [urlparse] gives are pieces
    of the URL. *)
Lemma urlparse_pieces (url : string) :
  occurs_in (path (urlparse url)) url /\ occurs_in (netloc (urlparse url)) url.
Proof.
  unfold urlparse.
  destruct (split_scheme_rest url) as [p0 H0].
  destruct (split_scheme url) as [sch u1]. simpl in H0.
  destruct (split_netloc_cut u1) as [p1 H1].
  destruct (split_netloc u1) as [loc u2]. simpl in H1.
  destruct (cut_at_prefix "#" u2) as [q3 H3].
  destruct (if has_char "#" u2 then split_first "#" u2 else (u2, ""))
    as [u3 frag]. simpl in H3.
  destruct (cut_at_prefix "?" u3) as [q4 H4].
  destruct (if has_char "?" u3 then split_first "?" u3 else (u3, ""))
    as [u4 qry]. simpl in H4.
  assert (H5 : exists q5,
            u4 = (fst (if andb (existsb (String.eqb sch) uses_params)
                               (has_char ";" u4)
                       then splitparams u4 else (u4, "")) ++ q5)%string).
  { destruct (andb _ _); [apply splitparams_prefix|].
    exists "". simpl. now rewrite append_nil_r. }
  destruct H5 as [q5 H5].
  destruct (if andb _ _ then splitparams u4 else (u4, "")) as [u5 prm].
  simpl in *. split.
  - rewrite H0, H1. apply occurs_in_suffix, occurs_in_suffix, occurs_in_suffix.
    rewrite H3, H4, H5.
    apply occurs_in_app_l, occurs_in_app_l, occurs_in_prefix.
  - rewrite H0, H1. apply occurs_in_suffix, occurs_in_suffix, occurs_in_prefix.
Qed.

Lemma contains_self (s : string) : contains s s = true.
Proof. apply contains_iff, occurs_in_refl. Qed.

Lemma contains_empty (s : string) : contains "" s = true.
Proof. destruct s; reflexivity. Qed.

End MoreStringFacts.

Section ClassifierFacts.
Import PyStr Urllib Classify Web Extract Plain.

(** Whatever [_looks_like_product_url] takes for a product URL,
    [_is_product_url] takes for one too, on a URL of printable ASCII
    without square brackets: the path that [urlparse] cuts out is a piece
    of the URL, so a keyword found in the lower-cased path is found in
    the lower-cased URL. *)
Theorem path_match_is_url_match (url : string) (keywords : list string)
    (Hplain : plain url = true) :
  _looks_like_product_url url keywords = true ->
  _is_product_url url keywords = true.
Proof.
  unfold _looks_like_product_url, _is_product_url. intros H.
  apply any_contains_iff in H. destruct H as [k [Hk Hin]].
  apply any_contains_iff. exists k. split; [exact Hk|].
  eapply occurs_in_lower; [apply (proj1 (urlparse_pieces url)) | exact Hin].
Qed.

Lemma path_match_is_url_match_witness :
  plain "https://shop.test/product/1" = true /\
  _looks_like_product_url "https://shop.test/product/1" ["product"] = true /\
  _is_product_url "https://shop.test/product/1" ["product"] = true.
Proof.
  split; [reflexivity|]. split; [reflexivity|].
  apply (path_match_is_url_match "https://shop.test/product/1" ["product"]
           eq_refl).
  reflexivity.
Defined.

(** Only the URL is lower-cased, the keywords are taken as written: a
    keyword that [str.lower()] would change, one with a capital letter,
    matches no URL of printable ASCII without square brackets, under
    either classifier. *)
Theorem capital_keyword_never_matches (keywords : list string)
    (Hcap : forall k, In k keywords -> lower k <> k) (url : string)
    (Hplain : plain url = true) :
  _is_product_url url keywords = false /\
  _looks_like_product_url url keywords = false.
Proof.
  unfold _is_product_url, _looks_like_product_url.
  split; apply not_true_is_false; intros H; apply any_contains_iff in H;
    destruct H as [k [Hk Hin]]; apply (Hcap k Hk);
    eapply occurs_in_lowered; exact Hin.
Qed.

Lemma capital_keyword_never_matches_witness :
  (forall k, In k ["Product"] -> lower k <> k) /\
  plain "https://shop.test/Product/1" = true /\
  _is_product_url "https://shop.test/Product/1" ["Product"] = false /\
  _looks_like_product_url "https://shop.test/Product/1" ["Product"] = false.
Proof.
  assert (Hcap : forall k, In k ["Product"] -> lower k <> k).
  { intros k [<-|[]]. simpl. discriminate. }
  split; [exact Hcap|]. split; [reflexivity|].
  apply (capital_keyword_never_matches ["Product"] Hcap
           "https://shop.test/Product/1" eq_refl).
Defined.

(** The empty string is in every string: with an empty keyword in the
    configuration every URL of printable ASCII without square brackets is
    a product URL, under either classifier. *)
Theorem empty_keyword_matches_all (keywords : list string)
    (Hempty : In "" keywords) (url : string) (Hplain : plain url = true) :
  _is_product_url url keywords = true /\
  _looks_like_product_url url keywords = true.
Proof.
  unfold _is_product_url, _looks_like_product_url.
  split; apply existsb_exists; exists ""; (split; [exact Hempty|]);
    apply contains_empty.
Qed.

Lemma empty_keyword_matches_all_witness :
  In "" ["product"; ""] /\
  plain "https://shop.test/about" = true /\
  _is_product_url "https://shop.test/about" ["product"; ""] = true /\
  _looks_like_product_url "https://shop.test/about" ["product"; ""] = true.
Proof.
  assert (Hin : In "" ["product"; ""]) by (simpl; auto).
  split; [exact Hin|]. split; [reflexivity|].
  apply (empty_keyword_matches_all ["product"; ""] Hin
           "https://shop.test/about" eq_refl).
Defined.

(** The domain filter of [crawl_with_scrapingbee] and [_crawl_page] reads
    the network location of a link, which is the host together with any
    user information in front of it and any port behind it, and reads it
    for a piece: a link [scheme://netloc/path?query] of printable ASCII
    without square brackets passes exactly when some allowed domain occurs
    somewhere in the network location.  A domain named in the path or in
    the query does not let a link in; a network location that merely
    holds the domain does, also when the domain is the user information
    in front of another host. *)
Theorem domain_filter_reads_netloc (allowed_domains : list string)
    (sch loc p q : string) (Hparts : url_parts sch loc p q)
    (Hplain : plain (sch ++ "://" ++ loc ++ p ++ "?" ++ q) = true) :
  Bee.in_allowed allowed_domains (sch ++ "://" ++ loc ++ p ++ "?" ++ q) = true
  <-> exists domain, In domain allowed_domains /\ occurs_in domain loc.
Proof.
  unfold Bee.in_allowed.
  destruct (urlparse_parts sch loc p q Hparts) as [-> _].
  apply any_contains_iff.
Qed.

Lemma domain_filter_reads_netloc_witness :
  url_parts "https" "shop.test@evil.example" "/shop.test" "at=shop.test" /\
  plain "https://shop.test@evil.example/shop.test?at=shop.test" = true /\
  (exists domain, In domain ["shop.test"] /\
                  occurs_in domain "shop.test@evil.example") /\
  Bee.in_allowed ["shop.test"]
    "https://shop.test@evil.example/shop.test?at=shop.test" = true /\
  hostname (urlparse "https://shop.test@evil.example/shop.test?at=shop.test")
  = Some "evil.example".
Proof.
  assert (Hparts : url_parts "https" "shop.test@evil.example" "/shop.test"
                     "at=shop.test").
  { split; [exists "h"%char, "ttps"; split; reflexivity|].
    split; [reflexivity|]. split; [repeat split; reflexivity|].
    split; [right; exists "shop.test"; reflexivity|].
    split; [repeat split; reflexivity | reflexivity]. }
  assert (Hin : exists domain, In domain ["shop.test"] /\
                               occurs_in domain "shop.test@evil.example").
  { exists "shop.test". split; [simpl; auto|].
    exists "", "@evil.example". reflexivity. }
  split; [exact Hparts|]. split; [reflexivity|]. split; [exact Hin|].
  split; [|reflexivity].
  apply (proj2 (domain_filter_reads_netloc ["shop.test"] "https"
                  "shop.test@evil.example" "/shop.test" "at=shop.test" Hparts
                  eq_refl)).
  exact Hin.
Defined.

(** When the configuration names no allowed domains, [run] takes the
    network location of the base URL for the only one.  The base URL, of
    printable ASCII without square brackets, is then inside its own
    domain; and when it has no network location, as one written without
    [//] has none, the only allowed domain is the empty string and the
    filter of [crawl_with_scrapingbee] lets every such link through. *)
Theorem default_domain (cfg : Processing.Config) (base_url : string)
    (Hnone : Processing.cfg_allowed_domains cfg = None)
    (Hplain : plain base_url = true) :
  Bee.in_allowed (Processing.allowed_domains cfg base_url) base_url = true /\
  (netloc (urlparse base_url) = "" ->
   forall links link,
     Forall (fun l => plain l = true) links ->
     (In link (Bee.filter_links (Processing.allowed_domains cfg base_url)
                 links)
      <-> In link links)).
Proof.
  unfold Processing.allowed_domains, Bee.in_allowed. rewrite Hnone.
  split.
  - simpl. now rewrite contains_self.
  - intros Hloc links link _. rewrite filter_links_iff.
    unfold Bee.in_allowed. rewrite Hloc. simpl. rewrite contains_empty.
    simpl. tauto.
Qed.

Lemma default_domain_witness :
  Processing.cfg_allowed_domains
    {| Processing.cfg_product_url_keywords := None;
       Processing.cfg_allowed_domains := None |} = None /\
  plain "shop.test/" = true /\
  netloc (urlparse "shop.test/") = "" /\
  Forall (fun l => plain l = true) ["https://other.test/product/9"] /\
  In "https://other.test/product/9"
    (Bee.filter_links
       (Processing.allowed_domains
          {| Processing.cfg_product_url_keywords := None;
             Processing.cfg_allowed_domains := None |} "shop.test/")
       ["https://other.test/product/9"]).
Proof.
  assert (Hlinks : Forall (fun l => plain l = true)
                     ["https://other.test/product/9"])
    by (constructor; [reflexivity | constructor]).
  split; [reflexivity|]. split; [reflexivity|]. split; [reflexivity|].
  split; [exact Hlinks|].
  apply (proj2 (default_domain
                  {| Processing.cfg_product_url_keywords := None;
                     Processing.cfg_allowed_domains := None |}
                  "shop.test/" eq_refl eq_refl) eq_refl
           ["https://other.test/product/9"] "https://other.test/product/9"
           Hlinks).
  simpl. auto.
Defined.

End ClassifierFacts.

(* ================================================================== *)
(** * Link extraction *)
(* ================================================================== *)

Section ExtractFacts.
Import Web Extract.

Variable canonical_url : string -> string -> Canonical.

Lemma collect_some (base_url : string) (anchor_tags : list string) :
  forall links result,
    collect canonical_url base_url anchor_tags links = Some result ->
    (forall u, In u result <->
               In u links \/
               exists href, In href anchor_tags /\
                            canonical_url base_url href = Resolved u) /\
    (NoDup links -> NoDup result) /\
    List.length result <= List.length links + List.length anchor_tags /\
    Forall (fun href => canonical_url base_url href <> Fails) anchor_tags.
Proof.
  induction anchor_tags as [|href rest IH]; intros links result H; simpl in H.
  - injection H as <-. split; [|split; [auto|split; [simpl; lia|constructor]]].
    intros u. split; [auto|]. intros [Hu|[href [[] _]]]. exact Hu.
  - destruct (canonical_url base_url href) as [url| |] eqn:Hc; [| |discriminate].
    + destruct (IH _ _ H) as [Hin [Hnd [Hlen Hall]]].
      split; [|split; [|split]].
      * intros u. rewrite Hin, add_iff. split.
        -- intros [[->|Hu]|[h [Hh Hr]]]; [right; exists href; simpl; auto
                                          | auto | right; exists h; simpl; auto].
        -- intros [Hu|[h [[<-|Hh] Hr]]]; [auto | | right; exists h; auto].
           rewrite Hc in Hr. injection Hr as ->. auto.
      * intros Hl. apply Hnd, add_NoDup, Hl.
      * assert (List.length (add url links) <= S (List.length links)).
        { unfold add. destruct (mem url links); [lia|].
          rewrite length_app. simpl. lia. }
        simpl. lia.
      * constructor; [congruence | exact Hall].
    + destruct (IH _ _ H) as [Hin [Hnd [Hlen Hall]]].
      split; [|split; [exact Hnd|split; [simpl; lia|]]].
      * intros u. rewrite Hin. split.
        -- intros [Hu|[h [Hh Hr]]]; [auto | right; exists h; simpl; auto].
        -- intros [Hu|[h [[<-|Hh] Hr]]]; [auto | congruence | right; exists h; auto].
      * constructor; [congruence | exact Hall].
Qed.

Lemma collect_none (base_url : string) (anchor_tags : list string) :
  forall links,
    collect canonical_url base_url anchor_tags links = None <->
    exists href, In href anchor_tags /\ canonical_url base_url href = Fails.
Proof.
  induction anchor_tags as [|href rest IH]; intros links; simpl.
  - split; [discriminate | intros [h [[] _]]].
  - destruct (canonical_url base_url href) as [url| |] eqn:Hc.
    + rewrite IH. split; intros [h [Hh Hf]]; [exists h; auto|].
      destruct Hh as [<-|Hh]; [congruence | exists h; auto].
    + rewrite IH. split; intros [h [Hh Hf]]; [exists h; auto|].
      destruct Hh as [<-|Hh]; [congruence | exists h; auto].
    + split; [intros _; exists href; auto | reflexivity].
Qed.

(** When no call of [canonical_url] raises, [_extract_links] returns the
    URLs that [canonical_url] makes of the [href] values of the page, each
    once and no more of them than there are anchor tags; an [href] for
    which [canonical_url] returns something falsy is left out. *)
Theorem extract_links_resolves_every_href (base_url : string) (html : Html)
    (anchor_tags : list string)
    (Hsoup : anchors html = Some anchor_tags)
    (Hfine : forall href, In href anchor_tags ->
                          canonical_url base_url href <> Fails) :
  (forall u, In u (_extract_links canonical_url base_url html) <->
             exists href, In href anchor_tags /\
                          canonical_url base_url href = Resolved u) /\
  NoDup (_extract_links canonical_url base_url html) /\
  List.length (_extract_links canonical_url base_url html)
  <= List.length anchor_tags.
Proof.
  unfold _extract_links, try_extract. rewrite Hsoup.
  destruct (collect canonical_url base_url anchor_tags []) as [result|] eqn:Hc.
  - destruct (collect_some _ _ _ _ Hc) as [Hin [Hnd [Hlen _]]].
    split; [|split; [apply Hnd; constructor | exact Hlen]].
    intros u. rewrite Hin. split; [intros [[]|H]; exact H | auto].
  - apply collect_none in Hc. destruct Hc as [h [Hh Hf]].
    destruct (Hfine h Hh Hf).
Qed.

(** One [href] on which [canonical_url] raises costs the page all of its
    links: the loop is inside the [try], whose handler returns the empty
    set, so the links collected before the raise are dropped as well.  A
    page that BeautifulSoup cannot parse gives the empty set too. *)
Theorem extract_links_all_or_nothing (base_url : string) (html : Html) :
  (anchors html = None \/
   exists anchor_tags href,
     anchors html = Some anchor_tags /\ In href anchor_tags /\
     canonical_url base_url href = Fails) ->
  _extract_links canonical_url base_url html = [].
Proof.
  unfold _extract_links, try_extract.
  intros [->|[tags [href [-> [Hin Hf]]]]]; [reflexivity|].
  assert (Hc : collect canonical_url base_url tags [] = None)
    by (apply collect_none; eauto).
  now rewrite Hc.
Qed.

End ExtractFacts.

(* ================================================================== *)
(** * main.py: the fetch of a product page and the processing phase *)
(* ================================================================== *)

Section FetchFacts.
Import Web Main.

Variable client : nat -> string -> ProxyParams -> Reply.

Lemma attempt_body_return (max_retries attempt : nat) (reply : Reply)
    (html : Html) :
  attempt_body max_retries attempt reply = AReturn html <->
  exists r, reply = Returns r /\ ok r = true /\ utf8 r = true /\
            body r = html.
Proof.
  unfold attempt_body. destruct reply as [r|].
  - destruct (ok r) eqn:Hok.
    + destruct (utf8 r) eqn:Hutf.
      * split; [intros H; injection H as <-; eauto|].
        intros [r' [Hr [_ [_ <-]]]]. now injection Hr as <-.
      * split; [discriminate|].
        intros [r' [Hr [_ [Hu _]]]]. injection Hr as <-. congruence.
    + split.
      * destruct (status_code r =? 503); [destruct (_ <? _)|]; discriminate.
      * intros [r' [Hr [Ho _]]]. injection Hr as <-. congruence.
  - split; [discriminate | intros [r [Hr _]]; discriminate].
Qed.

Lemma attempt_body_continue (max_retries attempt : nat) (reply : Reply) :
  attempt_body max_retries attempt reply = AContinue ->
  attempt < max_retries - 1.
Proof.
  unfold attempt_body. destruct reply as [r|]; [|discriminate].
  destruct (ok r); [destruct (utf8 r); discriminate|].
  destruct (status_code r =? 503); [|discriminate].
  destruct (attempt <? max_retries - 1) eqn:E; [|discriminate].
  intros _. now apply Nat.ltb_lt.
Qed.

(** The loop of [fetch_html_with_scrapingbee] from attempt [a] on, with
    [m] attempts to go. *)
Lemma fetch_loop_seq (max_retries : nat) (url : string) (m : nat) :
  forall a log,
    a + m = max_retries -> 1 <= m ->
    exists n,
      1 <= n <= m /\
      snd (fetch_loop client max_retries (seq a m) url log)
      = log ++ map (request url) (seq a n) /\
      (forall k html,
          k < n - 1 ->
          attempt_body max_retries (a + k)
            (client (List.length log + k) url (proxy_params url (a + k)))
          <> AReturn html) /\
      match fst (fetch_loop client max_retries (seq a m) url log) with
      | FetchReturned html =>
          attempt_body max_retries (a + (n - 1))
            (client (List.length log + (n - 1)) url
               (proxy_params url (a + (n - 1))))
          = AReturn html
      | FetchRaised =>
          n = m /\
          forall html,
            attempt_body max_retries (a + (n - 1))
              (client (List.length log + (n - 1)) url
                 (proxy_params url (a + (n - 1))))
            <> AReturn html
      | FetchNone => False
      end.
Proof.
  induction m as [|m IH]; intros a log Ha Hm; [lia|].
  cbn [seq fetch_loop].
  assert (Hnext : forall log',
            log' = log ++ [request url a] ->
            a <> max_retries - 1 ->
            (forall html,
                attempt_body max_retries a
                  (client (List.length log) url (proxy_params url a))
                <> AReturn html) ->
            exists n,
              1 <= n <= S m /\
              snd (fetch_loop client max_retries (seq (S a) m) url log')
              = log ++ map (request url) (seq a n) /\
              (forall k html,
                  k < n - 1 ->
                  attempt_body max_retries (a + k)
                    (client (List.length log + k) url
                       (proxy_params url (a + k)))
                  <> AReturn html) /\
              match fst (fetch_loop client max_retries (seq (S a) m) url log')
              with
              | FetchReturned html =>
                  attempt_body max_retries (a + (n - 1))
                    (client (List.length log + (n - 1)) url
                       (proxy_params url (a + (n - 1))))
                  = AReturn html
              | FetchRaised =>
                  n = S m /\
                  forall html,
                    attempt_body max_retries (a + (n - 1))
                      (client (List.length log + (n - 1)) url
                         (proxy_params url (a + (n - 1))))
                    <> AReturn html
              | FetchNone => False
              end).
  { intros log' -> Hne Hno.
    destruct (IH (S a) (log ++ [request url a])) as [n [Hn [Hlog [Hbefore Hout]]]];
      [lia | lia |].
    assert (Hlen : List.length (log ++ [request url a]) = S (List.length log))
      by (rewrite length_app; simpl; lia).
    rewrite Hlen in *.
    exists (S n). split; [lia|]. split.
    { rewrite Hlog. simpl. now rewrite <- app_assoc. }
    split.
    { intros k html Hk. destruct k as [|k].
      - rewrite !Nat.add_0_r. apply Hno.
      - replace (a + S k) with (S a + k) by lia.
        replace (List.length log + S k) with (S (List.length log) + k) by lia.
        apply Hbefore. lia. }
    replace (a + (S n - 1)) with (S a + (n - 1)) by lia.
    replace (List.length log + (S n - 1))
      with (S (List.length log) + (n - 1)) by lia.
    destruct (fst (fetch_loop client max_retries (seq (S a) m) url
                     (log ++ [request url a]))); auto.
    destruct Hout as [-> Hout]. auto. }
  destruct (attempt_body max_retries a
              (client (List.length log) url (proxy_params url a)))
    as [html| |] eqn:Hbody.
  - exists 1. simpl. rewrite !Nat.add_0_r.
    split; [lia|]. split; [reflexivity|]. split; [intros; lia | exact Hbody].
  - apply attempt_body_continue in Hbody.
    apply Hnext; [reflexivity | lia | intros html; discriminate].
  - destruct (a =? max_retries - 1) eqn:Hlast.
    + apply Nat.eqb_eq in Hlast.
      exists 1. simpl. rewrite !Nat.add_0_r.
      split; [lia|]. split; [reflexivity|]. split; [intros; lia|].
      split; [lia|]. intros html. rewrite Hbody. discriminate.
    + apply Nat.eqb_neq in Hlast.
      apply Hnext; [reflexivity | exact Hlast | intros html; discriminate].
Qed.

(** [fetch_html_with_scrapingbee] with at least one attempt allowed ends
    in a [return] or in a [raise], never by running out of the loop.  Its
    requests are attempts 0, 1, ... in this order; it returns the page of
    the first answer that is fine (a status outside 400..599 and bytes
    that decode), and it raises only when all [max_retries] attempts have
    been made and none was fine.  With [max_retries = 0] no request is
    made and [None] is returned. *)
Theorem fetch_html_outcome (url : string) (max_retries : nat)
    (log : list Request) :
  (max_retries = 0 ->
   fetch_html_with_scrapingbee client url max_retries log = (FetchNone, log)) /\
  (1 <= max_retries ->
   exists n,
     1 <= n <= max_retries /\
     snd (fetch_html_with_scrapingbee client url max_retries log)
     = log ++ map (request url) (seq 0 n) /\
     (forall k r,
         k < n - 1 ->
         client (List.length log + k) url (proxy_params url k) = Returns r ->
         andb (ok r) (utf8 r) = false) /\
     match fst (fetch_html_with_scrapingbee client url max_retries log) with
     | FetchReturned html =>
         exists r,
           client (List.length log + (n - 1)) url (proxy_params url (n - 1))
           = Returns r /\
           ok r = true /\ utf8 r = true /\ body r = html
     | FetchRaised =>
         n = max_retries /\
         forall r,
           client (List.length log + (n - 1)) url (proxy_params url (n - 1))
           = Returns r ->
           andb (ok r) (utf8 r) = false
     | FetchNone => False
     end).
Proof.
  split; [intros ->; reflexivity|].
  intros Hpos. unfold fetch_html_with_scrapingbee.
  destruct (fetch_loop_seq max_retries url max_retries 0 log)
    as [n [Hn [Hlog [Hbefore Hout]]]]; [lia | lia |].
  assert (Hnot : forall a reply,
            (forall html, attempt_body max_retries a reply <> AReturn html) ->
            forall r, reply = Returns r -> andb (ok r) (utf8 r) = false).
  { intros a reply Hno r ->.
    destruct (ok r) eqn:Hok; [|reflexivity].
    destruct (utf8 r) eqn:Hutf; [|reflexivity].
    exfalso. apply (Hno (body r)). apply attempt_body_return. eauto. }
  exists n. split; [exact Hn|]. split; [exact Hlog|]. split.
  - intros k r Hk. apply (Hnot k). intros html. apply (Hbefore k html Hk).
  - simpl in Hout.
    destruct (fst (fetch_loop client max_retries (seq 0 max_retries) url log)).
    + now apply attempt_body_return in Hout.
    + destruct Hout as [-> Hout]. split; [reflexivity|].
      apply (Hnot (max_retries - 1)). exact Hout.
    + exact Hout.
Qed.

(** A product page that never gives a fine answer makes
    [fetch_html_with_scrapingbee] raise after three requests. *)
Lemma fetch_html_gives_up (url : string) (log : list Request) :
  (forall n p r, client n url p = Returns r -> andb (ok r) (utf8 r) = false) ->
  fetch_html_with_scrapingbee client url 3 log
  = (FetchRaised, log ++ map (request url) (seq 0 3)).
Proof.
  intros Hfail. unfold fetch_html_with_scrapingbee.
  destruct (fetch_loop_seq 3 url 3 0 log) as [n [Hn [Hlog [_ Hout]]]];
    [lia | lia |].
  destruct (fetch_loop client 3 (seq 0 3) url log) as [out log'].
  cbn [fst snd] in *. destruct out as [html| |].
  - apply attempt_body_return in Hout.
    destruct Hout as [r [Hr [Hok [Hutf _]]]].
    apply Hfail in Hr. rewrite Hok, Hutf in Hr. discriminate.
  - destruct Hout as [-> _]. now rewrite Hlog.
  - destruct Hout.
Qed.

End FetchFacts.

Section SortFacts.
Import Processing.

Lemma ltb_of_leb (x y : string) :
  String.leb x y = true -> x <> y -> String.ltb x y = true.
Proof.
  unfold String.leb, String.ltb. intros Hle Hne.
  destruct (String.compare x y) eqn:Hc; [|reflexivity|discriminate].
  apply String.compare_eq_iff in Hc. contradiction.
Qed.

Lemma ltb_of_not_leb (x y : string) :
  String.leb x y = false -> String.ltb y x = true.
Proof.
  unfold String.leb, String.ltb. rewrite (String.compare_antisym x y).
  destruct (String.compare y x); simpl; congruence.
Qed.

Lemma insert_In (x y : string) (l : list string) :
  In y (insert x l) <-> y = x \/ In y l.
Proof.
  induction l as [|z l IH]; simpl; [intuition|].
  destruct (String.leb x z); simpl; [intuition|].
  rewrite IH. intuition.
Qed.

Lemma sorted_In (y : string) (l : list string) : In y (sorted l) <-> In y l.
Proof.
  induction l as [|x l IH]; simpl; [tauto|].
  rewrite insert_In, IH. intuition.
Qed.

Lemma insert_NoDup (x : string) (l : list string) :
  ~ In x l -> NoDup l -> NoDup (insert x l).
Proof.
  induction l as [|z l IH]; simpl; intros Hx Hl.
  - constructor; [auto | constructor].
  - destruct (String.leb x z).
    + constructor; [simpl; tauto | exact Hl].
    + inversion Hl as [|? ? Hz Hl']. subst.
      constructor; [|apply IH; tauto].
      rewrite insert_In. intros [->|H]; tauto.
Qed.

Lemma sorted_NoDup (l : list string) : NoDup l -> NoDup (sorted l).
Proof.
  induction l as [|x l IH]; simpl; intros H; [constructor|].
  inversion H as [|? ? Hx Hl]. subst.
  apply insert_NoDup; [now rewrite sorted_In | auto].
Qed.

Lemma ascending_cons (y : string) (l : list string) :
  ascending (y :: l) = true <->
  ascending l = true /\
  match l with [] => True | z :: _ => String.ltb y z = true end.
Proof.
  destruct l as [|z l]; [simpl; tauto|].
  cbn [ascending]. rewrite andb_true_iff. tauto.
Qed.

Lemma insert_ascending (x : string) (l : list string) :
  ~ In x l -> ascending l = true -> ascending (insert x l) = true.
Proof.
  induction l as [|z l IH]; intros Hx Hl; [reflexivity|].
  cbn [insert]. destruct (String.leb x z) eqn:Hle.
  - apply ascending_cons. split; [exact Hl|].
    apply ltb_of_leb; [exact Hle|]. intros ->. apply Hx. simpl. auto.
  - apply ascending_cons in Hl. destruct Hl as [Hl Hhead].
    apply ascending_cons. split; [apply IH; [simpl in Hx; tauto | exact Hl]|].
    destruct l as [|w l]; cbn [insert].
    + now apply ltb_of_not_leb.
    + destruct (String.leb x w); [now apply ltb_of_not_leb | exact Hhead].
Qed.

Lemma sorted_ascending (l : list string) :
  NoDup l -> ascending (sorted l) = true.
Proof.
  induction l as [|x l IH]; simpl; intros H; [reflexivity|].
  inversion H as [|? ? Hx Hl]. subst.
  apply insert_ascending; [now rewrite sorted_In | auto].
Qed.

Lemma product_list_members (found : list string) (base_url : string) :
  product_list found base_url <> [] /\
  (found <> [] ->
   forall u, In u (product_list found base_url) <-> In u found) /\
  (found = [] -> product_list found base_url = [base_url]).
Proof.
  unfold product_list.
  assert (Hin : forall u, In u (sorted (nodup string_dec found)) <-> In u found).
  { intros u. now rewrite sorted_In, nodup_In. }
  destruct (sorted (nodup string_dec found)) as [|x l] eqn:Hs.
  - split; [discriminate|]. split; [|reflexivity].
    intros Hne. destruct found as [|f found]; [congruence|].
    destruct (proj2 (Hin f)); simpl; auto.
  - split; [discriminate|]. split; [intros _; exact Hin|].
    intros ->. discriminate.
Qed.

(** The list of URLs that the processing phase of [run] goes through is
    never empty, holds no URL twice and is in strictly ascending order;
    it holds exactly the product URLs that the crawl returned, and the
    base URL alone when the crawl returned none. *)
Theorem product_list_ascending (found : list string) (base_url : string) :
  product_list found base_url <> [] /\
  NoDup (product_list found base_url) /\
  ascending (product_list found base_url) = true /\
  (found <> [] ->
   forall u, In u (product_list found base_url) <-> In u found) /\
  (found = [] -> product_list found base_url = [base_url]).
Proof.
  unfold product_list.
  pose proof (sorted_NoDup _ (NoDup_nodup string_dec found)) as Hnd.
  pose proof (sorted_ascending _ (NoDup_nodup string_dec found)) as Hasc.
  assert (Hin : forall u, In u (sorted (nodup string_dec found)) <-> In u found).
  { intros u. now rewrite sorted_In, nodup_In. }
  destruct (sorted (nodup string_dec found)) as [|x l] eqn:Hs.
  - split; [discriminate|]. split; [constructor; [simpl; tauto|constructor]|].
    split; [reflexivity|]. split; [|reflexivity].
    intros Hne. destruct found as [|f found]; [congruence|].
    destruct (proj2 (Hin f)); simpl; auto.
  - split; [discriminate|]. split; [exact Hnd|]. split; [exact Hasc|].
    split; [intros _; exact Hin|].
    intros ->. discriminate.
Qed.

End SortFacts.

Section ProcessingFacts.
Import Web Extract Main Processing.

Variable client : nat -> string -> ProxyParams -> Reply.
Variable finish :
  string -> option Html -> list Request -> option string * list Request.

(** The retries of [process_product] stand around those of
    [fetch_html_with_scrapingbee]: a product page that never gives a fine
    answer is requested nine times, three rounds of attempts 0, 1 and 2,
    before [process_product] raises; nothing is parsed or downloaded on
    the way. *)
Theorem process_product_ninefold (url : string) (log : list Request)
    (Hfail : forall n p r,
        client n url p = Returns r -> andb (ok r) (utf8 r) = false) :
  process_product client finish url log
  = (ProductRaised,
     log ++ [request url 0; request url 1; request url 2]
         ++ [request url 0; request url 1; request url 2]
         ++ [request url 0; request url 1; request url 2]).
Proof.
  unfold process_product. cbn [seq process_loop].
  rewrite !(fetch_html_gives_up client url _ Hfail).
  simpl. now rewrite <- !app_assoc.
Qed.

Lemma process_loop_returns (url : string) (m : nat) :
  forall a log,
    a + m = 3 -> 1 <= m ->
    fst (process_loop client finish 3 (seq a m) url log) <> ProductNone.
Proof.
  induction m as [|m IH]; intros a log Ha Hm; [lia|].
  cbn [seq process_loop].
  destruct (match fetch_html_with_scrapingbee client url 3 log with
            | (FetchReturned html, log1) => finish url (Some html) log1
            | (FetchRaised, log1) => (None, log1)
            | (FetchNone, log1) => finish url None log1
            end) as [slug log'].
  destruct slug as [slug|]; [discriminate|].
  destruct (a =? 3 - 1) eqn:Hlast; [discriminate|].
  apply Nat.eqb_neq in Hlast. apply IH; lia.
Qed.

Lemma process_all_items (product_urls : list string) :
  forall log results,
    map item_url (fst (process_all client finish product_urls log results))
    = map item_url results ++ product_urls /\
    (Forall (fun it => item_result it <> ProductNone) results ->
     Forall (fun it => item_result it <> ProductNone)
       (fst (process_all client finish product_urls log results))).
Proof.
  induction product_urls as [|url rest IH]; intros log results; simpl.
  - rewrite app_nil_r. auto.
  - destruct (process_product client finish url log) as [outcome log'] eqn:Hp.
    destruct (IH log' (results ++ [{| item_url := url;
                                      item_result := outcome |}]))
      as [Hmap Hall].
    split.
    + rewrite Hmap, map_app. simpl. now rewrite <- app_assoc.
    + intros Hres. apply Hall. apply Forall_app. split; [exact Hres|].
      constructor; [|constructor]. simpl.
      pose proof (process_loop_returns url 3 0 log eq_refl) as Hne.
      unfold process_product in Hp. rewrite Hp in Hne. apply Hne. lia.
Qed.

Variable canonical_url : string -> string -> Canonical.
Variable pick : Bee.State -> nat.

(** With the key set, a base URL of printable ASCII without square
    brackets and pages whose links are of that kind, [run] comes to its
    summary, given fuel for the 100 turns that the crawl may take: the
    summary has one item for each URL of the list that the processing
    phase goes through, in the order of the list, whether
    [process_product] returned a slug for the URL or raised; its count is
    the length of that list and so at least one.  Each URL that is
    processed is the base URL or a URL that holds a keyword and has an
    allowed domain somewhere in its network location, user information
    and port included. *)
Theorem run_summary (api_key : option string) (cfg : Config)
    (base_url : string) (Hkey : truthy api_key = true)
    (Hbase : Plain.plain base_url = true)
    (Hlinks : forall n u p r l,
        client n u p = Returns r ->
        In l (_extract_links canonical_url base_url (body r)) ->
        Plain.plain l = true) :
  exists final count items log,
    Bee.crawl_with_scrapingbee canonical_url client pick base_url
      (allowed_domains cfg base_url) (keywords cfg) 100 100 = Some final /\
    run client finish canonical_url pick api_key cfg base_url 100
    = Some (Summary count items log) /\
    map item_url items = product_list (Bee.product_urls final) base_url /\
    count = List.length (product_list (Bee.product_urls final) base_url) /\
    1 <= count /\
    Forall (fun it => item_result it <> ProductNone) items /\
    Forall (fun it =>
              item_url it = base_url \/
              (Classify._is_product_url (item_url it) (keywords cfg) = true /\
               Bee.in_allowed (allowed_domains cfg base_url) (item_url it)
               = true)) items.
Proof.
  destruct (crawl_loop_total canonical_url client pick base_url
              (allowed_domains cfg base_url) (keywords cfg) 100 100
              (Bee.init base_url) (bee_init_inv _ _ _ _))
    as [final [Hf [Hinv _]]]; [simpl; lia|].
  unfold run. rewrite Hkey. cbn [negb].
  unfold Bee.crawl_with_scrapingbee. rewrite Hf.
  destruct (process_all_items
              (product_list (Bee.product_urls final) base_url)
              (Bee.requests final) []) as [Hmap Hall].
  destruct (process_all client finish
              (product_list (Bee.product_urls final) base_url)
              (Bee.requests final) []) as [results log].
  simpl in Hmap, Hall.
  exists final, (List.length results), results, log.
  split; [reflexivity|]. split; [reflexivity|]. split; [exact Hmap|].
  assert (Hlen : List.length results
                 = List.length (product_list (Bee.product_urls final) base_url)).
  { rewrite <- Hmap. now rewrite length_map. }
  split; [exact Hlen|]. split.
  - rewrite Hlen.
    destruct (product_list_members (Bee.product_urls final) base_url)
      as [Hne _].
    destruct (product_list (Bee.product_urls final) base_url);
      [congruence | simpl; lia].
  - split; [apply Hall; constructor|].
    apply Forall_forall. intros it Hit.
    assert (Hu : In (item_url it)
                   (product_list (Bee.product_urls final) base_url))
      by (rewrite <- Hmap; now apply in_map).
    destruct (product_list_members (Bee.product_urls final) base_url)
      as [_ [Hsome Hnone]].
    destruct (Bee.product_urls final) as [|p l] eqn:Hp.
    + rewrite Hnone in Hu by reflexivity. destruct Hu as [<-|[]]. auto.
    + right. apply Hsome in Hu; [|discriminate]. rewrite <- Hp in Hu.
      destruct (Bee.inv_products _ _ _ _ _ _ Hinv _ Hu). auto.
Qed.

End ProcessingFacts.

(* ================================================================== *)
(** * The queue-based crawl: what it reaches and what it returns *)
(* ================================================================== *)

Section QueueFacts.
Import PyStr Urllib Classify Web Extract Frontier Explore.

Variable canonical_url : string -> string -> Canonical.
Variable is_same_domain : string -> list string -> bool.
Variable api_key : option string.
Variable site : string -> Reply.
Variable base_url : string.
Variable allowed_domains product_url_keywords : list string.
Variable concurrency max_pages : nat.

Local Abbreviation Inv :=
  (Frontier.Inv is_same_domain api_key allowed_domains product_url_keywords
     concurrency).
Local Abbreviation found_link :=
  (Frontier.found_link is_same_domain allowed_domains product_url_keywords).
Local Abbreviation after_fetch :=
  (Frontier.after_fetch canonical_url is_same_domain allowed_domains
     product_url_keywords max_pages).
Local Abbreviation worker_step :=
  (Frontier.worker_step canonical_url is_same_domain api_key site
     allowed_domains product_url_keywords max_pages).
Local Abbreviation reachable :=
  (Frontier.reachable canonical_url is_same_domain api_key site base_url
     allowed_domains product_url_keywords concurrency max_pages).
Local Abbreviation crawl :=
  (Frontier.crawl canonical_url is_same_domain api_key site base_url
     allowed_domains product_url_keywords concurrency max_pages).
Local Abbreviation page_links := (Frontier.page_links canonical_url site).
Local Abbreviation linked :=
  (Explore.linked canonical_url is_same_domain site base_url allowed_domains).
Local Abbreviation Explored :=
  (Explore.Explored canonical_url is_same_domain site base_url
     allowed_domains).
Local Abbreviation Within := (Explore.Within max_pages).

Lemma update_keep {A : Type} (i : nat) (x w w0 : A) (l : list A) :
  nth_error l i = Some w0 -> w <> w0 -> In w l -> In w (update i x l).
Proof.
  revert i; induction l as [|h t IH]; intros i Hn Hne Hin; [destruct Hin|].
  destruct i as [|i]; simpl in *.
  - injection Hn as ->. destruct Hin as [<-|Hin]; [congruence | auto].
  - destruct Hin as [<-|Hin]; [auto | right; eapply IH; eauto].
Qed.

Lemma spent_le (l : list Worker) : list_sum (map spent l) <= List.length l.
Proof.
  induction l as [|w l IH]; simpl; [lia|]. destruct w; simpl; lia.
Qed.

Lemma found_link_seen (st : State) (link : string) :
  seen (found_link st link) = seen st.
Proof.
  unfold Frontier.found_link. now destruct (andb _ _).
Qed.

Lemma found_seen (links : list string) :
  forall st, seen (fold_left found_link links st) = seen st.
Proof.
  induction links as [|l links IH]; intros st; simpl; [reflexivity|].
  now rewrite IH, found_link_seen.
Qed.

(** What [for link in _extract_links(url, html)] leaves in the queue. *)
Lemma found_queue (links : list string) :
  forall st u,
    In u (to_visit (fold_left found_link links st)) <->
    In u (to_visit st) \/
    (In u links /\ ~ In u (seen st) /\
     is_same_domain u allowed_domains = true).
Proof.
  induction links as [|l links IH]; intros st u; simpl.
  - tauto.
  - rewrite IH, found_link_seen. unfold Frontier.found_link.
    destruct (mem l (seen st)) eqn:Hm; simpl.
    + apply mem_iff in Hm. split; [tauto|].
      intros [H|[[<-|H] [Hs Hd]]]; tauto.
    + apply mem_false_iff in Hm.
      destruct (is_same_domain l allowed_domains) eqn:Hd; simpl.
      * rewrite in_app_iff. simpl. split.
        -- intros [[H|[<-|[]]]|H]; tauto.
        -- intros [H|[[<-|H] [Hs Hd']]]; tauto.
      * split; [tauto|].
        intros [H|[[<-|H] [Hs Hd']]]; [tauto | congruence | tauto].
Qed.

Lemma found_candidates (links : list string) :
  forall st c,
    In c (product_candidates (fold_left found_link links st)) ->
    In c (product_candidates st) \/
    (In c links /\ ~ In c (seen st) /\
     is_same_domain c allowed_domains = true).
Proof.
  induction links as [|l links IH]; intros st c; simpl; [tauto|].
  intros H. apply IH in H. rewrite found_link_seen in H.
  destruct H as [H|H]; [|tauto].
  unfold Frontier.found_link in H.
  destruct (mem l (seen st)) eqn:Hm; simpl in H; [tauto|].
  apply mem_false_iff in Hm.
  destruct (is_same_domain l allowed_domains) eqn:Hd; simpl in H; [|tauto].
  destruct (_looks_like_product_url l product_url_keywords); [|tauto].
  apply add_iff in H. destruct H as [->|H]; tauto.
Qed.

Lemma found_frame (links : list string) :
  forall st,
    workers (fold_left found_link links st) = workers st /\
    requests (fold_left found_link links st) = requests st.
Proof.
  intros st.
  pose proof (puts_fold is_same_domain allowed_domains product_url_keywords
                links st) as HP.
  split; [apply (puts_workers _ _ _ _ _ _ HP)
         | apply (puts_requests _ _ _ _ _ _ HP)].
Qed.

(** The answer to the request for [url] is handled by putting the links of
    the page into the queue. *)
Lemma after_fetch_page (i : nat) (url : string) (st : State) :
  after_fetch i url (fetch_result (site url)) st =
  set_worker i
    (if max_pages <=? List.length (seen st) then Exited else AtGet)
    (task_done (fold_left found_link (page_links url)
                  (with_sem (S (sem st)) st))).
Proof.
  unfold Frontier.after_fetch, Frontier.page_links.
  assert (Hseen : forall links,
            seen (task_done (fold_left found_link links
                               (with_sem (S (sem st)) st))) = seen st).
  { intros links. simpl. now rewrite found_seen. }
  destruct (fetch_result (site url)) as [h|]; [destruct (nonempty h)|];
    try rewrite Hseen; simpl; now destruct (max_pages <=? _).
Qed.

Lemma explored_init : Explored (Frontier.init base_url concurrency).
Proof.
  constructor; simpl.
  - auto.
  - intros u [[]|[<-|[]]]. constructor.
  - intros u Hu. apply repeat_spec in Hu. discriminate.
  - intros u [].
  - intros u [].
  - intros c [].
Qed.

Section WithKey.

Hypothesis Hkey : truthy api_key = true.

Lemma explored_step (i : nat) (st st' : State) :
  Inv 0 st -> Explored st -> worker_step i st = Some st' -> Explored st'.
Proof.
  intros Hinv He Hstep.
  destruct He as [Hbase Hlinked Hfetching Hrequested Hlinks Hcand].
  destruct (worker_step_cases _ _ _ _ _ _ _ _ _ _ _ Hinv Hstep)
    as [[url [rest [Hw [Hq Hcase]]]]|[url [Hw ->]]].
  - assert (Hurl : linked url) by (apply Hlinked; right; rewrite Hq; simpl; auto).
    destruct Hcase as [[Hseen ->]|[[Hnew [Hdom ->]]|[Hnew [Hdom [Hsem ->]]]]].
    + (* the URL was seen before *)
      constructor; simpl.
      * destruct Hbase as [H|[H _]]; [auto | rewrite H in Hseen; destruct Hseen].
      * intros u [H|H]; apply Hlinked; [auto | right; rewrite Hq; simpl; auto].
      * exact Hfetching.
      * exact Hrequested.
      * intros u Hu Hd. destruct (Hlinks u Hu Hd) as [H|H]; [auto|].
        right. intros link Hl Hld. destruct (H link Hl Hld) as [H'|H']; [auto|].
        rewrite Hq in H'. destruct H' as [<-|H']; auto.
      * intros c Hc. destruct (Hcand c Hc) as [Hne [H|H]]; split; auto.
        rewrite Hq in H. destruct H as [<-|H]; auto.
    + (* a new URL outside the allowed domains *)
      constructor; simpl.
      * left. apply add_iff.
        destruct Hbase as [H|[_ H]]; [auto|].
        rewrite H in Hq. injection Hq as <- _. auto.
      * intros u [H|H].
        -- apply add_iff in H. destruct H as [->|H]; [exact Hurl | auto].
        -- apply Hlinked. right. rewrite Hq. simpl. auto.
      * intros u Hu. destruct (Hfetching u Hu) as [H1 H2].
        split; [apply add_iff; auto | exact H2].
      * intros u Hu Hd. apply add_iff in Hu.
        destruct Hu as [->|Hu]; [congruence | auto].
      * intros u Hu Hd. apply add_iff in Hu.
        destruct Hu as [->|Hu]; [congruence|].
        destruct (Hlinks u Hu Hd) as [H|H]; [auto|].
        right. intros link Hl Hld. rewrite add_iff.
        destruct (H link Hl Hld) as [H'|H']; [auto|].
        rewrite Hq in H'. destruct H' as [<-|H']; auto.
      * intros c Hc. destruct (Hcand c Hc) as [Hne [H|H]];
          (split; [exact Hne|]); rewrite add_iff; [auto|].
        rewrite Hq in H. destruct H as [<-|H]; auto.
    + (* a new URL inside: the request goes out *)
      unfold Frontier.start_fetch. rewrite Hkey.
      assert (Hi : i < List.length (workers st))
        by (apply nth_error_Some; congruence).
      constructor; simpl.
      * left. apply add_iff.
        destruct Hbase as [H|[_ H]]; [auto|].
        rewrite H in Hq. injection Hq as <- _. auto.
      * intros u [H|H].
        -- apply add_iff in H. destruct H as [->|H]; [exact Hurl | auto].
        -- apply Hlinked. right. rewrite Hq. simpl. auto.
      * intros u Hu. apply update_In in Hu. rewrite add_iff.
        destruct Hu as [Hu|Hu]; [injection Hu as ->; auto|].
        destruct (Hfetching u Hu). auto.
      * intros u Hu Hd. apply add_iff in Hu. rewrite in_app_iff. simpl.
        destruct Hu as [->|Hu]; auto.
      * intros u Hu Hd. apply add_iff in Hu.
        destruct Hu as [->|Hu]; [left; now apply update_In_new|].
        destruct (Hlinks u Hu Hd) as [H|H].
        -- left. eapply update_keep; [exact Hw | discriminate | exact H].
        -- right. intros link Hl Hld. rewrite add_iff.
           destruct (H link Hl Hld) as [H'|H']; [auto|].
           rewrite Hq in H'. destruct H' as [<-|H']; auto.
      * intros c Hc. destruct (Hcand c Hc) as [Hne [H|H]];
          (split; [exact Hne|]); rewrite add_iff; [auto|].
        rewrite Hq in H. destruct H as [<-|H]; auto.
  - (* the answer to a request *)
    rewrite after_fetch_page.
    assert (Hin : In (Fetching url) (workers st))
      by (eapply nth_error_In; eauto).
    destruct (Hfetching url Hin) as [Hseen Hdom].
    assert (Hb : In base_url (seen st)).
    { destruct Hbase as [H|[H _]]; [auto | rewrite H in Hseen; destruct Hseen]. }
    set (st1 := with_sem (S (sem st)) st).
    destruct (found_frame (page_links url) st1) as [Hws Hrq].
    assert (Hworker : forall u w,
              w = Exited \/ w = AtGet ->
              In (Fetching u) (update i w (workers st)) ->
              In (Fetching u) (workers st)).
    { intros u w Hw' Hu. apply update_In in Hu.
      destruct Hu as [Hu|Hu]; [|exact Hu].
      destruct Hw' as [->| ->]; discriminate. }
    assert (Hww : (if max_pages <=? List.length (seen st) then Exited else AtGet)
                  = Exited \/
                  (if max_pages <=? List.length (seen st) then Exited else AtGet)
                  = AtGet)
      by (destruct (max_pages <=? _); auto).
    constructor; simpl; rewrite ?found_seen, ?Hws, ?Hrq; simpl.
    + auto.
    + intros u [H|H]; [auto|].
      apply found_queue in H. simpl in H.
      destruct H as [H|[Hl [_ Hd]]]; [auto|].
      apply Explore.linked_page with (u := url); auto.
    + intros u Hu. apply Hfetching. eapply Hworker; eauto.
    + exact Hrequested.
    + intros u Hu Hd. destruct (string_dec u url) as [->|Hne].
      * right. intros link Hl Hld.
        destruct (in_dec string_dec link (seen st)) as [Hs|Hs]; [auto|].
        right. apply found_queue. simpl. auto.
      * destruct (Hlinks u Hu Hd) as [H|H].
        -- left. eapply update_keep; [exact Hw | congruence | exact H].
        -- right. intros link Hl Hld.
           destruct (H link Hl Hld) as [H'|H']; [auto|].
           right. apply found_queue. simpl. auto.
    + intros c Hc. apply found_candidates in Hc. simpl in Hc.
      destruct Hc as [Hc|[Hl [Hs Hd]]].
      * destruct (Hcand c Hc) as [Hne [H|H]]; (split; [exact Hne|]); [auto|].
        right. apply found_queue. simpl. auto.
      * split; [intros ->; auto|].
        right. apply found_queue. simpl. auto.
Qed.

Lemma reachable_explored (st : State) : reachable st -> Explored st.
Proof.
  induction 1 as [|st st' Hr IH [i Hstep]]; [apply explored_init|].
  eapply explored_step; eauto. eapply pool_reachable_inv; eauto.
Qed.

(** When [join] returns, every URL that the crawl can come to has been
    seen, and those inside the allowed domains have been requested. *)
Lemma returned_all_linked (st : State) :
  reachable st -> unfinished st = 0 ->
  forall u, linked u ->
            In u (seen st) /\
            (is_same_domain u allowed_domains = true -> In u (requests st)).
Proof.
  intros Hr Hdone.
  pose proof (pool_reachable_inv _ _ _ _ _ _ _ _ _ st Hr) as Hinv.
  pose proof (reachable_explored st Hr) as He.
  pose proof (Frontier.inv_unfinished _ _ _ _ _ _ _ Hinv) as Hu.
  assert (Hq : to_visit st = [])
    by (destruct (to_visit st); [reflexivity | simpl in Hu; lia]).
  assert (Hf : fetching (workers st) = 0) by lia.
  assert (Hseen : forall u, linked u -> In u (seen st)).
  { induction 1 as [|u link Hl IH Hd Hin Hld].
    - destruct (exp_base _ _ _ _ _ _ He) as [H|[_ H]]; [exact H|].
      rewrite Hq in H. discriminate.
    - destruct (exp_links _ _ _ _ _ _ He u IH Hd) as [H|H].
      + destruct (fetching_none _ u Hf H).
      + destruct (H link Hin Hld) as [H'|H']; [exact H'|].
        rewrite Hq in H'. destruct H'. }
  intros u Hl. split; [auto|].
  intros Hd. apply (exp_requested _ _ _ _ _ _ He); auto.
Qed.

End WithKey.

Lemma within_step (i : nat) (st st' : State) :
  Inv 0 st -> Within st -> worker_step i st = Some st' -> Within st'.
Proof.
  unfold Explore.Within. intros Hinv Hin Hstep.
  assert (Hfew : List.length (requests st) <= List.length (seen st)).
  { apply NoDup_incl_length.
    - apply (Frontier.inv_nodup_requests _ _ _ _ _ _ _ Hinv).
    - intros u Hu.
      apply (Frontier.inv_requests _ _ _ _ _ _ _ Hinv u Hu). }
  assert (Hafter : forall url html s w0,
            nth_error (workers s) i = Some w0 ->
            requests s = requests st ->
            List.length (seen st) <= List.length (seen s) ->
            List.length (requests st) + spent w0
            <= max_pages - 1 + list_sum (map spent (workers s)) + 1 ->
            List.length (requests (after_fetch i url html s))
            <= max_pages - 1
               + list_sum (map spent (workers (after_fetch i url html s)))).
  { intros url html s w0 Hw0 Hrq Hseen Hle.
    destruct (after_fetch_spec canonical_url is_same_domain allowed_domains
                product_url_keywords max_pages i url html s)
      as [links [st2 [_ [HP ->]]]].
    simpl.
    rewrite (puts_requests _ _ _ _ _ _ HP), (puts_workers _ _ _ _ _ _ HP).
    simpl. rewrite Hrq.
    pose proof (update_sum spent i
                  (if max_pages <=? List.length (seen s) then Exited else AtGet)
                  w0 (workers s) Hw0) as Hsum.
    destruct (max_pages <=? List.length (seen s)) eqn:Hb; simpl in Hsum.
    - lia.
    - apply Nat.leb_gt in Hb. lia. }
  destruct (worker_step_cases _ _ _ _ _ _ _ _ _ _ _ Hinv Hstep)
    as [[url [rest [Hw [Hq Hcase]]]]|[url [Hw ->]]].
  - destruct Hcase as [[Hseen ->]|[[Hnew [Hdom ->]]|[Hnew [Hdom [Hsem ->]]]]];
      [exact Hin | exact Hin |].
    unfold Frontier.start_fetch. destruct (truthy api_key).
    + simpl. rewrite length_app. simpl.
      pose proof (update_sum spent i (Fetching url) AtGet (workers st) Hw)
        as Hsum. simpl in Hsum. lia.
    + apply (Hafter url None _ AtGet); simpl; auto.
      * unfold add. destruct (mem url (seen st)); [lia|].
        rewrite length_app. lia.
      * lia.
  - apply (Hafter url _ st (Fetching url)); simpl; auto.
    assert (Hpos : 1 <= list_sum (map spent (workers st))).
    { pose proof (update_sum spent i AtGet (Fetching url) (workers st) Hw)
        as Hsum. simpl in Hsum. lia. }
    lia.
Qed.

Lemma reachable_within (st : State) : reachable st -> Within st.
Proof.
  induction 1 as [|st st' Hr IH [i Hstep]].
  - unfold Explore.Within. simpl. lia.
  - eapply within_step; eauto. eapply pool_reachable_inv; eauto.
Qed.


(** The semaphore of the queue-based crawl never holds a worker back:
    there are as many permits as workers, so in every state the free
    permits and the requests under way add up to [concurrency], a worker
    that reaches [async with sem] finds a permit free, and no worker is
    ever found waiting for one.  The requests under way are at most
    [concurrency]. *)
Theorem semaphore_never_waits (st : State) (Hst : reachable st) :
  sem st + fetching (workers st) = concurrency /\
  fetching (workers st) <= concurrency /\
  (forall url, ~ In (WaitSem url) (workers st)) /\
  (forall i, nth_error (workers st) i = Some AtGet -> 0 < sem st).
Proof.
  pose proof (pool_reachable_inv _ _ _ _ _ _ _ _ _ st Hst) as Hinv.
  pose proof (Frontier.inv_sem _ _ _ _ _ _ _ Hinv) as Hs.
  pose proof (Frontier.inv_workers _ _ _ _ _ _ _ Hinv) as Hw.
  split; [lia|]. split; [lia|].
  split; [apply (Frontier.inv_no_wait _ _ _ _ _ _ _ Hinv)|].
  intros i Hi.
  pose proof (fetching_lt i AtGet (workers st) Hi eq_refl). lia.
Qed.

(** The page budget of the queue-based crawl is tested by each worker
    after its own page, so it can be overrun, but by fewer pages than
    there are workers: in every state the requests sent number at most
    [max_pages - 1 + concurrency]. *)
Theorem queue_budget_overrun (st : State) (Hst : reachable st) :
  List.length (requests st) <= max_pages - 1 + concurrency.
Proof.
  pose proof (reachable_within st Hst) as Hin. unfold Explore.Within in Hin.
  pose proof (pool_reachable_inv _ _ _ _ _ _ _ _ _ st Hst) as Hinv.
  pose proof (Frontier.inv_workers _ _ _ _ _ _ _ Hinv) as Hw.
  pose proof (spent_le (workers st)) as Hspent.
  rewrite Hw in Hspent. lia.
Qed.


(** When the queue-based crawl returns, with the key set, it has seen
    exactly the URLs that can be come to from the base URL, and it has
    sent one request, and no more, for each of them that lies in the
    allowed domains: no page within reach is left out. *)
Theorem queue_fetches_linked_pages (Hkey : truthy api_key = true)
    (fuel : nat) (sched : nat -> nat) (urls : list string)
    (Hrun : crawl fuel sched = Returned urls) :
  exists final,
    reachable final /\ unfinished final = 0 /\
    product_candidates final = urls /\
    NoDup (requests final) /\
    (forall u, In u (requests final) <->
               linked u /\ is_same_domain u allowed_domains = true) /\
    (forall u, In u (seen final) <-> linked u).
Proof.
  destruct (run_result canonical_url is_same_domain api_key site base_url
              allowed_domains product_url_keywords concurrency max_pages
              sched fuel 0 _ urls (Frontier.reach_init _ _ _ _ _ _ _ _ _) Hrun)
    as [_ [final [Hr [Hdone ->]]]].
  pose proof (pool_reachable_inv _ _ _ _ _ _ _ _ _ final Hr) as Hinv.
  pose proof (reachable_explored Hkey final Hr) as He.
  exists final. split; [exact Hr|]. split; [exact Hdone|].
  split; [reflexivity|].
  split; [apply (Frontier.inv_nodup_requests _ _ _ _ _ _ _ Hinv)|].
  split; intros u; split.
  - intros Hu.
    destruct (Frontier.inv_requests _ _ _ _ _ _ _ Hinv u Hu) as [Hs Hd].
    split; [apply (exp_linked _ _ _ _ _ _ He u (or_introl Hs)) | exact Hd].
  - intros [Hl Hd].
    now apply (returned_all_linked Hkey final Hr Hdone u Hl).
  - intros Hs. apply (exp_linked _ _ _ _ _ _ He u (or_introl Hs)).
  - intros Hl. now apply (returned_all_linked Hkey final Hr Hdone u Hl).
Qed.

(** The count on which [join] waits is kept exactly as long as the links
    on the pages that were requested are of printable ASCII without
    square brackets, so that no worker has been ended by a [urlparse]
    that raises: in every such state the count is the number of URLs in
    the queue plus the number of requests under way, and [join] returns
    when, and only when, the queue is empty and no worker is busy with a
    page. *)
Theorem join_accounting (st : State) (Hst : reachable st)
    (Hplain : forall u link,
        In u (requests st) -> In link (page_links u) ->
        Plain.plain link = true) :
  unfinished st = List.length (to_visit st) + fetching (workers st) /\
  (unfinished st = 0 <->
   to_visit st = [] /\ forall u, ~ In (Fetching u) (workers st)).
Proof.
  pose proof (pool_reachable_inv _ _ _ _ _ _ _ _ _ st Hst) as Hinv.
  pose proof (Frontier.inv_unfinished _ _ _ _ _ _ _ Hinv) as Hu.
  split; [lia|]. split.
  - intros H0. split.
    + destruct (to_visit st); [reflexivity | simpl in Hu; lia].
    + intros u. apply fetching_none. lia.
  - intros [Hq Hf]. rewrite Hu, Hq. simpl.
    destruct (Nat.eq_dec (fetching (workers st)) 0) as [->|Hne]; [reflexivity|].
    destruct (fetching_pos (workers st)) as [i [u Hi]]; [lia|].
    destruct (Hf u). eapply nth_error_In; eauto.
Qed.


End QueueFacts.

(* ================================================================== *)
(** * crawl_with_scrapingbee: the log and the result *)
(* ================================================================== *)

Section BeeFacts.
Import PyStr Urllib Classify Web Extract Bee Explore.

Variable canonical_url : string -> string -> Canonical.
Variable client : nat -> string -> ProxyParams -> Reply.
Variable pick : State -> nat.
Variable base_url : string.
Variable allowed_domains keywords : list string.
Variable max_pages : nat.

Local Abbreviation visit_link := (Bee.visit_link keywords max_pages).
Local Abbreviation crawl_page :=
  (Bee.crawl_page canonical_url client base_url allowed_domains keywords
     max_pages).
Local Abbreviation iteration :=
  (Bee.iteration canonical_url client pick base_url allowed_domains keywords
     max_pages).
Local Abbreviation running := (Bee.running max_pages).
Local Abbreviation crawl_loop :=
  (Bee.crawl_loop canonical_url client pick base_url allowed_domains keywords
     max_pages).
Local Abbreviation at_loop_head :=
  (Bee.at_loop_head canonical_url client pick base_url allowed_domains
     keywords max_pages).

Lemma firstn_seq (m a n : nat) : firstn m (seq a n) = seq a (Nat.min m n).
Proof.
  revert a n; induction m as [|m IH]; intros a n; [reflexivity|].
  destruct n as [|n]; [reflexivity|]. simpl. now rewrite IH.
Qed.

Lemma crawl_loop_head (fuel : nat) :
  forall st final,
    at_loop_head st -> crawl_loop fuel st = Some final -> at_loop_head final.
Proof.
  induction fuel as [|fuel IH]; intros st final Hh Hl; simpl in Hl.
  - destruct (running st); [discriminate|]. now injection Hl as <-.
  - destruct (running st) eqn:Hr; [|now injection Hl as <-].
    apply (IH _ _ (head_next _ _ _ _ _ _ _ st Hh Hr) Hl).
Qed.

Lemma head_blocks (st : State) :
  at_loop_head st ->
  exists blocks,
    requests st = log_of blocks /\ map fst blocks = visited st /\
    Forall (fun b => 1 <= snd b <= 3) blocks.
Proof.
  induction 1 as [|st Hh [blocks [Hlog [Hv Hall]]] Hr].
  - exists []. repeat split. constructor.
  - pose proof (at_loop_head_inv _ _ _ _ _ _ _ st Hh) as Hinv.
    destruct (iteration_pop canonical_url client pick _ _ _ _ st Hinv Hr)
      as [url [rest [_ [_ ->]]]].
    match goal with
    | |- context [Bee.crawl_page _ _ _ _ _ _ ?u ?s] =>
        destruct (crawl_page_frame canonical_url client base_url
                    allowed_domains keywords max_pages u s)
          as [Hvis [_ [_ Hreq]]]
    end.
    cbn [Bee.requests Bee.visited] in Hreq, Hvis.
    destruct (attempts_loop_log client (seq 0 max_retries) url None
                (requests st)) as [m [Hm1 [Hm2 Hsnd]]].
    rewrite Hsnd in Hreq. unfold max_retries in *. simpl in Hm2.
    rewrite firstn_seq in Hreq.
    assert (Hpos : 1 <= m) by (apply Hm1; discriminate).
    replace (Nat.min m 3) with m in Hreq by lia.
    exists (blocks ++ [(url, m)]).
    rewrite Hreq, Hvis. unfold log_of in *. rewrite flat_map_app, map_app.
    simpl. rewrite app_nil_r, Hlog, Hv. repeat split.
    apply Forall_app. split; [exact Hall|]. constructor; [simpl; lia|constructor].
Qed.





Lemma bee_final :
  exists final,
    Bee.crawl_with_scrapingbee canonical_url client pick base_url
      allowed_domains keywords max_pages max_pages = Some final /\
    at_loop_head final /\
    Bee.Inv base_url allowed_domains keywords max_pages [] final.
Proof.
  destruct (crawl_loop_total canonical_url client pick base_url
              allowed_domains keywords max_pages max_pages
              (Bee.init base_url) (bee_init_inv _ _ _ _))
    as [final [Hf [Hi _]]]; [simpl; lia|].
  exists final. split; [exact Hf|]. split; [|exact Hi].
  eapply crawl_loop_head; [apply head_init | exact Hf].
Qed.

(** The log of a whole run of [crawl_with_scrapingbee] goes page by page
    in the order in which the pages were visited: for each page one to
    three requests, attempts 0, 1, 2 with none left out.  Attempt 0 goes
    through [us] without a session; the retries go through [ca] and then
    [gb], each under a session label of its own. *)
Theorem bee_log_page_by_page :
  exists final blocks,
    Bee.crawl_with_scrapingbee canonical_url client pick base_url
      allowed_domains keywords max_pages max_pages = Some final /\
    requests final = log_of blocks /\
    map fst blocks = visited final /\
    Forall (fun b => 1 <= snd b <= 3) blocks /\
    forall q, In q (requests final) ->
      (req_attempt q = 0 /\
       req_params q = {| country_code := "us"; session_id := None |}) \/
      (req_attempt q = 1 /\
       req_params q = {| country_code := "ca";
                         session_id := Some ("crawl", 1, req_url q) |}) \/
      (req_attempt q = 2 /\
       req_params q = {| country_code := "gb";
                         session_id := Some ("crawl", 2, req_url q) |}).
Proof.
  destruct bee_final as [final [Hf [Hh _]]].
  destruct (head_blocks final Hh) as [blocks [Hlog [Hv Hall]]].
  exists final, blocks. split; [exact Hf|]. split; [exact Hlog|].
  split; [exact Hv|]. split; [exact Hall|].
  intros q Hq. rewrite Hlog in Hq. unfold log_of in Hq.
  apply in_flat_map in Hq. destruct Hq as [[url n] [Hb Hq]].
  rewrite Forall_forall in Hall. specialize (Hall _ Hb). simpl in Hall.
  unfold block in Hq. simpl in Hq. apply in_map_iff in Hq.
  destruct Hq as [a [<- Ha]]. apply in_seq in Ha.
  destruct a as [|[|[|a]]]; [auto | auto | auto | lia].
Qed.


End BeeFacts.

(* ================================================================== *)
(** * _crawl_page *)
(* ================================================================== *)

Section CrawlPageFacts.
Import PyStr Urllib Classify Web Extract.

Variable canonical_url : string -> string -> Canonical.
Variable api_key : option string.
Variable site : string -> Reply.
Variable base_url : string.
Variable allowed_domains keywords : list string.

Lemma crawl_page_sound (url : string) :
  let links :=
    fst (fst (Batch._crawl_page canonical_url api_key site base_url
                allowed_domains url keywords)) in
  let products :=
    snd (fst (Batch._crawl_page canonical_url api_key site base_url
                allowed_domains url keywords)) in
  let log :=
    snd (Batch._crawl_page canonical_url api_key site base_url
           allowed_domains url keywords) in
  (forall l, In l links -> Bee.in_allowed allowed_domains l = true) /\
  (forall p, In p products ->
             In p links /\ _is_product_url p keywords = true) /\
  log = if truthy api_key then [url] else [].
Proof.
  unfold Batch._crawl_page, Batch._crawl_page_try.
  destruct (truthy api_key); cbn [negb];
    [|simpl; split; [intros l [] | split; [intros p [] | reflexivity]]].
  destruct (site url) as [r|];
    [|simpl; split; [intros l [] | split; [intros p [] | reflexivity]]].
  destruct (status_code r =? 200); cbn [negb];
    [|simpl; split; [intros l [] | split; [intros p [] | reflexivity]]].
  cbn [fst snd]. split; [|split; [|reflexivity]].
  - intros l Hl. apply fold_add_filter_iff in Hl.
    destruct Hl as [[]|[_ Hd]]. exact Hd.
  - intros p Hp. apply fold_add_filter_iff in Hp.
    destruct Hp as [[]|Hp]. exact Hp.
Qed.

(** What [_crawl_page] returns for a URL whose page holds links of
    printable ASCII without square brackets: the links are those of the
    page that answered 200, resolved against the base URL and with an
    allowed domain somewhere in their network location, which is the
    host with any user information and port, none twice; the product
    links are just those of these links that hold a keyword; and the one
    request, for the URL, is sent exactly when the key is set. *)
Theorem crawl_page_contract (url : string)
    (Hplain : forall r l,
        site url = Returns r ->
        In l (_extract_links canonical_url base_url (body r)) ->
        Plain.plain l = true) :
  let links :=
    fst (fst (Batch._crawl_page canonical_url api_key site base_url
                allowed_domains url keywords)) in
  let products :=
    snd (fst (Batch._crawl_page canonical_url api_key site base_url
                allowed_domains url keywords)) in
  let log :=
    snd (Batch._crawl_page canonical_url api_key site base_url
           allowed_domains url keywords) in
  (forall l, In l links <->
             exists r,
               truthy api_key = true /\ site url = Returns r /\
               status_code r = 200 /\
               In l (_extract_links canonical_url base_url (body r)) /\
               Bee.in_allowed allowed_domains l = true) /\
  (forall p, In p products <->
             In p links /\ _is_product_url p keywords = true) /\
  NoDup links /\ NoDup products /\
  log = if truthy api_key then [url] else [].
Proof.
  unfold Batch._crawl_page, Batch._crawl_page_try.
  destruct (truthy api_key); cbn [negb].
  2:{ simpl. split; [|split; [|repeat split; constructor]].
      - intros l. split; [intros [] | intros [r [H _]]; discriminate].
      - intros p. split; [intros [] | intros [[] _]]. }
  destruct (site url) as [r|].
  2:{ simpl. split; [|split; [|repeat split; constructor]].
      - intros l. split; [intros [] | intros [r [_ [H _]]]; discriminate].
      - intros p. split; [intros [] | intros [[] _]]. }
  destruct (status_code r =? 200) eqn:Hs; cbn [negb].
  2:{ simpl. apply Nat.eqb_neq in Hs.
      split; [|split; [|repeat split; constructor]].
      - intros l. split; [intros []|].
        intros [r' [_ [H [H' _]]]]. injection H as <-. contradiction.
      - intros p. split; [intros [] | intros [[] _]]. }
  apply Nat.eqb_eq in Hs. cbn [fst snd].
  split; [|split; [|split; [|split]]].
  - intros l. rewrite fold_add_filter_iff. unfold Bee.in_allowed. split.
    + intros [[]|[Hl Hd]]. exists r. auto.
    + intros [r' [_ [H [_ [Hl Hd]]]]]. injection H as <-. auto.
  - intros p. rewrite fold_add_filter_iff. simpl. tauto.
  - apply fold_add_filter_NoDup. constructor.
  - apply fold_add_filter_NoDup. constructor.
  - reflexivity.
Qed.

End CrawlPageFacts.

(* ================================================================== *)
(** * Which answers count as fine *)
(* ================================================================== *)

Section StatusFacts.
Import Web Extract.

Variable canonical_url : string -> string -> Canonical.
Variable client : nat -> string -> ProxyParams -> Reply.


End StatusFacts.

(* ================================================================== *)
(** * The sleeps between the attempts *)
(* ================================================================== *)

Section BackoffFacts.
Import Web Backoff.

Variable client : nat -> string -> ProxyParams -> Reply.

Lemma fetch_sleeps_sum (max_retries : nat) (url : string) (k : nat) :
  forall a n,
    a + k = max_retries -> 1 <= k ->
    list_sum (fetch_sleeps client max_retries (seq a k) url n)
    + 2 ^ a + 5 * a
    <= 2 ^ (max_retries - 1) + 5 * (max_retries - 1).
Proof.
  induction k as [|k IH]; intros a n Ha Hk; [lia|].
  assert (Hpow : 2 ^ a <= 2 ^ (max_retries - 1))
    by (apply Nat.pow_le_mono_r; lia).
  cbn [seq fetch_sleeps].
  destruct (Main.attempt_body max_retries a
              (client n url (Main.proxy_params url a))) as [html| |] eqn:Hb.
  - simpl. lia.
  - apply attempt_body_continue in Hb.
    specialize (IH (S a) (S n)). rewrite Nat.pow_succ_r' in IH.
    simpl. lia.
  - destruct (a =? max_retries - 1) eqn:Hlast; [simpl; lia|].
    apply Nat.eqb_neq in Hlast.
    specialize (IH (S a) (S n)). rewrite Nat.pow_succ_r' in IH.
    simpl. lia.
Qed.

Lemma fetch_sleeps_count (max_retries : nat) (url : string) (k : nat) :
  forall a log,
    a + k = max_retries -> 1 <= k ->
    List.length
      (snd (Main.fetch_loop client max_retries (seq a k) url log))
    = List.length log
      + S (List.length
             (fetch_sleeps client max_retries (seq a k) url
                (List.length log))).
Proof.
  induction k as [|k IH]; intros a log Ha Hk; [lia|].
  cbn [seq fetch_sleeps Main.fetch_loop].
  assert (Hlen : List.length (log ++ [Main.request url a])
                 = S (List.length log))
    by (rewrite length_app; simpl; lia).
  destruct (Main.attempt_body max_retries a
              (client (List.length log) url (Main.proxy_params url a)))
    as [html| |] eqn:Hb.
  - simpl. lia.
  - apply attempt_body_continue in Hb.
    rewrite IH, Hlen by lia. simpl. lia.
  - destruct (a =? max_retries - 1) eqn:Hlast; [simpl; lia|].
    apply Nat.eqb_neq in Hlast.
    rewrite IH, Hlen by lia. simpl. lia.
Qed.

Lemma crawl_sleeps_count (url : string) (k : nat) :
  forall a log response,
    a + k = 3 -> 1 <= k ->
    List.length (snd (Bee.attempts_loop client (seq a k) url response log))
    = List.length log
      + S (List.length (crawl_sleeps client (seq a k) url (List.length log))).
Proof.
  induction k as [|k IH]; intros a log response Ha Hk; [lia|].
  cbn [seq crawl_sleeps Bee.attempts_loop].
  assert (Hlen : List.length (log ++ [Bee.request url a])
                 = S (List.length log))
    by (rewrite length_app; simpl; lia).
  unfold Bee.max_retries.
  destruct (client (List.length log) url (Bee.proxy_params url a)) as [r|].
  - destruct (ok r); [simpl; lia|].
    destruct (status_code r =? 503); [|simpl; lia].
    destruct (a <? 3 - 1) eqn:Hlt.
    + apply Nat.ltb_lt in Hlt. rewrite IH, Hlen by lia. simpl. lia.
    + apply Nat.ltb_ge in Hlt. assert (k = 0) by lia. subst k.
      simpl. lia.
  - destruct (a =? 3 - 1) eqn:Hlast; [simpl; lia|].
    apply Nat.eqb_neq in Hlast. rewrite IH, Hlen by lia. simpl. lia.
Qed.

(** How long the retry loops can keep a caller waiting.  Each of them
    sleeps once between two requests and not after the last one.
    [fetch_html_with_scrapingbee] with [max_retries] attempts sleeps for
    at most [2 ^ (max_retries - 1) - 1 + 5 * (max_retries - 1)] seconds
    in all, 13 with the default of three attempts; the loop of
    [crawl_with_scrapingbee] sleeps for at most 9 seconds for a page. *)
Theorem retry_sleeps_bounded (url : string) (max_retries : nat)
    (log : list Request) (Hpos : 1 <= max_retries) :
  list_sum (fetch_sleeps client max_retries (seq 0 max_retries) url
              (List.length log)) + 1
  <= 2 ^ (max_retries - 1) + 5 * (max_retries - 1) /\
  List.length
    (snd (Main.fetch_html_with_scrapingbee client url max_retries log))
  = List.length log
    + S (List.length (fetch_sleeps client max_retries (seq 0 max_retries)
                        url (List.length log))) /\
  list_sum (fetch_sleeps client 3 (seq 0 3) url (List.length log)) <= 13 /\
  list_sum (crawl_sleeps client (seq 0 3) url (List.length log)) <= 9 /\
  List.length
    (snd (Bee.attempts_loop client (seq 0 3) url None log))
  = List.length log
    + S (List.length (crawl_sleeps client (seq 0 3) url (List.length log))).
Proof.
  split; [|split; [|split; [|split]]].
  - pose proof (fetch_sleeps_sum max_retries url max_retries 0
                  (List.length log) eq_refl Hpos) as H.
    change (2 ^ 0) with 1 in H. lia.
  - apply fetch_sleeps_count; [reflexivity | exact Hpos].
  - assert (H3 : 1 <= 3) by lia.
    pose proof (fetch_sleeps_sum 3 url 3 0 (List.length log) eq_refl H3) as H.
    change (2 ^ (3 - 1) + 5 * (3 - 1)) with 14 in H.
    change (2 ^ 0) with 1 in H. lia.
  - cbn [seq crawl_sleeps].
    repeat match goal with
           | |- context [client ?n url ?p] =>
               destruct (client n url p) as [?r|]
           | |- context [ok ?r] => destruct (ok r)
           | |- context [status_code ?r =? 503] =>
               destruct (status_code r =? 503)
           end; simpl; lia.
  - apply crawl_sleeps_count; [reflexivity | lia].
Qed.

End BackoffFacts.

(* ================================================================== *)
(** * The batch crawl *)
(* ================================================================== *)

Section BatchSets.
Import Web.

Lemma fold_add_iff (l acc : list string) (y : string) :
  In y (fold_left (fun acc p => add p acc) l acc) <-> In y acc \/ In y l.
Proof.
  revert acc; induction l as [|x l IH]; intros acc; simpl.
  - split; [auto | intros [H|[]]; exact H].
  - rewrite IH, add_iff. split.
    + intros [[->|H]|H]; auto.
    + intros [H|[->|H]]; auto.
Qed.

(** [for url in batch]: what becomes a task and what is visited. *)
Lemma plan_fold (batch : list string) :
  forall tasks0 seen0,
    let r :=
      fold_left
        (fun acc url =>
           let '(tasks, seen) := acc in
           if negb (mem url seen) then (tasks ++ [url], add url seen)
           else (tasks, seen))
        batch (tasks0, seen0) in
    (forall u, In u (snd r) <-> In u seen0 \/ In u batch) /\
    (forall u, In u (fst r) <->
               In u tasks0 \/ (In u batch /\ ~ In u seen0)) /\
    (NoDup seen0 -> NoDup (snd r)) /\
    (NoDup tasks0 -> incl tasks0 seen0 -> NoDup (fst r)) /\
    (NoDup seen0 ->
     List.length (snd r) + List.length tasks0
     = List.length seen0 + List.length (fst r)) /\
    List.length (fst r) <= List.length tasks0 + List.length batch.
Proof.
  induction batch as [|url batch IH]; intros tasks0 seen0; simpl.
  - repeat split; try tauto; try lia.
  - destruct (mem url seen0) eqn:Hm; cbn [negb].
    + apply mem_iff in Hm.
      destruct (IH tasks0 seen0) as [H1 [H2 [H3 [H4 [H5 H6]]]]].
      split; [|split; [|split; [|split; [|split]]]]; auto.
      * intros u. rewrite H1. split; [tauto|].
        intros [H|[<-|H]]; auto.
      * intros u. rewrite H2. split; [tauto|].
        intros [H|[[<-|H] Hn]]; [auto | contradiction | auto].
      * lia.
    + apply mem_false_iff in Hm.
      destruct (IH (tasks0 ++ [url]) (add url seen0))
        as [H1 [H2 [H3 [H4 [H5 H6]]]]].
      split; [|split; [|split; [|split; [|split]]]].
      * intros u. rewrite H1, add_iff. split.
        -- intros [[->|H]|H]; auto.
        -- intros [H|[<-|H]]; auto.
      * intros u. rewrite H2, in_app_iff, add_iff. simpl. split.
        -- intros [[H|[<-|[]]]|[H Hn]]; auto.
           right. split; [auto|]. intros Hs. apply Hn. auto.
        -- intros [H|[[<-|H] Hn]]; auto.
           destruct (string_dec u url) as [->|Hne]; [auto|].
           right. split; [exact H|]. intros [->|Hs]; [congruence | auto].
      * intros Hs. apply H3, add_NoDup, Hs.
      * intros Ht Hincl. apply H4.
        -- apply NoDup_app; [exact Ht | constructor; [intros []|constructor]|].
           intros a Ha [<-|[]]. apply Hm, Hincl, Ha.
        -- intros a Ha. apply add_iff. apply in_app_iff in Ha.
           destruct Ha as [Ha|[<-|[]]]; auto.
      * intros Hs. specialize (H5 (add_NoDup url seen0 Hs)).
        rewrite (add_fresh url seen0 Hm) in H5 at 2.
        rewrite !length_app in H5. simpl in H5. lia.
      * rewrite length_app in H6. simpl in H6. lia.
Qed.

Lemma firstn_NoDup {A : Type} (n : nat) (l : list A) :
  NoDup l -> NoDup (firstn n l).
Proof.
  intros H. rewrite <- (firstn_skipn n l) in H.
  now apply NoDup_app_remove_r in H.
Qed.

Lemma firstn_In {A : Type} (n : nat) (l : list A) (x : A) :
  In x (firstn n l) -> In x l.
Proof.
  intros H. rewrite <- (firstn_skipn n l). apply in_app_iff. auto.
Qed.

End BatchSets.

Section BatchLoop.
Import PyStr Urllib Classify Web Extract Batch.

Variable canonical_url : string -> string -> Canonical.
Variable api_key : option string.
Variable site : string -> Reply.
Variable base_url : string.
Variable allowed_domains keywords : list string.
Variable concurrency max_pages : nat.
Variable listing : State -> list string.

Local Abbreviation absorb :=
  (Batch.absorb canonical_url api_key site base_url allowed_domains keywords
     max_pages).
Local Abbreviation iteration :=
  (Batches.iteration canonical_url api_key site base_url allowed_domains
     keywords concurrency max_pages listing).
Local Abbreviation crawl_loop :=
  (Batches.crawl_loop canonical_url api_key site base_url allowed_domains
     keywords concurrency max_pages listing).
Local Abbreviation Inv :=
  (Batches.Inv api_key base_url allowed_domains keywords concurrency
     max_pages).
Local Abbreviation running := (Batch.running max_pages).

(** The handling of the results of the tasks. *)
Lemma absorb_fold (tasks : list string) :
  forall st,
    let st' := fold_left absorb tasks st in
    visited st' = visited st /\
    requests st' = requests st ++ (if truthy api_key then tasks else []) /\
    (NoDup (to_visit st) -> NoDup (to_visit st')) /\
    (forall u, In u (to_visit st') ->
               In u (to_visit st) \/
               (~ In u (visited st) /\
                Bee.in_allowed allowed_domains u = true)) /\
    (forall p, In p (product_urls st') ->
               In p (product_urls st) \/
               (Bee.in_allowed allowed_domains p = true /\
                _is_product_url p keywords = true)).
Proof.
  induction tasks as [|url tasks IH]; intros st; simpl.
  - destruct (truthy api_key); rewrite app_nil_r; repeat split; auto.
  - destruct (IH (absorb st url)) as [Hv [Hr [Hn [Hq Hp]]]].
    pose proof (crawl_page_sound canonical_url api_key site base_url
                  allowed_domains keywords url) as Hspec.
    unfold Batch.absorb in *.
    destruct (Batch._crawl_page canonical_url api_key site base_url
                allowed_domains url keywords)
      as [[new_links new_products] log].
    cbn [fst snd] in Hspec. destruct Hspec as [Hl [Hpr Hlog]].
    cbn [visited requests to_visit product_urls] in *.
    split; [exact Hv|]. split; [|split; [|split]].
    + rewrite Hr, Hlog, <- app_assoc. now destruct (truthy api_key).
    + intros Hnd. apply Hn. now apply fold_add_filter_NoDup.
    + intros u Hu. destruct (Hq u Hu) as [H|H]; [|auto].
      apply fold_add_filter_iff in H. destruct H as [H|[Hin Hc]]; [auto|].
      right. apply andb_true_iff in Hc. destruct Hc as [_ Hc].
      apply negb_true_iff, mem_false_iff in Hc. split; [exact Hc|].
      apply Hl, Hin.
    + intros p Hin. destruct (Hp p Hin) as [H|H]; [|auto].
      apply fold_add_iff in H. destruct H as [H|H]; [auto|].
      right. apply Hpr in H. destruct H as [H Hprod].
      split; [apply Hl, H | exact Hprod].
Qed.

Hypothesis Hlisting : Batches.lists_the_set listing.

Lemma batch_iteration_inv (st : State) :
  Inv st -> running st = true ->
  Inv (iteration st) /\
  (1 <= concurrency ->
   List.length (visited st) < List.length (visited (iteration st))).
Proof.
  intros Hinv Hrun.
  destruct Hinv as [Hnv Hnq Hdis Hover Hnr Hreq Hkey Hdom Hprod].
  apply andb_true_iff in Hrun. destruct Hrun as [Hne Hlt].
  apply Nat.ltb_lt in Hlt.
  destruct (Hlisting st) as [Hnl Hl].
  unfold Batches.iteration, Batch.plan.
  set (batch := firstn concurrency (listing st)).
  assert (Hb : forall u, In u batch -> In u (to_visit st))
    by (intros u Hu; apply Hl; eapply firstn_In; exact Hu).
  assert (Hbn : NoDup batch) by (apply firstn_NoDup, Hnl).
  assert (Hbl : List.length batch <= concurrency)
    by apply firstn_le_length.
  destruct (plan_fold batch [] (visited st)) as [H1 [H2 [H3 [H4 [H5 H6]]]]].
  destruct (fold_left _ batch ([], visited st)) as [tasks seen].
  cbn [fst snd] in *.
  specialize (H3 Hnv). specialize (H5 Hnv).
  specialize (H4 (NoDup_nil _) (incl_nil_l _)).
  simpl in H5, H6.
  set (st0 := {| visited := seen;
                 to_visit := filter (fun u => negb (mem u batch)) (to_visit st);
                 product_urls := product_urls st; requests := requests st |}).
  destruct (absorb_fold tasks st0) as [Hv [Hr [Hn [Hq Hp]]]].
  cbn [visited requests to_visit product_urls st0] in Hv, Hr, Hn, Hq, Hp.
  assert (Htasks : forall u, In u tasks <-> In u batch).
  { intros u. rewrite H2. split; [intros [[]|[H _]]; exact H|].
    intros H. right. split; [exact H | apply Hdis, Hb, H]. }
  split.
  - constructor.
    + rewrite Hv. exact H3.
    + apply Hn. apply NoDup_filter, Hnq.
    + intros u Hu. rewrite Hv. destruct (Hq u Hu) as [H|[H _]]; [|exact H].
      apply filter_In in H. destruct H as [Hin Hnb].
      apply negb_true_iff, mem_false_iff in Hnb.
      rewrite H1. intros [Hs|Hs]; [apply (Hdis u Hin Hs) | auto].
    + rewrite Hv. lia.
    + rewrite Hr. destruct (truthy api_key); [|now rewrite app_nil_r].
      apply NoDup_app; [exact Hnr | exact H4 |].
      intros a Ha Ht. apply Htasks in Ht. apply (Hdis a (Hb a Ht)).
      apply Hreq, Ha.
    + rewrite Hr, Hv. intros a Ha. apply in_app_iff in Ha. apply H1.
      destruct Ha as [Ha|Ha]; [left; apply Hreq, Ha|].
      destruct (truthy api_key); [|destruct Ha].
      right. apply Htasks, Ha.
    + intros Hk. rewrite Hr, Hk, (Hkey Hk). reflexivity.
    + intros u [Hu|Hu].
      * destruct (Hq u Hu) as [H|[_ H]]; [|auto].
        apply filter_In in H. apply Hdom. left. apply H.
      * rewrite Hv in Hu. apply H1 in Hu.
        destruct Hu as [Hu|Hu]; apply Hdom; [auto | left; apply Hb, Hu].
    + intros p Hin. destruct (Hp p Hin) as [H|H]; [apply Hprod, H | exact H].
  - intros Hc. rewrite Hv.
    destruct (to_visit st) as [|x rest] eqn:Hq0; [discriminate|].
    assert (Hx : In x (listing st)) by (apply Hl; simpl; auto).
    destruct (listing st) as [|y l] eqn:Hls; [destruct Hx|].
    assert (Hy : In y tasks).
    { apply Htasks. unfold batch. destruct concurrency; [lia|]. simpl. auto. }
    destruct tasks as [|t tasks]; [destruct Hy|]. simpl in H5. lia.
Qed.

Lemma batch_init_inv : Inv (Batches.init base_url).
Proof.
  constructor; simpl.
  - constructor.
  - constructor; [intros [] | constructor].
  - intros u _ [].
  - lia.
  - constructor.
  - intros u [].
  - reflexivity.
  - intros u [[<-|[]]|[]]. auto.
  - intros p [].
Qed.

Lemma batch_loop_total (fuel : nat) :
  1 <= concurrency ->
  forall st,
    Inv st -> max_pages - List.length (visited st) <= fuel ->
    exists final,
      crawl_loop fuel st = Some final /\ Inv final /\
      running final = false.
Proof.
  intros Hc. induction fuel as [|fuel IH]; intros st Hinv Hfuel; simpl.
  - destruct (running st) eqn:Hrun; [|eauto].
    apply andb_true_iff in Hrun. destruct Hrun as [_ Hlt].
    apply Nat.ltb_lt in Hlt. lia.
  - destruct (running st) eqn:Hrun; [|eauto].
    destruct (batch_iteration_inv st Hinv Hrun) as [Hinv' Hgrow].
    specialize (Hgrow Hc). apply IH; [exact Hinv' | lia].
Qed.

Lemma batch_final :
  1 <= concurrency ->
  exists final,
    Batches.crawl canonical_url api_key site base_url allowed_domains
      keywords concurrency max_pages listing max_pages = Some final /\
    Inv final /\ running final = false.
Proof.
  intros Hc. apply batch_loop_total; [exact Hc | apply batch_init_inv|].
  simpl. lia.
Qed.

End BatchLoop.

Section BatchCrawl.
Import PyStr Urllib Classify Web Extract Batch.

Variable canonical_url : string -> string -> Canonical.
Variable api_key : option string.
Variable site : string -> Reply.
Variable base_url : string.
Variable allowed_domains keywords : list string.
Variable concurrency max_pages : nat.
Variable listing : State -> list string.

Local Abbreviation batch_crawl :=
  (Batches.crawl canonical_url api_key site base_url allowed_domains
     keywords concurrency max_pages listing).

(** The first [crawl], the one that works through the frontier in
    batches, comes to an end whenever [concurrency] is at least one, in
    whatever order the frontier is listed: each turn of its loop
    visits at least one page that was not visited before, so the loop is
    left within [max_pages] turns. *)
Theorem batch_crawl_returns (Hworkers : 1 <= concurrency)
    (Hlisting : Batches.lists_the_set listing) :
  exists final,
    batch_crawl max_pages = Some final /\
    Batch.running max_pages final = false.
Proof.
  destruct (batch_final canonical_url api_key site base_url allowed_domains
              keywords concurrency max_pages listing Hlisting Hworkers)
    as [final [Hf [_ Hr]]].
  eauto.
Qed.

(** The batch crawl requests no URL twice and requests only URLs that it
    has put into [visited].  Its page budget is tested before a batch,
    not inside it, so the requests can overrun the budget, but by fewer
    pages than a batch holds: they number at most
    [max_pages - 1 + concurrency].  Without the key no request is
    sent. *)
Theorem batch_crawl_fetches_once (Hworkers : 1 <= concurrency)
    (Hlisting : Batches.lists_the_set listing) :
  exists final,
    batch_crawl max_pages = Some final /\
    NoDup (requests final) /\
    incl (requests final) (visited final) /\
    List.length (requests final) <= max_pages - 1 + concurrency /\
    (truthy api_key = false -> requests final = []).
Proof.
  destruct (batch_final canonical_url api_key site base_url allowed_domains
              keywords concurrency max_pages listing Hlisting Hworkers)
    as [final [Hf [Hinv _]]].
  exists final. split; [exact Hf|].
  destruct Hinv as [Hnv _ _ Hover Hnr Hreq Hkey _ _].
  split; [exact Hnr|]. split; [exact Hreq|]. split; [|exact Hkey].
  pose proof (NoDup_incl_length Hnr Hreq). lia.
Qed.


End BatchCrawl.

Section NoWorker.
Import Web Extract.

Variable canonical_url : string -> string -> Canonical.
Variable is_same_domain : string -> list string -> bool.
Variable api_key : option string.
Variable site : string -> Reply.
Variable base_url : string.
Variable allowed_domains keywords : list string.
Variable listing : Batch.State -> list string.

Lemma filter_none_out (l : list string) :
  filter (fun u => negb (mem u [])) l = l.
Proof.
  induction l as [|x l IH]; [reflexivity|].
  cbn [filter]. rewrite IH. reflexivity.
Qed.

Lemma batch_stuck (max_pages : nat) (fuel : nat) :
  forall st,
    Batch.running max_pages st = true ->
    Batches.crawl_loop canonical_url api_key site base_url allowed_domains
      keywords 0 max_pages listing fuel st = None.
Proof.
  induction fuel as [|fuel IH]; intros st Hr; simpl; rewrite Hr;
    [reflexivity|].
  assert (Hsame : Batches.iteration canonical_url api_key site base_url
                    allowed_domains keywords 0 max_pages listing st = st).
  { unfold Batches.iteration. cbn [firstn Batch.plan fold_left].
    rewrite filter_none_out. now destruct st. }
  rewrite Hsame. now apply IH.
Qed.

(** With [concurrency = 0] neither crawl comes to an end.  The batch of
    the first [crawl] is then empty in every turn, so the frontier keeps
    the base URL and the loop goes round for ever; the second [crawl] has
    no worker to take the base URL off the queue, so [join] waits for
    ever. *)
Theorem no_worker_no_return (max_pages : nat) (Hpages : 1 <= max_pages)
    (fuel : nat) (sched : nat -> nat) :
  Batches.crawl canonical_url api_key site base_url allowed_domains keywords
    0 max_pages listing fuel = None /\
  Frontier.crawl canonical_url is_same_domain api_key site base_url
    allowed_domains keywords 0 max_pages (S fuel) sched = Frontier.Hung.
Proof.
  split; [|reflexivity].
  apply batch_stuck. unfold Batch.running. simpl.
  apply Nat.ltb_lt. lia.
Qed.

End NoWorker.

(* ================================================================== *)
(** * crawl_with_scrapingbee: what it reaches with budget to spare *)
(* ================================================================== *)

Section BeeSweep.
Import PyStr Urllib Classify Web Extract Bee Explore.

Variable canonical_url : string -> string -> Canonical.
Variable client : nat -> string -> ProxyParams -> Reply.
Variable pick : State -> nat.
Variable site : string -> Reply.
Variable base_url : string.
Variable allowed_domains keywords : list string.
Variable max_pages : nat.

Local Abbreviation visit_link := (Bee.visit_link keywords max_pages).
Local Abbreviation crawl_page :=
  (Bee.crawl_page canonical_url client base_url allowed_domains keywords
     max_pages).
Local Abbreviation iteration :=
  (Bee.iteration canonical_url client pick base_url allowed_domains keywords
     max_pages).
Local Abbreviation at_loop_head :=
  (Bee.at_loop_head canonical_url client pick base_url allowed_domains
     keywords max_pages).
Local Abbreviation bee_links :=
  (Explore.bee_links canonical_url site base_url allowed_domains).
Local Abbreviation followed :=
  (Explore.followed canonical_url site base_url allowed_domains).
Local Abbreviation Swept :=
  (Explore.Swept canonical_url site base_url allowed_domains keywords
     max_pages).

(** What [for link in filtered_links] leaves in the frontier and among
    the products. *)
Lemma fold_visit_back (links : list string) :
  forall st l,
    (In l (to_visit (fold_left visit_link links st)) ->
     In l (to_visit st) \/ In l links) /\
    (In l (product_urls (fold_left visit_link links st)) ->
     In l (product_urls st) \/
     (In l links /\ _is_product_url l keywords = true)).
Proof.
  induction links as [|x links IH]; intros st l; simpl; [auto|].
  destruct (IH (visit_link st x) l) as [Hq Hp]. split.
  - intros H. destruct (Hq H) as [H'|H']; [|auto].
    unfold Bee.visit_link in H'. simpl in H'.
    destruct (andb _ _) in H'; [|auto].
    apply add_iff in H'. destruct H' as [->|H']; auto.
  - intros H. destruct (Hp H) as [H'|[H1 H2]]; [|auto].
    unfold Bee.visit_link in H'. simpl in H'.
    destruct (_is_product_url x keywords) eqn:Hx; [|auto].
    destruct (negb (mem x (product_urls st))); [|auto].
    apply add_iff in H'. destruct H' as [->|H']; auto.
Qed.

Lemma fold_visit_queued (links : list string) :
  forall st l,
    In l links -> List.length (visited st) < max_pages ->
    ~ In l (visited st) ->
    In l (to_visit (fold_left visit_link links st)).
Proof.
  induction links as [|x links IH]; intros st l Hin Hlt Hnv; [destruct Hin|].
  simpl. destruct Hin as [->|Hin].
  - destruct (fold_visit_frame keywords max_pages links (visit_link st l))
      as [_ [_ [_ Hincl]]].
    apply Hincl. unfold Bee.visit_link. simpl.
    apply Nat.ltb_lt in Hlt. rewrite Hlt.
    apply mem_false_iff in Hnv. rewrite Hnv. simpl.
    destruct (mem l (to_visit st)) eqn:Hm; simpl.
    + now apply mem_iff.
    + apply add_iff. auto.
  - apply IH; auto.
Qed.

Hypothesis Hsite : forall n u p, client n u p = site u.

Lemma attempts_stationary (url : string) (k : nat) :
  forall a response log,
    a + k = 3 -> 1 <= k ->
    fst (attempts_loop client (seq a k) url response log)
    = match site url with Returns r => Some r | Raises => response end.
Proof.
  induction k as [|k IH]; intros a response log Ha Hk; [lia|].
  cbn [seq attempts_loop]. rewrite Hsite. unfold max_retries.
  destruct (site url) as [r|] eqn:Hs.
  - destruct (ok r); [reflexivity|].
    destruct (status_code r =? 503); [|reflexivity].
    destruct k as [|k]; [reflexivity|].
    rewrite IH by lia. reflexivity.
  - destruct (a =? 3 - 1) eqn:Hlast; [reflexivity|].
    apply Nat.eqb_neq in Hlast. rewrite IH by lia. reflexivity.
Qed.

(** With answers that depend on the URL alone, a page is handled by
    going through its links, whatever the attempts were. *)
Lemma crawl_page_links (url : string) (st : State) :
  crawl_page url st
  = fold_left visit_link (bee_links url)
      {| visited := visited st; to_visit := to_visit st;
         product_urls := product_urls st;
         requests :=
           snd (attempts_loop client (seq 0 max_retries) url None
                  (requests st)) |}.
Proof.
  unfold Bee.crawl_page, Bee.try_page, Explore.bee_links.
  pose proof (attempts_stationary url 3 0 None (requests st) eq_refl) as Hf.
  unfold max_retries.
  destruct (attempts_loop client (seq 0 3) url None (requests st))
    as [response log].
  cbn [fst snd] in *. rewrite Hf by lia.
  destruct (site url) as [r|]; [|reflexivity].
  destruct (ok r); [|reflexivity]. now destruct (utf8 r).
Qed.

Lemma swept_init : Swept (Bee.init base_url).
Proof.
  constructor; simpl.
  - auto.
  - intros u [[]|[<-|[]]]. constructor.
  - intros _ u link [].
  - intros p [].
  - intros u p [].
Qed.

Lemma swept_step (st : State) :
  Bee.Inv base_url allowed_domains keywords max_pages [] st ->
  Bee.running max_pages st = true ->
  Swept st -> Swept (iteration st).
Proof.
  intros Hinv Hrun [Hbase Hfol Hlinks Hfound Hkept].
  destruct (iteration_pop canonical_url client pick _ _ _ _ st Hinv Hrun)
    as [url [rest [Hpop [Hnew ->]]]].
  destruct (pop_cut _ _ _ _ Hpop) as [l1 [l2 [Hq ->]]].
  rewrite crawl_page_links. cbn [visited to_visit product_urls requests].
  set (st1 := {| visited := visited st ++ [url]; to_visit := l1 ++ l2;
                 product_urls := product_urls st;
                 requests := snd (attempts_loop client (seq 0 max_retries)
                                    url None (requests st)) |}).
  destruct (fold_visit_frame keywords max_pages (bee_links url) st1)
    as [Hv [_ [Hpincl Hqincl]]].
  cbn [visited to_visit product_urls st1] in Hv, Hpincl, Hqincl.
  assert (Hurl : followed url).
  { apply Hfol. right. rewrite Hq. apply in_app_iff. simpl. auto. }
  assert (Hmove : forall u, In u (visited st) \/ In u (to_visit st) ->
                    In u (visited st ++ [url]) \/
                    In u (to_visit (fold_left visit_link (bee_links url) st1))).
  { intros u [H|H]; [left; apply in_app_iff; auto|].
    rewrite Hq in H. apply in_app_iff in H.
    destruct H as [H|[<-|H]].
    - right. apply Hqincl, in_app_iff. auto.
    - left. apply in_app_iff. simpl. auto.
    - right. apply Hqincl, in_app_iff. auto. }
  constructor; rewrite ?Hv.
  - apply Hmove, Hbase.
  - intros u [H|H].
    + apply in_app_iff in H. destruct H as [H|[<-|[]]]; auto.
    + destruct (proj1 (fold_visit_back (bee_links url) st1 u) H) as [H'|H'].
      * apply Hfol. right. rewrite Hq. simpl in H'.
        apply in_app_iff in H'. apply in_app_iff. simpl. tauto.
      * eapply Explore.followed_link; [exact Hurl | exact H'].
  - intros Hspare u link Hu Hl.
    rewrite length_app in Hspare. simpl in Hspare.
    apply in_app_iff in Hu. destruct Hu as [Hu|[<-|[]]].
    + apply Hmove. apply (Hlinks ltac:(lia) u link Hu Hl).
    + destruct (in_dec string_dec link (visited st ++ [url])) as [Hs|Hs];
        [auto|].
      right. apply fold_visit_queued; [exact Hl | | exact Hs].
      simpl. rewrite length_app. simpl. lia.
  - intros p Hp.
    destruct (proj2 (fold_visit_back (bee_links url) st1 p) Hp)
      as [H|[H1 H2]].
    + destruct (Hfound p H) as [u [Hu Hrest]].
      exists u. split; [apply in_app_iff; auto | exact Hrest].
    + exists url. split; [apply in_app_iff; simpl; auto | auto].
  - intros u p Hu Hl Hprod.
    apply in_app_iff in Hu. destruct Hu as [Hu|[<-|[]]].
    + apply Hpincl. eapply Hkept; eauto.
    + now apply fold_visit_products.
Qed.

Lemma head_swept (st : State) : at_loop_head st -> Swept st.
Proof.
  induction 1 as [|st Hh IH Hr]; [apply swept_init|].
  apply swept_step; auto. eapply at_loop_head_inv; eauto.
Qed.

(** When the answers depend on the URL alone, the links on the pages
    are of printable ASCII without square brackets, so that [urlparse]
    returns for each, and [crawl_with_scrapingbee] ends with budget to
    spare, it has visited exactly the URLs that can be come to from the
    base URL through the links it takes from pages, and it returns
    exactly the links of those pages that hold a keyword: nothing within
    reach is missed, and the result does not depend on which URL
    [to_visit.pop()] took in which turn. *)
Theorem bee_visits_all_with_budget_to_spare (final : State)
    (Hfinal : Bee.crawl_with_scrapingbee canonical_url client pick base_url
                allowed_domains keywords max_pages max_pages = Some final)
    (Hspare : List.length (visited final) < max_pages)
    (Hplain : forall u r l,
        In u (visited final) -> site u = Returns r ->
        In l (_extract_links canonical_url base_url (body r)) ->
        Plain.plain l = true) :
  to_visit final = [] /\
  (forall u, In u (visited final) <-> followed u) /\
  (forall p, In p (product_urls final) <->
             exists u, followed u /\ In p (bee_links u) /\
                       _is_product_url p keywords = true).
Proof.
  destruct (bee_final canonical_url client pick base_url allowed_domains
              keywords max_pages) as [final' [Hf [Hh Hinv]]].
  rewrite Hfinal in Hf. injection Hf as <-.
  pose proof (head_swept final Hh) as Hs.
  destruct (crawl_loop_total canonical_url client pick base_url
              allowed_domains keywords max_pages max_pages
              (Bee.init base_url) (bee_init_inv _ _ _ _))
    as [final' [Hf [_ [Hr _]]]]; [simpl; lia|].
  unfold Bee.crawl_with_scrapingbee in Hfinal. rewrite Hfinal in Hf.
  injection Hf as <-.
  assert (Hq : to_visit final = []).
  { unfold Bee.running in Hr. apply andb_false_iff in Hr.
    destruct Hr as [Hr|Hr].
    - destruct (to_visit final); [reflexivity | discriminate].
    - apply Nat.ltb_ge in Hr. lia. }
  destruct Hs as [Hbase Hfol Hlinks Hfound Hkept].
  rewrite Hq in *.
  assert (Hall : forall u, followed u -> In u (visited final)).
  { induction 1 as [|u link Hu IH Hl].
    - destruct Hbase as [H|[]]. exact H.
    - destruct (Hlinks Hspare u link IH Hl) as [H|[]]. exact H. }
  split; [reflexivity|]. split.
  - intros u. split; [intros H; apply Hfol; auto | apply Hall].
  - intros p. split.
    + intros Hp. destruct (Hfound p Hp) as [u [Hu Hrest]].
      exists u. split; [apply Hfol; auto | exact Hrest].
    + intros [u [Hu [Hl Hprod]]]. eapply Hkept; eauto.
Qed.

End BeeSweep.

(* ================================================================== *)
(** * Draining the frontier, and running out of budget first *)
(* ================================================================== *)

Section DrainClaims.
Import PyStr Urllib Classify Web Extract.

Variable canonical_url : string -> string -> Canonical.
Variable base_url : string.
Variable allowed_domains keywords : list string.
Variable max_pages : nat.

(** The arguments of [crawl_with_scrapingbee]. *)
Variable client : nat -> string -> ProxyParams -> Reply.
Variable pick : Bee.State -> nat.

(** The arguments and the surroundings of the queue-based [crawl]. *)
Variable is_same_domain : string -> list string -> bool.
Variable api_key : option string.
Variable site : string -> Reply.
Variable concurrency : nat.

Local Abbreviation bee_crawl :=
  (Bee.crawl_with_scrapingbee canonical_url client pick base_url
     allowed_domains keywords max_pages).
Local Abbreviation bee_iteration :=
  (Bee.iteration canonical_url client pick base_url allowed_domains keywords
     max_pages).
Local Abbreviation bee_head :=
  (Bee.at_loop_head canonical_url client pick base_url allowed_domains
     keywords max_pages).
Local Abbreviation bee_links :=
  (Explore.bee_links canonical_url site base_url allowed_domains).
Local Abbreviation followed :=
  (Explore.followed canonical_url site base_url allowed_domains).
Local Abbreviation queue_reachable :=
  (Frontier.reachable canonical_url is_same_domain api_key site base_url
     allowed_domains keywords concurrency max_pages).
Local Abbreviation queue_step :=
  (Frontier.worker_step canonical_url is_same_domain api_key site
     allowed_domains keywords max_pages).
Local Abbreviation queue_run :=
  (Frontier.run canonical_url is_same_domain api_key site allowed_domains
     keywords max_pages).
Local Abbreviation queue_crawl :=
  (Frontier.crawl canonical_url is_same_domain api_key site base_url
     allowed_domains keywords concurrency max_pages).
Local Abbreviation page_links := (Frontier.page_links canonical_url site).
Local Abbreviation linked :=
  (Explore.linked canonical_url is_same_domain site base_url allowed_domains).

(** When the list [R] is closed and shorter than the budget, the
    queue-based crawl with a worker returns under every scheduler. *)
Lemma closed_crawl_returns (R : list string) (sched : nat -> nat) :
  1 <= concurrency ->
  Frontier.closed canonical_url is_same_domain site base_url allowed_domains
    R ->
  List.length R < max_pages ->
  exists fuel urls, queue_crawl fuel sched = Frontier.Returned urls.
Proof.
  intros Hworkers Hclosed Hsmall.
  destruct (is_same_domain base_url allowed_domains) eqn:Hd.
  - set (st0 := Frontier.init base_url concurrency).
    assert (Hb : Frontier.Bounded is_same_domain allowed_domains R st0).
    { constructor; simpl.
      - intros u [<-|[]]. split; auto. now apply (proj1 Hclosed).
      - intros u [].
      - intros u Hu. apply repeat_spec in Hu. discriminate.
      - intros Hu. apply repeat_spec in Hu. discriminate. }
    destruct (run_returns canonical_url is_same_domain api_key site
                base_url allowed_domains keywords concurrency max_pages R
                Hclosed Hsmall sched
                (Frontier.work_left canonical_url site R st0) Hworkers
                st0 0 (pool_init_inv _ _ _ _ _ _) Hb (le_n _))
      as [urls Hrun].
    eauto.
  - exists 1, []. apply first_step_returns; auto.
Qed.

(** When the queue-based crawl has returned with the key set, it has seen
    what can be come to, requested what of it lies in the allowed domains,
    and recorded what of it is not the base URL and has a keyword in its
    path. *)
Lemma drained_state (final : Frontier.State) :
  truthy api_key = true ->
  queue_reachable final -> Frontier.unfinished final = 0 ->
  (forall u, In u (Frontier.seen final) <-> linked u) /\
  (forall u, In u (Frontier.requests final) <->
             linked u /\ is_same_domain u allowed_domains = true) /\
  (forall u, In u (Frontier.product_candidates final) <->
             linked u /\ u <> base_url /\
             _looks_like_product_url u keywords = true).
Proof.
  intros Hkey Hr Hdone.
  pose proof (pool_reachable_inv _ _ _ _ _ _ _ _ _ final Hr) as Hinv.
  pose proof (reachable_explored canonical_url is_same_domain api_key site
                base_url allowed_domains keywords concurrency max_pages
                Hkey final Hr) as He.
  pose proof (returned_all_linked canonical_url is_same_domain api_key site
                base_url allowed_domains keywords concurrency max_pages
                Hkey final Hr Hdone) as Hall.
  split; [|split]; intros u; split.
  - intros Hs. apply (Explore.exp_linked _ _ _ _ _ _ He u (or_introl Hs)).
  - intros Hl. now apply Hall.
  - intros Hu.
    destruct (Frontier.inv_requests _ _ _ _ _ _ _ Hinv u Hu) as [Hs Hd].
    split; [apply (Explore.exp_linked _ _ _ _ _ _ He u (or_introl Hs))
           | exact Hd].
  - intros [Hl Hd]. now apply Hall.
  - intros Hu.
    destruct (Explore.exp_candidates _ _ _ _ _ _ He u Hu) as [Hne Hwhere].
    split; [apply (Explore.exp_linked _ _ _ _ _ _ He u Hwhere)|].
    split; [exact Hne|].
    apply (Frontier.inv_candidates _ _ _ _ _ _ _ Hinv u Hu).
  - intros [Hl [Hne Hp]].
    destruct (Hall u Hl) as [Hseen _].
    destruct (reachable_classified _ _ _ _ _ _ _ _ _ final Hr u
                (or_introl Hseen)) as [->|H]; [congruence | auto].
Qed.

(** When [crawl_with_scrapingbee] has left its loop with budget to spare
    and the answers depend on the URL alone, nothing is left in the
    frontier and every URL that can be come to has been visited. *)
Lemma swept_all (final : Bee.State) :
  (forall n u p, client n u p = site u) ->
  bee_head final -> Bee.running max_pages final = false ->
  List.length (Bee.visited final) < max_pages ->
  Bee.to_visit final = [] /\
  forall u, In u (Bee.visited final) <-> followed u.
Proof.
  intros Hsite Hh Hr Hspare.
  pose proof (head_swept canonical_url client pick site base_url
                allowed_domains keywords max_pages Hsite final Hh) as Hs.
  assert (Hq : Bee.to_visit final = []).
  { unfold Bee.running in Hr. apply andb_false_iff in Hr.
    destruct Hr as [Hr|Hr].
    - destruct (Bee.to_visit final); [reflexivity | discriminate].
    - apply Nat.ltb_ge in Hr. lia. }
  split; [exact Hq|].
  destruct Hs as [Hbase Hfol Hlinks _ _]. rewrite Hq in *.
  intros u. split; [intros H; apply Hfol; auto|].
  induction 1 as [|v link Hv IH Hl].
  - destruct Hbase as [H|[]]. exact H.
  - destruct (Hlinks Hspare v link IH Hl) as [H|[]]. exact H.
Qed.

(** C9, as the code has it.  With at least one worker, if a list [R]
    holds every URL that can be reached inside the allowed domains, is
    shorter than [max_pages], and the links on its pages are of printable
    ASCII without square brackets, so that no worker is ended by a
    [urlparse] that raises, the queue-based crawl returns under every
    scheduler, and it returns with the frontier drained: with the
    key set it has seen exactly the URLs within reach, has sent one
    request for each of them that lies in the allowed domains, and
    returns exactly those of them, the base URL apart, whose path holds a
    keyword.  [crawl_with_scrapingbee] leaves its loop within [max_pages]
    turns in any case; when the answers depend on the URL alone, the links
    are of that kind and fewer than [max_pages] URLs are within its reach,
    it leaves with the frontier empty and every one of them visited. *)
Theorem drain_termination (R : list string) (sched : nat -> nat)
    (Hworkers : 1 <= concurrency)
    (Hclosed : Frontier.closed canonical_url is_same_domain site base_url
                 allowed_domains R)
    (Hsmall : List.length R < max_pages)
    (Hplain : forall u link, In u R -> In link (page_links u) ->
                             Plain.plain link = true) :
  (exists fuel final,
      queue_crawl fuel sched
      = Frontier.Returned (Frontier.product_candidates final) /\
      queue_reachable final /\ Frontier.unfinished final = 0 /\
      Frontier.to_visit final = [] /\
      NoDup (Frontier.requests final) /\
      (truthy api_key = true ->
       (forall u, In u (Frontier.seen final) <-> linked u) /\
       (forall u, In u (Frontier.requests final) <->
                  linked u /\ is_same_domain u allowed_domains = true) /\
       (forall u, In u (Frontier.product_candidates final) <->
                  linked u /\ u <> base_url /\
                  _looks_like_product_url u keywords = true))) /\
  (exists final,
      bee_crawl max_pages = Some final /\
      Bee.running max_pages final = false /\
      ((forall n u p, client n u p = site u) ->
       (forall u r link,
           site u = Returns r ->
           In link (_extract_links canonical_url base_url (body r)) ->
           Plain.plain link = true) ->
       forall Rb,
         (forall u, followed u -> In u Rb) -> List.length Rb < max_pages ->
         Bee.to_visit final = [] /\
         forall u, In u (Bee.visited final) <-> followed u)).
Proof.
  split.
  - destruct (closed_crawl_returns R sched Hworkers Hclosed Hsmall)
      as [fuel [urls Hrun]].
    destruct (run_result canonical_url is_same_domain api_key site base_url
                allowed_domains keywords concurrency max_pages sched fuel 0
                _ urls (Frontier.reach_init _ _ _ _ _ _ _ _ _) Hrun)
      as [_ [final [Hr [Hdone ->]]]].
    pose proof (pool_reachable_inv _ _ _ _ _ _ _ _ _ final Hr) as Hinv.
    exists fuel, final. split; [exact Hrun|]. split; [exact Hr|].
    split; [exact Hdone|]. split.
    + pose proof (Frontier.inv_unfinished _ _ _ _ _ _ _ Hinv) as Hu.
      destruct (Frontier.to_visit final); [reflexivity | simpl in Hu; lia].
    + split; [apply (Frontier.inv_nodup_requests _ _ _ _ _ _ _ Hinv)|].
      intros Hkey. now apply drained_state.
  - destruct (bee_final canonical_url client pick base_url allowed_domains
                keywords max_pages) as [final [Hf [Hh Hinv]]].
    destruct (crawl_loop_total canonical_url client pick base_url
                allowed_domains keywords max_pages max_pages
                (Bee.init base_url) (bee_init_inv _ _ _ _))
      as [final' [Hf' [_ [Hr _]]]]; [simpl; lia|].
    unfold Bee.crawl_with_scrapingbee in Hf. rewrite Hf in Hf'.
    injection Hf' as <-.
    exists final. split; [exact Hf|]. split; [exact Hr|].
    intros Hsite _ Rb Hcover Hfew.
    apply swept_all; auto.
    pose proof (head_swept canonical_url client pick site base_url
                  allowed_domains keywords max_pages Hsite final Hh) as Hs.
    assert (Hle : List.length (Bee.visited final) <= List.length Rb).
    { apply NoDup_incl_length.
      - apply (Bee.inv_nodup_visited _ _ _ _ _ _ Hinv).
      - intros u Hu. apply Hcover.
        apply (Explore.sw_followed _ _ _ _ _ _ _ Hs). auto. }
    lia.
Qed.

(** C10 where the code departs from it.  Both crawls record a link that
    lies in the allowed domains and matches a keyword when they read the
    page that holds it, before the link is fetched: in
    [crawl_with_scrapingbee] it is among the products at the end of the
    turn that fetched the page, a page whose links are of printable ASCII
    without square brackets, and it is in what the crawl returns,
    whatever happens to the link later and also when the budget is used
    up first; in the queue-based crawl the transition that reads the page
    puts every such link other than the base URL among the candidates,
    and whatever is returned from there on holds it.  But the queue-based
    crawl returns nothing when the budget is used up first: once its
    workers have left their loops through [break] while the queue still
    holds a URL, [join] waits for ever, with the link recorded and never
    returned. *)
Theorem candidates_stranded_at_budget (link : string) :
  (forall st url rest r,
      bee_head st -> Bee.running max_pages st = true ->
      pop (pick st) (Bee.to_visit st) = Some (url, rest) ->
      fst (Bee.attempts_loop client (seq 0 Bee.max_retries) url None
             (Bee.requests st)) = Some r ->
      ok r = true -> utf8 r = true ->
      (forall l, In l (_extract_links canonical_url base_url (body r)) ->
                 Plain.plain l = true) ->
      In link (_extract_links canonical_url base_url (body r)) ->
      Bee.in_allowed allowed_domains link = true ->
      _is_product_url link keywords = true ->
      In link (Bee.product_urls (bee_iteration st)) /\
      (forall q, In q (Bee.requests (bee_iteration st)) ->
                 In q (Bee.requests st) \/ req_url q = url) /\
      exists final,
        bee_crawl max_pages = Some final /\
        In link (Bee.product_urls final)) /\
  (forall st i st' url,
      queue_reachable st -> queue_step i st = Some st' ->
      nth_error (Frontier.workers st) i = Some (Frontier.Fetching url) ->
      (forall l, In l (page_links url) -> Plain.plain l = true) ->
      In link (page_links url) ->
      is_same_domain link allowed_domains = true ->
      _looks_like_product_url link keywords = true ->
      link <> base_url ->
      In link (Frontier.product_candidates st') /\
      (forall fuel sched k urls,
          queue_run fuel sched k st' = Frontier.Returned urls ->
          In link urls)) /\
  (forall st,
      queue_reachable st ->
      In link (Frontier.product_candidates st) ->
      (forall w, In w (Frontier.workers st) -> w = Frontier.Exited) ->
      Frontier.to_visit st <> [] ->
      forall fuel sched k,
        queue_run fuel sched k st
        = match fuel with 0 => Frontier.OutOfFuel | S _ => Frontier.Hung end).
Proof.
  split; [|split].
  - intros st url rest r Hhead Hrun Hpop Hresp Hok Hutf _ Hlink Hdom Hprod.
    pose proof (at_loop_head_inv _ _ _ _ _ _ _ st Hhead) as Hinv.
    destruct (iteration_pop canonical_url client pick _ _ _ _ st Hinv Hrun)
      as [url' [rest' [Hpop' [_ Hit]]]].
    rewrite Hpop in Hpop'. injection Hpop' as <- <-.
    assert (Hnow : In link (Bee.product_urls (bee_iteration st))).
    { rewrite Hit. unfold Bee.crawl_page, Bee.try_page. cbn [Bee.requests].
      destruct (Bee.attempts_loop client _ url None (Bee.requests st))
        as [response log]. cbn [fst] in Hresp. subst response.
      rewrite Hok, Hutf. apply fold_visit_products; auto.
      apply filter_links_iff. auto. }
    split; [exact Hnow|]. split.
    + rewrite Hit.
      match goal with
      | |- forall q, In q (Bee.requests (Bee.crawl_page _ _ _ _ _ _ ?u ?s)) -> _ =>
          destruct (crawl_page_frame canonical_url client base_url
                      allowed_domains keywords max_pages u s)
            as [_ [_ [_ Hreq]]]
      end.
      rewrite Hreq. cbn [Bee.requests].
      destruct (page_fetch_log client url None (Bee.requests st))
        as [new [-> [_ [_ Hall]]]].
      intros q Hq. apply in_app_iff in Hq. destruct Hq as [Hq|Hq]; auto.
      right. rewrite Forall_forall in Hall. auto.
    + destruct (bee_keeps_products canonical_url base_url allowed_domains
                  keywords max_pages client pick (bee_iteration st))
        as [final [Hf Hincl]]; [now constructor|].
      exists final. auto.
  - intros st i st' url Hst Hstep Hw _ Hlink Hdom Hprod Hne.
    pose proof (reachable_classified _ _ _ _ _ _ _ _ _ st Hst) as Hcl.
    assert (Hin : In link (Frontier.product_candidates st')).
    { unfold Frontier.worker_step in Hstep. rewrite Hw in Hstep.
      injection Hstep as <-.
      destruct (after_fetch_spec canonical_url is_same_domain allowed_domains
                  keywords max_pages i url
                  (Frontier.fetch_result (site url)) st)
        as [links [st2 [Hlinks [HP ->]]]].
      simpl.
      destruct (in_dec string_dec link (Frontier.seen st)) as [Hs|Hs].
      - destruct (Hcl link (or_introl Hs)) as [->|Hk]; [congruence|].
        apply (Frontier.puts_keep _ _ _ _ _ _ HP). auto.
      - apply (Frontier.puts_new _ _ _ _ _ _ HP); auto.
        rewrite Hlinks. exact Hlink. }
    split; [exact Hin|].
    intros fuel sched k urls Hrun.
    assert (Hst' : queue_reachable st')
      by (econstructor; [exact Hst | eexists; eauto]).
    destruct (run_result canonical_url is_same_domain api_key site base_url
                allowed_domains keywords concurrency max_pages sched fuel k
                st' urls Hst' Hrun) as [Hincl _].
    auto.
  - intros st Hst _ Hleft Hqueue fuel sched k.
    pose proof (pool_reachable_inv _ _ _ _ _ _ _ _ _ st Hst) as Hinv.
    pose proof (Frontier.inv_unfinished _ _ _ _ _ _ _ Hinv) as Hu.
    assert (Hpos : (Frontier.unfinished st =? 0) = false).
    { apply Nat.eqb_neq. destruct (Frontier.to_visit st); [congruence|].
      simpl in Hu. lia. }
    assert (Hnone : Frontier.enabled canonical_url is_same_domain api_key
                      site allowed_domains keywords max_pages st = []).
    { destruct (Frontier.enabled _ _ _ _ _ _ _ st) as [|i l] eqn:He;
        [reflexivity|].
      assert (Hi : In i (Frontier.enabled canonical_url is_same_domain
                           api_key site allowed_domains keywords max_pages
                           st)) by (rewrite He; simpl; auto).
      apply enabled_iff in Hi. destruct Hi as [_ [st' Hstep]].
      unfold Frontier.worker_step in Hstep.
      destruct (nth_error (Frontier.workers st) i) as [w|] eqn:Hw;
        [|discriminate].
      apply nth_error_In in Hw. rewrite (Hleft w Hw) in Hstep.
      discriminate. }
    destruct fuel; simpl; rewrite Hpos; [reflexivity|].
    now rewrite Hnone.
Qed.

End DrainClaims.

(* ================================================================== *)
(** * The further properties on the shop *)
(* ================================================================== *)

Section MoreShopRuns.
Import PyStr Urllib Classify Web Extract.

(** The links on the pages of the shop are of printable ASCII without
    square brackets, whether they are resolved against the page, as the
    queue-based crawl does, or against the seed. *)
Lemma shop_links_plain (u link : string) :
  In link (Frontier.page_links Utils.canonical_url Shop.site u) ->
  Plain.plain link = true.
Proof.
  unfold Frontier.page_links, Shop.site.
  destruct (String.eqb u Shop.seed) eqn:E1.
  - apply String.eqb_eq in E1. subst u. intros H. vm_compute in H.
    repeat (destruct H as [<-|H]; [reflexivity|]). destruct H.
  - destruct (String.eqb u "https://shop.test/cat/") eqn:E2.
    + apply String.eqb_eq in E2. subst u. intros H. vm_compute in H.
      repeat (destruct H as [<-|H]; [reflexivity|]). destruct H.
    + destruct (String.eqb u "https://shop.test/about"); intros H;
        destruct H.
Defined.

Lemma shop_seed_links_plain (u : string) (r : Response) (l : string) :
  Shop.site u = Returns r ->
  In l (_extract_links Utils.canonical_url Shop.seed (body r)) ->
  Plain.plain l = true.
Proof.
  unfold Shop.site.
  destruct (String.eqb u Shop.seed);
    [|destruct (String.eqb u "https://shop.test/cat/");
      [|destruct (String.eqb u "https://shop.test/about")]];
    intros Hr; injection Hr as <-; intros H; vm_compute in H;
    repeat (destruct H as [<-|H]; [reflexivity|]); destruct H.
Defined.

Lemma extract_links_resolves_every_href_witness :
  anchors {| nonempty := true;
             anchors := Some ["/product/1"; "#top"; "/product/1"] |}
  = Some ["/product/1"; "#top"; "/product/1"] /\
  (forall href, In href ["/product/1"; "#top"; "/product/1"] ->
                Utils.canonical_url Shop.seed href <> Fails) /\
  NoDup (_extract_links Utils.canonical_url Shop.seed
           {| nonempty := true;
              anchors := Some ["/product/1"; "#top"; "/product/1"] |}) /\
  In "https://shop.test/product/1"
    (_extract_links Utils.canonical_url Shop.seed
       {| nonempty := true;
          anchors := Some ["/product/1"; "#top"; "/product/1"] |}).
Proof.
  assert (Hfine : forall href,
             In href ["/product/1"; "#top"; "/product/1"] ->
             Utils.canonical_url Shop.seed href <> Fails).
  { intros href [<-|[<-|[<-|[]]]]; vm_compute; discriminate. }
  split; [reflexivity|]. split; [exact Hfine|].
  destruct (extract_links_resolves_every_href Utils.canonical_url Shop.seed
              {| nonempty := true;
                 anchors := Some ["/product/1"; "#top"; "/product/1"] |}
              ["/product/1"; "#top"; "/product/1"] eq_refl Hfine)
    as [Hin [Hnd _]].
  split; [exact Hnd|].
  apply Hin. exists "/product/1". split; [simpl; auto | reflexivity].
Defined.

Lemma extract_links_all_or_nothing_witness :
  (exists anchor_tags href,
      anchors {| nonempty := true;
                 anchors := Some ["/product/1"; "mailto:"] |}
      = Some anchor_tags /\
      In href anchor_tags /\
      (fun base href =>
         if String.eqb href "mailto:" then Fails else Resolved href)
        Shop.seed href = Fails) /\
  _extract_links
    (fun base href =>
       if String.eqb href "mailto:" then Fails else Resolved href)
    Shop.seed
    {| nonempty := true; anchors := Some ["/product/1"; "mailto:"] |} = [].
Proof.
  assert (H : exists anchor_tags href,
             anchors {| nonempty := true;
                        anchors := Some ["/product/1"; "mailto:"] |}
             = Some anchor_tags /\
             In href anchor_tags /\
             (fun base href =>
                if String.eqb href "mailto:" then Fails else Resolved href)
               Shop.seed href = Fails).
  { exists ["/product/1"; "mailto:"], "mailto:".
    split; [reflexivity|]. split; [simpl; auto | reflexivity]. }
  split; [exact H|].
  apply (extract_links_all_or_nothing
           (fun base href =>
              if String.eqb href "mailto:" then Fails else Resolved href)
           Shop.seed
           {| nonempty := true; anchors := Some ["/product/1"; "mailto:"] |}).
  right. exact H.
Defined.

Lemma fetch_html_outcome_witness :
  0 = 0 /\
  Main.fetch_html_with_scrapingbee Shop.client Shop.seed 0 []
  = (Main.FetchNone, []) /\
  1 <= 3 /\
  fst (Main.fetch_html_with_scrapingbee Shop.unavailable Shop.seed 3 [])
  <> Main.FetchNone.
Proof.
  split; [reflexivity|].
  split; [apply (proj1 (fetch_html_outcome Shop.client Shop.seed 0 []));
          reflexivity|].
  assert (H3 : 1 <= 3) by lia.
  split; [exact H3|].
  destruct (proj2 (fetch_html_outcome Shop.unavailable Shop.seed 3 []) H3)
    as [n [_ [_ [_ Hout]]]].
  intros E. rewrite E in Hout. exact Hout.
Defined.

Lemma process_product_ninefold_witness :
  (forall n p r,
      Shop.not_found n "https://shop.test/product/1" p = Returns r ->
      andb (ok r) (utf8 r) = false) /\
  List.length
    (snd (Processing.process_product Shop.not_found
            (fun _ _ log => (Some "slug", log))
            "https://shop.test/product/1" [])) = 9.
Proof.
  assert (Hfail : forall n p r,
             Shop.not_found n "https://shop.test/product/1" p = Returns r ->
             andb (ok r) (utf8 r) = false).
  { intros n p r H. injection H as <-. reflexivity. }
  split; [exact Hfail|].
  rewrite (process_product_ninefold Shop.not_found
             (fun _ _ log => (Some "slug", log))
             "https://shop.test/product/1" [] Hfail).
  reflexivity.
Defined.

Lemma product_list_ascending_witness :
  ["https://shop.test/product/2"; "https://shop.test/product/1";
   "https://shop.test/product/2"] <> [] /\
  In "https://shop.test/product/1"
    (Processing.product_list
       ["https://shop.test/product/2"; "https://shop.test/product/1";
        "https://shop.test/product/2"] Shop.seed) /\
  Processing.product_list [] Shop.seed = [Shop.seed].
Proof.
  assert (Hne : ["https://shop.test/product/2"; "https://shop.test/product/1";
                 "https://shop.test/product/2"] <> []) by discriminate.
  split; [exact Hne|].
  destruct (product_list_ascending
              ["https://shop.test/product/2"; "https://shop.test/product/1";
               "https://shop.test/product/2"] Shop.seed)
    as [_ [_ [_ [Hin _]]]].
  split; [apply (Hin Hne); simpl; auto|].
  destruct (product_list_ascending [] Shop.seed) as [_ [_ [_ [_ Hnone]]]].
  apply Hnone. reflexivity.
Defined.

Lemma run_summary_witness :
  truthy (Some "key") = true /\
  Plain.plain Shop.seed = true /\
  (forall n u p r l,
      Shop.client n u p = Returns r ->
      In l (_extract_links Utils.canonical_url Shop.seed (body r)) ->
      Plain.plain l = true) /\
  exists final count items log,
    Bee.crawl_with_scrapingbee Utils.canonical_url Shop.client Shop.oldest
      Shop.seed
      (Processing.allowed_domains
         {| Processing.cfg_product_url_keywords := None;
            Processing.cfg_allowed_domains := None |} Shop.seed)
      (Processing.keywords
         {| Processing.cfg_product_url_keywords := None;
            Processing.cfg_allowed_domains := None |}) 100 100 = Some final /\
    Processing.run Shop.client (fun _ _ log => (Some "slug", log))
      Utils.canonical_url Shop.oldest (Some "key")
      {| Processing.cfg_product_url_keywords := None;
         Processing.cfg_allowed_domains := None |} Shop.seed 100
    = Some (Processing.Summary count items log) /\
    map Processing.item_url items
    = Processing.product_list (Bee.product_urls final) Shop.seed /\
    1 <= count.
Proof.
  assert (Hlinks : forall n u p r l,
             Shop.client n u p = Returns r ->
             In l (_extract_links Utils.canonical_url Shop.seed (body r)) ->
             Plain.plain l = true)
    by (intros n u p; apply shop_seed_links_plain).
  split; [reflexivity|]. split; [reflexivity|]. split; [exact Hlinks|].
  destruct (run_summary Shop.client (fun _ _ log => (Some "slug", log))
              Utils.canonical_url Shop.oldest (Some "key")
              {| Processing.cfg_product_url_keywords := None;
                 Processing.cfg_allowed_domains := None |} Shop.seed eq_refl
              eq_refl Hlinks)
    as [final [count [items [log [Hf [Hrun [Hmap [_ [Hc _]]]]]]]]].
  exists final, count, items, log. auto.
Defined.

Lemma semaphore_never_waits_witness :
  Frontier.reachable Utils.canonical_url Utils.is_same_domain (Some "key")
    Shop.site Shop.seed Shop.allowed Shop.keywords 2 10 Shop.pool_after_seed /\
  Frontier.sem Shop.pool_after_seed
  + Frontier.fetching (Frontier.workers Shop.pool_after_seed) = 2.
Proof.
  split; [exact pool_after_seed_reachable|].
  apply (semaphore_never_waits Utils.canonical_url Utils.is_same_domain
           (Some "key") Shop.site Shop.seed Shop.allowed Shop.keywords 2 10
           Shop.pool_after_seed pool_after_seed_reachable).
Defined.

Lemma queue_budget_overrun_witness :
  Frontier.reachable Utils.canonical_url Utils.is_same_domain (Some "key")
    Shop.site Shop.seed Shop.allowed Shop.keywords 2 10 Shop.pool_after_seed /\
  List.length (Frontier.requests Shop.pool_after_seed) <= 10 - 1 + 2.
Proof.
  split; [exact pool_after_seed_reachable|].
  apply (queue_budget_overrun Utils.canonical_url Utils.is_same_domain
           (Some "key") Shop.site Shop.seed Shop.allowed Shop.keywords 2 10
           Shop.pool_after_seed pool_after_seed_reachable).
Defined.

Lemma join_accounting_witness :
  Frontier.reachable Utils.canonical_url Utils.is_same_domain (Some "key")
    Shop.site Shop.seed Shop.allowed Shop.keywords 2 10 Shop.pool_after_seed /\
  (forall u link,
      In u (Frontier.requests Shop.pool_after_seed) ->
      In link (Frontier.page_links Utils.canonical_url Shop.site u) ->
      Plain.plain link = true) /\
  Frontier.unfinished Shop.pool_after_seed
  = List.length (Frontier.to_visit Shop.pool_after_seed)
    + Frontier.fetching (Frontier.workers Shop.pool_after_seed).
Proof.
  assert (Hplain : forall u link,
             In u (Frontier.requests Shop.pool_after_seed) ->
             In link (Frontier.page_links Utils.canonical_url Shop.site u) ->
             Plain.plain link = true)
    by (intros u link _; apply shop_links_plain).
  split; [exact pool_after_seed_reachable|]. split; [exact Hplain|].
  exact (proj1 (join_accounting Utils.canonical_url Utils.is_same_domain
                  (Some "key") Shop.site Shop.seed Shop.allowed Shop.keywords
                  2 10 Shop.pool_after_seed pool_after_seed_reachable
                  Hplain)).
Defined.

Lemma shop_crawl_returns :
  Frontier.crawl Utils.canonical_url Utils.is_same_domain (Some "key")
    Shop.site Shop.seed Shop.allowed Shop.keywords 2 10 40 Shop.in_turn
  = Frontier.Returned
      ["https://shop.test/product/1"; "https://shop.test/product/2"].
Proof. vm_compute. reflexivity. Defined.


Lemma queue_fetches_linked_pages_witness :
  truthy (Some "key") = true /\
  Frontier.crawl Utils.canonical_url Utils.is_same_domain (Some "key")
    Shop.site Shop.seed Shop.allowed Shop.keywords 2 10 40 Shop.in_turn
  = Frontier.Returned
      ["https://shop.test/product/1"; "https://shop.test/product/2"] /\
  exists final,
    Frontier.unfinished final = 0 /\
    In "https://shop.test/cat/item1" (Frontier.requests final).
Proof.
  split; [reflexivity|]. split; [exact shop_crawl_returns|].
  destruct (queue_fetches_linked_pages Utils.canonical_url
              Utils.is_same_domain (Some "key") Shop.site Shop.seed
              Shop.allowed Shop.keywords 2 10 eq_refl 40 Shop.in_turn
              _ shop_crawl_returns)
    as [final [_ [Hdone [_ [_ [Hreq _]]]]]].
  exists final. split; [exact Hdone|].
  apply Hreq. split; [|reflexivity].
  apply Explore.linked_page with (u := "https://shop.test/cat/");
    [|reflexivity | vm_compute; auto | reflexivity].
  apply Explore.linked_page with (u := Shop.seed);
    [apply Explore.linked_base | reflexivity | vm_compute; tauto
     | reflexivity].
Defined.


Lemma bee_log_page_by_page_witness :
  exists final blocks,
    Bee.crawl_with_scrapingbee Utils.canonical_url Shop.unavailable
      Shop.oldest Shop.seed Shop.allowed Shop.keywords 1 1 = Some final /\
    Bee.requests final = Explore.log_of blocks /\
    map fst blocks = Bee.visited final.
Proof.
  destruct (bee_log_page_by_page Utils.canonical_url Shop.unavailable
              Shop.oldest Shop.seed Shop.allowed Shop.keywords 1)
    as [final [blocks [Hf [Hlog [Hv _]]]]].
  exists final, blocks. auto.
Defined.


Lemma crawl_page_contract_witness :
  (forall r l,
      Shop.site Shop.seed = Returns r ->
      In l (_extract_links Utils.canonical_url Shop.seed (body r)) ->
      Plain.plain l = true) /\
  In "https://shop.test/product/1"
    (fst (fst (Batch._crawl_page Utils.canonical_url (Some "key") Shop.site
                 Shop.seed Shop.allowed Shop.seed Shop.keywords))) /\
  In "https://shop.test/product/1"
    (snd (fst (Batch._crawl_page Utils.canonical_url (Some "key") Shop.site
                 Shop.seed Shop.allowed Shop.seed Shop.keywords))).
Proof.
  assert (Hplain : forall r l,
             Shop.site Shop.seed = Returns r ->
             In l (_extract_links Utils.canonical_url Shop.seed (body r)) ->
             Plain.plain l = true).
  { intros r l Hr. injection Hr as <-. vm_compute.
    intros [<-|[<-|[<-|[<-|[<-|[]]]]]]; reflexivity. }
  split; [exact Hplain|].
  destruct (crawl_page_contract Utils.canonical_url (Some "key") Shop.site
              Shop.seed Shop.allowed Shop.keywords Shop.seed Hplain)
    as [Hl [Hp _]].
  assert (Hin : In "https://shop.test/product/1"
                  (fst (fst (Batch._crawl_page Utils.canonical_url
                               (Some "key") Shop.site Shop.seed Shop.allowed
                               Shop.seed Shop.keywords)))).
  { apply Hl. exists Shop.seed_response.
    split; [reflexivity|]. split; [reflexivity|]. split; [reflexivity|].
    split; [vm_compute; auto | reflexivity]. }
  split; [exact Hin|]. apply Hp. split; [exact Hin | reflexivity].
Defined.

Lemma no_worker_no_return_witness :
  1 <= 10 /\
  Batches.crawl Utils.canonical_url (Some "key") Shop.site Shop.seed
    Shop.allowed Shop.keywords 0 10 Batch.to_visit 50 = None /\
  Frontier.crawl Utils.canonical_url Utils.is_same_domain (Some "key")
    Shop.site Shop.seed Shop.allowed Shop.keywords 0 10 51 Shop.in_turn
  = Frontier.Hung.
Proof.
  assert (H : 1 <= 10) by lia.
  split; [exact H|].
  apply (no_worker_no_return Utils.canonical_url Utils.is_same_domain
           (Some "key") Shop.site Shop.seed Shop.allowed Shop.keywords
           Batch.to_visit 10 H 50 Shop.in_turn).
Defined.


Lemma retry_sleeps_bounded_witness :
  1 <= 3 /\
  list_sum (Backoff.fetch_sleeps Shop.unavailable 3 (seq 0 3) Shop.seed 0)
  = 13 /\
  list_sum (Backoff.fetch_sleeps Shop.unavailable 3 (seq 0 3) Shop.seed
              (List.length (@nil Request))) + 1
  <= 2 ^ (3 - 1) + 5 * (3 - 1).
Proof.
  assert (H : 1 <= 3) by lia.
  split; [exact H|]. split; [reflexivity|].
  apply (retry_sleeps_bounded Shop.unavailable Shop.seed 3 [] H).
Defined.

Lemma nodup_lists_the_set :
  Batches.lists_the_set (fun st => nodup string_dec (Batch.to_visit st)).
Proof.
  intros st. split; [apply NoDup_nodup | intros u; apply nodup_In].
Defined.

Lemma batch_crawl_returns_witness :
  1 <= 2 /\
  Batches.lists_the_set (fun st => nodup string_dec (Batch.to_visit st)) /\
  exists final,
    Batches.crawl Utils.canonical_url (Some "key") Shop.site Shop.seed
      Shop.allowed Shop.keywords 2 10
      (fun st => nodup string_dec (Batch.to_visit st)) 10 = Some final /\
    Batch.running 10 final = false.
Proof.
  assert (H : 1 <= 2) by lia.
  split; [exact H|]. split; [exact nodup_lists_the_set|].
  apply (batch_crawl_returns Utils.canonical_url (Some "key") Shop.site
           Shop.seed Shop.allowed Shop.keywords 2 10
           (fun st => nodup string_dec (Batch.to_visit st)) H
           nodup_lists_the_set).
Defined.

Lemma batch_crawl_fetches_once_witness :
  1 <= 2 /\
  Batches.lists_the_set (fun st => nodup string_dec (Batch.to_visit st)) /\
  exists final,
    Batches.crawl Utils.canonical_url (Some "key") Shop.site Shop.seed
      Shop.allowed Shop.keywords 2 10
      (fun st => nodup string_dec (Batch.to_visit st)) 10 = Some final /\
    NoDup (Batch.requests final) /\
    List.length (Batch.requests final) <= 10 - 1 + 2.
Proof.
  assert (H : 1 <= 2) by lia.
  split; [exact H|]. split; [exact nodup_lists_the_set|].
  destruct (batch_crawl_fetches_once Utils.canonical_url (Some "key")
              Shop.site Shop.seed Shop.allowed Shop.keywords 2 10
              (fun st => nodup string_dec (Batch.to_visit st)) H
              nodup_lists_the_set)
    as [final [Hf [Hnd [_ [Hlen _]]]]].
  exists final. auto.
Defined.


Lemma bee_visits_all_with_budget_to_spare_witness :
  (forall n u p, Shop.client n u p = Shop.site u) /\
  exists final,
    Bee.crawl_with_scrapingbee Utils.canonical_url Shop.client Shop.oldest
      Shop.seed Shop.allowed Shop.keywords 10 10 = Some final /\
    List.length (Bee.visited final) < 10 /\
    (forall u r l,
        In u (Bee.visited final) -> Shop.site u = Returns r ->
        In l (_extract_links Utils.canonical_url Shop.seed (body r)) ->
        Plain.plain l = true) /\
    Bee.to_visit final = [] /\
    (Explore.followed Utils.canonical_url Shop.site Shop.seed Shop.allowed
       "https://shop.test/item1" ->
     In "https://shop.test/item1" (Bee.visited final)).
Proof.
  assert (Hsite : forall n u p, Shop.client n u p = Shop.site u)
    by reflexivity.
  split; [exact Hsite|].
  destruct (bee_final Utils.canonical_url Shop.client Shop.oldest Shop.seed
              Shop.allowed Shop.keywords 10) as [final [Hf _]].
  assert (Hspare : List.length (Bee.visited final) < 10).
  { pose proof Hf as Hc. vm_compute in Hc. injection Hc as <-.
    simpl. lia. }
  assert (Hplain : forall u r l,
             In u (Bee.visited final) -> Shop.site u = Returns r ->
             In l (_extract_links Utils.canonical_url Shop.seed (body r)) ->
             Plain.plain l = true)
    by (intros u r l _; apply shop_seed_links_plain).
  exists final. split; [exact Hf|]. split; [exact Hspare|].
  split; [exact Hplain|].
  destruct (bee_visits_all_with_budget_to_spare Utils.canonical_url
              Shop.client Shop.oldest Shop.site Shop.seed Shop.allowed
              Shop.keywords 10 Hsite final Hf Hspare Hplain) as [Hq [Hv _]].
  split; [exact Hq|]. intros H. apply Hv, H.
Defined.

(** C9 fails as stated: the pages of the shop that lie inside
    [shop.test] are six, fewer than a budget of ten, and yet the
    queue-based crawl with [concurrency = 0] never returns, under any
    scheduler and with any amount of fuel: no worker is there to take the
    seed off the queue. *)
Lemma drain_needs_a_worker :
  Frontier.closed Utils.canonical_url Utils.is_same_domain Shop.site
    Shop.seed Shop.allowed Shop.inside /\
  List.length Shop.inside < 10 /\
  forall fuel sched urls,
    Frontier.crawl Utils.canonical_url Utils.is_same_domain (Some "key")
      Shop.site Shop.seed Shop.allowed Shop.keywords 0 10 fuel sched
    <> Frontier.Returned urls.
Proof.
  split; [exact shop_closed|]. split; [simpl; lia|].
  intros fuel sched urls. destruct fuel; discriminate.
Qed.

Lemma drain_termination_witness :
  1 <= 2 /\
  Frontier.closed Utils.canonical_url Utils.is_same_domain Shop.site
    Shop.seed Shop.allowed Shop.inside /\
  List.length Shop.inside < 10 /\
  (forall u link,
      In u Shop.inside ->
      In link (Frontier.page_links Utils.canonical_url Shop.site u) ->
      Plain.plain link = true) /\
  exists fuel final,
    Frontier.crawl Utils.canonical_url Utils.is_same_domain (Some "key")
      Shop.site Shop.seed Shop.allowed Shop.keywords 2 10 fuel Shop.in_turn
    = Frontier.Returned (Frontier.product_candidates final) /\
    Frontier.unfinished final = 0 /\
    In "https://shop.test/cat/item1" (Frontier.requests final) /\
    In "https://shop.test/product/2" (Frontier.product_candidates final).
Proof.
  assert (H1 : 1 <= 2) by lia.
  assert (H3 : List.length Shop.inside < 10) by (simpl; lia).
  assert (Hplain : forall u link,
             In u Shop.inside ->
             In link (Frontier.page_links Utils.canonical_url Shop.site u) ->
             Plain.plain link = true)
    by (intros u link _; apply shop_links_plain).
  split; [exact H1|]. split; [exact shop_closed|]. split; [exact H3|].
  split; [exact Hplain|].
  destruct (proj1 (drain_termination Utils.canonical_url Shop.seed
                     Shop.allowed Shop.keywords 10 Shop.client Shop.oldest
                     Utils.is_same_domain (Some "key") Shop.site 2
                     Shop.inside Shop.in_turn H1 shop_closed H3 Hplain))
    as [fuel [final [Hrun [_ [Hdone [_ [_ Hall]]]]]]].
  destruct (Hall eq_refl) as [_ [Hreq Hcand]].
  assert (Hcat : Explore.linked Utils.canonical_url Utils.is_same_domain
                   Shop.site Shop.seed Shop.allowed
                   "https://shop.test/cat/").
  { apply Explore.linked_page with (u := Shop.seed);
      [apply Explore.linked_base | reflexivity | vm_compute; tauto
       | reflexivity]. }
  exists fuel, final. split; [exact Hrun|]. split; [exact Hdone|]. split.
  - apply Hreq. split; [|reflexivity].
    apply Explore.linked_page with (u := "https://shop.test/cat/");
      [exact Hcat | reflexivity | vm_compute; auto | reflexivity].
  - apply Hcand. split; [|split; [discriminate | reflexivity]].
    apply Explore.linked_page with (u := Shop.seed);
      [apply Explore.linked_base | reflexivity | vm_compute; tauto
       | reflexivity].
Defined.

Lemma pool_out_of_budget_reachable :
  Frontier.reachable Utils.canonical_url Utils.is_same_domain (Some "key")
    Shop.site Shop.seed Shop.allowed Shop.keywords 1 1
    Shop.pool_out_of_budget.
Proof.
  eapply (steps_reachable _ _ _ _ _ _ _ _ _ [0; 0]);
    [apply Frontier.reach_init | vm_compute; reflexivity].
Defined.

Lemma candidates_stranded_at_budget_witness :
  Frontier.reachable Utils.canonical_url Utils.is_same_domain (Some "key")
    Shop.site Shop.seed Shop.allowed Shop.keywords 1 1
    Shop.pool_out_of_budget /\
  Frontier.product_candidates Shop.pool_out_of_budget
  = ["https://shop.test/product/1"; "https://shop.test/product/2"] /\
  Frontier.workers Shop.pool_out_of_budget = [Frontier.Exited] /\
  Frontier.to_visit Shop.pool_out_of_budget
  = ["https://shop.test/product/1"; "https://shop.test/about";
     "https://shop.test/product/2"; "https://shop.test/cat/"] /\
  (forall fuel sched k urls,
      Frontier.run Utils.canonical_url Utils.is_same_domain (Some "key")
        Shop.site Shop.allowed Shop.keywords 1 fuel sched k
        Shop.pool_out_of_budget
      <> Frontier.Returned urls) /\
  Frontier.crawl Utils.canonical_url Utils.is_same_domain (Some "key")
    Shop.site Shop.seed Shop.allowed Shop.keywords 1 1 10 Shop.in_turn
  = Frontier.Hung /\
  option_map Bee.product_urls
    (Bee.crawl_with_scrapingbee Utils.canonical_url Shop.client Shop.oldest
       Shop.seed Shop.allowed Shop.keywords 1 1)
  = Some ["https://shop.test/product/1"; "https://shop.test/product/2"].
Proof.
  assert (Hin : In "https://shop.test/product/1"
                  (Frontier.product_candidates Shop.pool_out_of_budget))
    by (vm_compute; auto).
  assert (Hleft : forall w, In w (Frontier.workers Shop.pool_out_of_budget) ->
                            w = Frontier.Exited).
  { intros w Hw. vm_compute in Hw. destruct Hw as [<-|[]]. reflexivity. }
  assert (Hqueue : Frontier.to_visit Shop.pool_out_of_budget <> [])
    by (vm_compute; discriminate).
  split; [exact pool_out_of_budget_reachable|].
  split; [vm_compute; reflexivity|]. split; [vm_compute; reflexivity|].
  split; [vm_compute; reflexivity|].
  split; [|split; vm_compute; reflexivity].
  intros fuel sched k urls.
  rewrite (proj2 (proj2 (candidates_stranded_at_budget Utils.canonical_url
                           Shop.seed Shop.allowed Shop.keywords 1
                           Shop.client Shop.oldest Utils.is_same_domain
                           (Some "key") Shop.site 1
                           "https://shop.test/product/1"))
             Shop.pool_out_of_budget pool_out_of_budget_reachable Hin Hleft
             Hqueue fuel sched k).
  destruct fuel; discriminate.
Defined.

(** C5 at the failing input: the seed page of the shop links to
    [https://shop.test@evil.example/product/1], a page on the host
    [evil.example], which holds no allowed domain.  The filter of
    [crawl_with_scrapingbee] looks for the allowed domain in the network
    location, finds [shop.test] in the user information and lets the link
    through: the crawl requests the page and returns it, [_crawl_page]
    hands the link back as well, and [run] goes on to process it.  A
    filter on the host, which is what the spec gives for
    [is_same_domain], keeps the link out of the queue-based crawl. *)
Theorem foreign_host_passes_domain_filter :
  Plain.plain Decoy.link = true /\
  netloc (urlparse Decoy.link) = "shop.test@evil.example" /\
  hostname (urlparse Decoy.link) = Some "evil.example" /\
  existsb (fun domain => contains domain "evil.example") Shop.allowed
  = false /\
  Bee.in_allowed Shop.allowed Decoy.link = true /\
  (exists final,
      Bee.crawl_with_scrapingbee Utils.canonical_url Decoy.client
        Shop.oldest Shop.seed Shop.allowed Shop.keywords 10 10
      = Some final /\
      map req_url (Bee.requests final)
      = [Shop.seed; "https://shop.test/product/2"; Decoy.link] /\
      Bee.product_urls final = ["https://shop.test/product/2"; Decoy.link]) /\
  fst (Batch._crawl_page Utils.canonical_url (Some "key") Decoy.site
         Shop.seed Shop.allowed Shop.seed Shop.keywords)
  = (["https://shop.test/product/2"; Decoy.link],
     ["https://shop.test/product/2"; Decoy.link]) /\
  (exists log,
      Main.run Utils.canonical_url Decoy.client Shop.oldest (Some "key")
        Shop.seed Shop.allowed Shop.keywords 100
      = Some (Main.Discovered ["https://shop.test/product/2"; Decoy.link]
                log)) /\
  Utils.is_same_domain Decoy.link Shop.allowed = false /\
  (exists final,
      Frontier.steps Utils.canonical_url Utils.is_same_domain (Some "key")
        Decoy.site Shop.allowed Shop.keywords 10 [0; 0; 0; 0]
        (Frontier.init Shop.seed 1) = Some final /\
      Frontier.unfinished final = 0 /\
      Frontier.requests final = [Shop.seed; "https://shop.test/product/2"] /\
      Frontier.product_candidates final = ["https://shop.test/product/2"]).
Proof.
  split; [reflexivity|]. split; [reflexivity|]. split; [reflexivity|].
  split; [reflexivity|]. split; [reflexivity|].
  split; [eexists; split; [vm_compute; reflexivity|]; split; reflexivity|].
  split; [reflexivity|].
  split; [eexists; vm_compute; reflexivity|].
  split; [reflexivity|].
  eexists. split; [vm_compute; reflexivity|]. repeat split.
Qed.

End MoreShopRuns.
